(** * Lobstertank: the template resolution and rendering core

    A shallow embedding of the Go package [internal/template] (resolver,
    validator, hasher, renderer factory and bundle assembler) and the
    properties its specification states about it.

    Conventions of the embedding:
    - a Go [string] is a [string] (a sequence of bytes), a Go [int] is a [Z]
      (the code does no arithmetic on the integers it validates, so no
      wrap-around is involved), a slice is a [list] (the code only reads
      [len] and the elements, so [nil] and the empty slice coincide);
    - a Go [map[string]string] is a reference: [None] is the nil map and
      [Some l] points to a [gmap string string] in a heap of maps, so that
      two structs holding the same map really share it;
    - a pointer to a sub-spec ([*ReverseProxySpec], ...) is an [option]:
      no function writes through such a pointer, it only copies out of it;
    - a function that updates its [dst] argument in place returns the
      updated value; the ones that touch maps also thread the heap. *)

From stdpp Require Import gmap strings list sorting pretty.
From Stdlib Require Import ZArith.

Local Open Scope Z_scope.

(** ** Constants (types.go) *)

Definition KindEncodingTemplate : string := "EncodingTemplate".
Definition KindRoleOverlay : string := "RoleOverlay".
Definition KindEnvironmentOverlay : string := "EnvironmentOverlay".
Definition KindInstanceVars : string := "InstanceVars".
Definition APIVersion : string := "lobstertank.io/v1alpha1".

Definition RoleGateway : string := "gateway".
Definition RoleControlPlane : string := "control-plane".
Definition RoleWorker : string := "worker".
Definition RoleObservability : string := "observability".
Definition RoleDBAdjunct : string := "db-adjunct".

Definition TargetPodman : string := "podman".
Definition TargetKubernetes : string := "kubernetes".
Definition TargetOpenShift : string := "openshift".
Definition TargetDroplet : string := "droplet".
Definition TargetSandbox : string := "sandbox".

Definition MergeStrategyReplace : string := "replace".
Definition MergeStrategyAppend : string := "append".
Definition MergeStrategyUnion : string := "union".

(** ** The heap of maps *)

Definition loc := positive.

(** A value of Go type [map[string]string]. *)
Definition mapref := option loc.

Abbreviation Heap := (gmap positive (gmap string string)).

(** The entries of the map a reference denotes; the nil map has none. *)
Definition mapContent (h : Heap) (r : mapref) : gmap string string :=
  match r with
  | None => ∅
  | Some l => h !!! l
  end.

(** [len(m)] *)
Definition mapLen (h : Heap) (r : mapref) : nat := size (mapContent h r).

(** Heap-threading computations. *)
Definition M (A : Type) : Type := Heap → A * Heap.

Definition ret {A} (a : A) : M A := λ h, (a, h).

Definition bind {A B} (m : M A) (k : A → M B) : M B :=
  λ h, let '(a, h') := m h in k a h'.

Notation "'do' x <- m ; k" := (bind m (λ x, k))
  (at level 10, x name, m at level 100, k at level 200).

(** [make(map[string]string)] *)
Definition makeMap : M loc :=
  λ h, let l := fresh (dom h) in (l, <[l := ∅]> h).

(** [for k, v := range src { dst[k] = v }] for a non-nil [dst]. *)
Definition assignAll (dst : loc) (src : mapref) : M unit :=
  λ h, (tt, <[dst := map_fold (λ k v m, <[k := v]> m) (h !!! dst) (mapContent h src)]> h).

(** ** The document schema (types.go) *)

Record Metadata := {
  Metadata_Name : string;
  Metadata_Version : string;
  Metadata_Description : string;
  Metadata_Labels : mapref;
}.

Record IdentitySpec := {
  IdentitySpec_InstanceName : string;
  IdentitySpec_Role : string;
  IdentitySpec_Region : string;
  IdentitySpec_Labels : mapref;
  IdentitySpec_TailnetTags : list string;
}.

Record ResourceSpec := {
  ResourceSpec_CPU : string;
  ResourceSpec_Memory : string;
  ResourceSpec_StoragePaths : list string;
}.

Record ImageSpec := {
  ImageSpec_Repository : string;
  ImageSpec_Tag : string;
  ImageSpec_PullPolicy : string;
}.

Record RuntimeSpec := {
  RuntimeSpec_DeploymentTarget : string;
  RuntimeSpec_Resources : ResourceSpec;
  RuntimeSpec_Image : ImageSpec;
}.

Record PortSpec := {
  PortSpec_Name : string;
  PortSpec_Port : Z;
  PortSpec_HostPort : Z;
  PortSpec_Protocol : string;
}.

Record ReverseProxySpec := {
  ReverseProxySpec_Enabled : bool;
  ReverseProxySpec_Provider : string;
  ReverseProxySpec_TLS : bool;
}.

Record TailscaleSpec := {
  TailscaleSpec_Enabled : bool;
  TailscaleSpec_Provider : string;
  TailscaleSpec_Tags : list string;
  TailscaleSpec_ACLMapping : mapref;
}.

Record MultiGatewaySpec := {
  MultiGatewaySpec_Enabled : bool;
  MultiGatewaySpec_Mode : string;
  MultiGatewaySpec_Priority : Z;
}.

Record NetworkSpec := {
  NetworkSpec_Ports : list PortSpec;
  NetworkSpec_BindAddress : string;
  NetworkSpec_ReverseProxy : option ReverseProxySpec;
  NetworkSpec_Tailscale : option TailscaleSpec;
  NetworkSpec_MultiGateway : option MultiGatewaySpec;
  NetworkSpec_PortsMergeStrategy : string;
}.

Record SecretEntry := {
  SecretEntry_Name : string;
  SecretEntry_Type : string;
  SecretEntry_Ref : string;
}.

Record SecretsSpec := {
  SecretsSpec_Provider : string;
  SecretsSpec_Entries : list SecretEntry;
  SecretsSpec_EntriesMergeStrategy : string;
}.

Record LoggingSpec := {
  LoggingSpec_Destinations : list string;
  LoggingSpec_RedactionRules : list string;
  LoggingSpec_Level : string;
  LoggingSpec_Format : string;
}.

Record MetricsSpec := {
  MetricsSpec_Enabled : bool;
  MetricsSpec_Endpoint : string;
  MetricsSpec_Format : string;
}.

Record TracesSpec := {
  TracesSpec_Enabled : bool;
  TracesSpec_Endpoint : string;
  TracesSpec_Format : string;
}.

Record HealthCheckSpec := {
  HealthCheckSpec_Path : string;
  HealthCheckSpec_Interval : string;
  HealthCheckSpec_Timeout : string;
  HealthCheckSpec_ReadinessGate : bool;
}.

Record ObservabilitySpec := {
  ObservabilitySpec_Logging : LoggingSpec;
  ObservabilitySpec_Metrics : MetricsSpec;
  ObservabilitySpec_Traces : TracesSpec;
  ObservabilitySpec_HealthCheck : HealthCheckSpec;
}.

Record PolicySpec := {
  PolicySpec_UpdateChannel : string;
  PolicySpec_PinnedVersion : string;
  PolicySpec_ApprovedPlugins : list string;
  PolicySpec_ApprovedProviders : list string;
  PolicySpec_FilesystemAllowlist : list string;
  PolicySpec_CommandAllowlist : list string;
}.

Record Spec := {
  Spec_Identity : IdentitySpec;
  Spec_Runtime : RuntimeSpec;
  Spec_Network : NetworkSpec;
  Spec_Secrets : SecretsSpec;
  Spec_Observability : ObservabilitySpec;
  Spec_Policy : PolicySpec;
}.

Record Template := {
  Template_APIVersion : string;
  Template_Kind : string;
  Template_Metadata : Metadata;
  Template_Spec : Spec;
}.

(** The zero values, as Go's composite literals leave unset fields. *)
Definition zeroMetadata : Metadata := Build_Metadata "" "" "" None.
Definition zeroIdentitySpec : IdentitySpec := Build_IdentitySpec "" "" "" None [].
Definition zeroResourceSpec : ResourceSpec := Build_ResourceSpec "" "" [].
Definition zeroImageSpec : ImageSpec := Build_ImageSpec "" "" "".
Definition zeroRuntimeSpec : RuntimeSpec := Build_RuntimeSpec "" zeroResourceSpec zeroImageSpec.
Definition zeroNetworkSpec : NetworkSpec := Build_NetworkSpec [] "" None None None "".
Definition zeroSecretsSpec : SecretsSpec := Build_SecretsSpec "" [] "".
Definition zeroLoggingSpec : LoggingSpec := Build_LoggingSpec [] [] "" "".
Definition zeroMetricsSpec : MetricsSpec := Build_MetricsSpec false "" "".
Definition zeroTracesSpec : TracesSpec := Build_TracesSpec false "" "".
Definition zeroHealthCheckSpec : HealthCheckSpec := Build_HealthCheckSpec "" "" "" false.
Definition zeroObservabilitySpec : ObservabilitySpec :=
  Build_ObservabilitySpec zeroLoggingSpec zeroMetricsSpec zeroTracesSpec zeroHealthCheckSpec.
Definition zeroPolicySpec : PolicySpec := Build_PolicySpec "" "" [] [] [] [].
Definition zeroSpec : Spec :=
  Build_Spec zeroIdentitySpec zeroRuntimeSpec zeroNetworkSpec zeroSecretsSpec
    zeroObservabilitySpec zeroPolicySpec.
Definition zeroTemplate : Template := Build_Template "" "" zeroMetadata zeroSpec.
Definition zeroTailscaleSpec : TailscaleSpec := Build_TailscaleSpec false "" [] None.

(** ** The resolver (resolver.go) *)

(** *** Primitives *)

(** [setIfNonEmpty(&dst, src)]: the value [*dst] holds afterwards. *)
Definition setIfNonEmpty (dst src : string) : string :=
  if decide (src = "") then dst else src.

(** [coalesce(vals...)]: the first non-empty value, or the empty string. *)
Fixpoint coalesce (vals : list string) : string :=
  match vals with
  | [] => ""
  | v :: rest => if decide (v = "") then coalesce rest else v
  end.

(** [mergeMaps(&dst, src)]: the reference [*dst] holds afterwards. *)
Definition mergeMaps (dst src : mapref) : M mapref :=
  λ h,
    if decide (mapLen h src = 0%nat) then (dst, h)
    else
      (do d <- (match dst with
                | None => makeMap
                | Some d => ret d
                end);
       do _ <- assignAll d src;
       ret (Some d)) h.

(** *** Slice merge helpers *)

Definition mergePortSlice (dst src : list PortSpec) (strategy : string) : list PortSpec :=
  if decide (strategy = MergeStrategyAppend) then dst ++ src
  else if decide (strategy = MergeStrategyUnion) then
    let seen := foldl (λ (s : gset string) p, {[PortSpec_Name p]} ∪ s) ∅ dst in
    foldl (λ out p, if decide (PortSpec_Name p ∈ seen) then out else out ++ [p]) dst src
  else src.

Definition mergeSecretEntries (dst src : list SecretEntry) (strategy : string) : list SecretEntry :=
  if decide (strategy = MergeStrategyAppend) then dst ++ src
  else if decide (strategy = MergeStrategyUnion) then
    let seen := foldl (λ (s : gset string) e, {[SecretEntry_Name e]} ∪ s) ∅ dst in
    foldl (λ out e, if decide (SecretEntry_Name e ∈ seen) then out else out ++ [e]) dst src
  else src.

(** *** Per-section merges *)

Definition mergeMetadataLabels (dst src : Template) : M Template :=
  λ h,
    let md := Template_Metadata dst in
    if decide (mapLen h (Metadata_Labels (Template_Metadata src)) = 0%nat) then (dst, h)
    else
      (do d <- (match Metadata_Labels md with
                | None => makeMap
                | Some d => ret d
                end);
       do _ <- assignAll d (Metadata_Labels (Template_Metadata src));
       ret {| Template_APIVersion := Template_APIVersion dst;
              Template_Kind := Template_Kind dst;
              Template_Metadata :=
                {| Metadata_Name := Metadata_Name md;
                   Metadata_Version := Metadata_Version md;
                   Metadata_Description := Metadata_Description md;
                   Metadata_Labels := Some d |};
              Template_Spec := Template_Spec dst |}) h.

Definition mergeIdentity (dst src : IdentitySpec) : M IdentitySpec :=
  do labels <- mergeMaps (IdentitySpec_Labels dst) (IdentitySpec_Labels src);
  ret {| IdentitySpec_InstanceName :=
           setIfNonEmpty (IdentitySpec_InstanceName dst) (IdentitySpec_InstanceName src);
         IdentitySpec_Role := setIfNonEmpty (IdentitySpec_Role dst) (IdentitySpec_Role src);
         IdentitySpec_Region := setIfNonEmpty (IdentitySpec_Region dst) (IdentitySpec_Region src);
         IdentitySpec_Labels := labels;
         IdentitySpec_TailnetTags :=
           if decide (0 < length (IdentitySpec_TailnetTags src))%nat
           then IdentitySpec_TailnetTags src else IdentitySpec_TailnetTags dst |}.

Definition mergeResource (dst src : ResourceSpec) : ResourceSpec :=
  {| ResourceSpec_CPU := setIfNonEmpty (ResourceSpec_CPU dst) (ResourceSpec_CPU src);
     ResourceSpec_Memory := setIfNonEmpty (ResourceSpec_Memory dst) (ResourceSpec_Memory src);
     ResourceSpec_StoragePaths :=
       if decide (0 < length (ResourceSpec_StoragePaths src))%nat
       then ResourceSpec_StoragePaths src else ResourceSpec_StoragePaths dst |}.

Definition mergeImage (dst src : ImageSpec) : ImageSpec :=
  {| ImageSpec_Repository := setIfNonEmpty (ImageSpec_Repository dst) (ImageSpec_Repository src);
     ImageSpec_Tag := setIfNonEmpty (ImageSpec_Tag dst) (ImageSpec_Tag src);
     ImageSpec_PullPolicy := setIfNonEmpty (ImageSpec_PullPolicy dst) (ImageSpec_PullPolicy src) |}.

Definition mergeRuntime (dst src : RuntimeSpec) : RuntimeSpec :=
  {| RuntimeSpec_DeploymentTarget :=
       setIfNonEmpty (RuntimeSpec_DeploymentTarget dst) (RuntimeSpec_DeploymentTarget src);
     RuntimeSpec_Resources := mergeResource (RuntimeSpec_Resources dst) (RuntimeSpec_Resources src);
     RuntimeSpec_Image := mergeImage (RuntimeSpec_Image dst) (RuntimeSpec_Image src) |}.

(** [mergeTailscale(dst, src)] for a non-nil [src]. With a nil [dst] the
    result is the struct [*src] itself, map reference included. *)
Definition mergeTailscale (dst : option TailscaleSpec) (src : TailscaleSpec) : M TailscaleSpec :=
  match dst with
  | None => ret src
  | Some out =>
      do acl <- mergeMaps (TailscaleSpec_ACLMapping out) (TailscaleSpec_ACLMapping src);
      ret {| TailscaleSpec_Enabled := TailscaleSpec_Enabled src;
             TailscaleSpec_Provider :=
               setIfNonEmpty (TailscaleSpec_Provider out) (TailscaleSpec_Provider src);
             TailscaleSpec_Tags :=
               if decide (0 < length (TailscaleSpec_Tags src))%nat
               then TailscaleSpec_Tags src else TailscaleSpec_Tags out;
             TailscaleSpec_ACLMapping := acl |}
  end.

Definition mergeNetwork (dst src : NetworkSpec) : M NetworkSpec :=
  let strategy :=
    coalesce [NetworkSpec_PortsMergeStrategy src; NetworkSpec_PortsMergeStrategy dst;
              MergeStrategyReplace] in
  do tailscale <- (match NetworkSpec_Tailscale src with
                   | Some ts =>
                       do merged <- mergeTailscale (NetworkSpec_Tailscale dst) ts;
                       ret (Some merged)
                   | None => ret (NetworkSpec_Tailscale dst)
                   end);
  ret {| NetworkSpec_Ports :=
           if decide (0 < length (NetworkSpec_Ports src))%nat
           then mergePortSlice (NetworkSpec_Ports dst) (NetworkSpec_Ports src) strategy
           else NetworkSpec_Ports dst;
         NetworkSpec_BindAddress :=
           setIfNonEmpty (NetworkSpec_BindAddress dst) (NetworkSpec_BindAddress src);
         NetworkSpec_ReverseProxy :=
           match NetworkSpec_ReverseProxy src with
           | Some cp => Some cp
           | None => NetworkSpec_ReverseProxy dst
           end;
         NetworkSpec_Tailscale := tailscale;
         NetworkSpec_MultiGateway :=
           match NetworkSpec_MultiGateway src with
           | Some cp => Some cp
           | None => NetworkSpec_MultiGateway dst
           end;
         NetworkSpec_PortsMergeStrategy :=
           if decide (NetworkSpec_PortsMergeStrategy src ≠ "")
           then NetworkSpec_PortsMergeStrategy src else NetworkSpec_PortsMergeStrategy dst |}.

Definition mergeSecrets (dst src : SecretsSpec) : SecretsSpec :=
  let strategy :=
    coalesce [SecretsSpec_EntriesMergeStrategy src; SecretsSpec_EntriesMergeStrategy dst;
              MergeStrategyReplace] in
  {| SecretsSpec_Provider := setIfNonEmpty (SecretsSpec_Provider dst) (SecretsSpec_Provider src);
     SecretsSpec_Entries :=
       if decide (0 < length (SecretsSpec_Entries src))%nat
       then mergeSecretEntries (SecretsSpec_Entries dst) (SecretsSpec_Entries src) strategy
       else SecretsSpec_Entries dst;
     SecretsSpec_EntriesMergeStrategy :=
       if decide (SecretsSpec_EntriesMergeStrategy src ≠ "")
       then SecretsSpec_EntriesMergeStrategy src else SecretsSpec_EntriesMergeStrategy dst |}.

Definition mergeLogging (dst src : LoggingSpec) : LoggingSpec :=
  {| LoggingSpec_Destinations :=
       if decide (0 < length (LoggingSpec_Destinations src))%nat
       then LoggingSpec_Destinations src else LoggingSpec_Destinations dst;
     LoggingSpec_RedactionRules :=
       if decide (0 < length (LoggingSpec_RedactionRules src))%nat
       then LoggingSpec_RedactionRules src else LoggingSpec_RedactionRules dst;
     LoggingSpec_Level := setIfNonEmpty (LoggingSpec_Level dst) (LoggingSpec_Level src);
     LoggingSpec_Format := setIfNonEmpty (LoggingSpec_Format dst) (LoggingSpec_Format src) |}.

Definition mergeMetrics (dst src : MetricsSpec) : MetricsSpec :=
  {| MetricsSpec_Enabled := if MetricsSpec_Enabled src then true else MetricsSpec_Enabled dst;
     MetricsSpec_Endpoint := setIfNonEmpty (MetricsSpec_Endpoint dst) (MetricsSpec_Endpoint src);
     MetricsSpec_Format := setIfNonEmpty (MetricsSpec_Format dst) (MetricsSpec_Format src) |}.

Definition mergeTraces (dst src : TracesSpec) : TracesSpec :=
  {| TracesSpec_Enabled := if TracesSpec_Enabled src then true else TracesSpec_Enabled dst;
     TracesSpec_Endpoint := setIfNonEmpty (TracesSpec_Endpoint dst) (TracesSpec_Endpoint src);
     TracesSpec_Format := setIfNonEmpty (TracesSpec_Format dst) (TracesSpec_Format src) |}.

Definition mergeHealthCheck (dst src : HealthCheckSpec) : HealthCheckSpec :=
  {| HealthCheckSpec_Path := setIfNonEmpty (HealthCheckSpec_Path dst) (HealthCheckSpec_Path src);
     HealthCheckSpec_Interval :=
       setIfNonEmpty (HealthCheckSpec_Interval dst) (HealthCheckSpec_Interval src);
     HealthCheckSpec_Timeout :=
       setIfNonEmpty (HealthCheckSpec_Timeout dst) (HealthCheckSpec_Timeout src);
     HealthCheckSpec_ReadinessGate :=
       if HealthCheckSpec_ReadinessGate src then true else HealthCheckSpec_ReadinessGate dst |}.

Definition mergeObservability (dst src : ObservabilitySpec) : ObservabilitySpec :=
  {| ObservabilitySpec_Logging :=
       mergeLogging (ObservabilitySpec_Logging dst) (ObservabilitySpec_Logging src);
     ObservabilitySpec_Metrics :=
       mergeMetrics (ObservabilitySpec_Metrics dst) (ObservabilitySpec_Metrics src);
     ObservabilitySpec_Traces :=
       mergeTraces (ObservabilitySpec_Traces dst) (ObservabilitySpec_Traces src);
     ObservabilitySpec_HealthCheck :=
       mergeHealthCheck (ObservabilitySpec_HealthCheck dst) (ObservabilitySpec_HealthCheck src) |}.

Definition mergePolicy (dst src : PolicySpec) : PolicySpec :=
  {| PolicySpec_UpdateChannel :=
       setIfNonEmpty (PolicySpec_UpdateChannel dst) (PolicySpec_UpdateChannel src);
     PolicySpec_PinnedVersion :=
       setIfNonEmpty (PolicySpec_PinnedVersion dst) (PolicySpec_PinnedVersion src);
     PolicySpec_ApprovedPlugins :=
       if decide (0 < length (PolicySpec_ApprovedPlugins src))%nat
       then PolicySpec_ApprovedPlugins src else PolicySpec_ApprovedPlugins dst;
     PolicySpec_ApprovedProviders :=
       if decide (0 < length (PolicySpec_ApprovedProviders src))%nat
       then PolicySpec_ApprovedProviders src else PolicySpec_ApprovedProviders dst;
     PolicySpec_FilesystemAllowlist :=
       if decide (0 < length (PolicySpec_FilesystemAllowlist src))%nat
       then PolicySpec_FilesystemAllowlist src else PolicySpec_FilesystemAllowlist dst;
     PolicySpec_CommandAllowlist :=
       if decide (0 < length (PolicySpec_CommandAllowlist src))%nat
       then PolicySpec_CommandAllowlist src else PolicySpec_CommandAllowlist dst |}.

Definition mergeSpec (dst src : Spec) : M Spec :=
  do identity <- mergeIdentity (Spec_Identity dst) (Spec_Identity src);
  do network <- mergeNetwork (Spec_Network dst) (Spec_Network src);
  ret {| Spec_Identity := identity;
         Spec_Runtime := mergeRuntime (Spec_Runtime dst) (Spec_Runtime src);
         Spec_Network := network;
         Spec_Secrets := mergeSecrets (Spec_Secrets dst) (Spec_Secrets src);
         Spec_Observability := mergeObservability (Spec_Observability dst) (Spec_Observability src);
         Spec_Policy := mergePolicy (Spec_Policy dst) (Spec_Policy src) |}.

(** *** Deep copy and Resolve *)

Inductive Result (A : Type) : Type :=
  | Ok (a : A)
  | Err (msg : string).
Arguments Ok {A} a.
Arguments Err {A} msg.

(** What a [map[string]string] field tagged [omitempty] becomes when the
    document is marshalled to JSON and unmarshalled into a fresh struct:
    an empty or nil map is left out and comes back nil, any other map
    comes back as a newly allocated map with the same entries. *)
Definition copyMap (r : mapref) : M mapref :=
  λ h,
    if decide (mapLen h r = 0%nat) then (None, h)
    else let l := fresh (dom h) in (Some l, <[l := mapContent h r]> h).

(** [deepCopy(t)]: [json.Marshal] followed by [json.Unmarshal] into a fresh
    [Template]. Neither step can fail on this schema (strings, integers,
    booleans, string-keyed maps, slices and structs of those), and on
    documents whose strings are valid UTF-8 the round trip keeps every
    scalar, every slice element and every non-nil sub-spec; maps are
    rebuilt by [copyMap]. *)
Definition deepCopy (t : Template) : Heap → Result (Template * Heap) :=
  λ h,
    Ok ((do mdLabels <- copyMap (Metadata_Labels (Template_Metadata t));
         do idLabels <- copyMap (IdentitySpec_Labels (Spec_Identity (Template_Spec t)));
         do tailscale <-
           (match NetworkSpec_Tailscale (Spec_Network (Template_Spec t)) with
            | None => ret None
            | Some ts =>
                do acl <- copyMap (TailscaleSpec_ACLMapping ts);
                ret (Some {| TailscaleSpec_Enabled := TailscaleSpec_Enabled ts;
                             TailscaleSpec_Provider := TailscaleSpec_Provider ts;
                             TailscaleSpec_Tags := TailscaleSpec_Tags ts;
                             TailscaleSpec_ACLMapping := acl |})
            end);
         let md := Template_Metadata t in
         let sp := Template_Spec t in
         let id := Spec_Identity sp in
         let nw := Spec_Network sp in
         ret {| Template_APIVersion := Template_APIVersion t;
                Template_Kind := Template_Kind t;
                Template_Metadata :=
                  {| Metadata_Name := Metadata_Name md;
                     Metadata_Version := Metadata_Version md;
                     Metadata_Description := Metadata_Description md;
                     Metadata_Labels := mdLabels |};
                Template_Spec :=
                  {| Spec_Identity :=
                       {| IdentitySpec_InstanceName := IdentitySpec_InstanceName id;
                          IdentitySpec_Role := IdentitySpec_Role id;
                          IdentitySpec_Region := IdentitySpec_Region id;
                          IdentitySpec_Labels := idLabels;
                          IdentitySpec_TailnetTags := IdentitySpec_TailnetTags id |};
                     Spec_Runtime := Spec_Runtime sp;
                     Spec_Network :=
                       {| NetworkSpec_Ports := NetworkSpec_Ports nw;
                          NetworkSpec_BindAddress := NetworkSpec_BindAddress nw;
                          NetworkSpec_ReverseProxy := NetworkSpec_ReverseProxy nw;
                          NetworkSpec_Tailscale := tailscale;
                          NetworkSpec_MultiGateway := NetworkSpec_MultiGateway nw;
                          NetworkSpec_PortsMergeStrategy := NetworkSpec_PortsMergeStrategy nw |};
                     Spec_Secrets := Spec_Secrets sp;
                     Spec_Observability := Spec_Observability sp;
                     Spec_Policy := Spec_Policy sp |} |}) h).

(** One iteration of the loop over [layers]; a nil layer is skipped. *)
Definition applyLayer (result : Template) (layer : option Template) : M Template :=
  match layer with
  | None => ret result
  | Some l =>
      do spec <- mergeSpec (Template_Spec result) (Template_Spec l);
      mergeMetadataLabels
        {| Template_APIVersion := Template_APIVersion result;
           Template_Kind := Template_Kind result;
           Template_Metadata := Template_Metadata result;
           Template_Spec := spec |} l
  end.

Fixpoint applyLayers (result : Template) (layers : list (option Template)) : M Template :=
  match layers with
  | [] => ret result
  | layer :: rest => do result' <- applyLayer result layer; applyLayers result' rest
  end.

(** [Resolve(base, layers...)]; [None] is a nil pointer. *)
Definition Resolve (base : option Template) (layers : list (option Template))
    : Heap → Result (Template * Heap) :=
  λ h,
    match base with
    | None => Err "base template is required"
    | Some b =>
        match deepCopy b h with
        | Err e => Err ("copy base template: " +:+ e)
        | Ok (result, h1) =>
            Ok (applyLayers
                  {| Template_APIVersion := APIVersion;
                     Template_Kind := KindEncodingTemplate;
                     Template_Metadata := Template_Metadata result;
                     Template_Spec := Template_Spec result |} layers h1)
        end
    end.

(** ** The validator (validator.go) *)

(** [ValidationError] collects all problems found in a template. *)
Record ValidationError := { Errors : list string }.

(** The line feed character and [strings.Join]. *)
Definition LF : string := String (Ascii.ascii_of_nat 10) "".

Fixpoint Join (elems : list string) (sep : string) : string :=
  match elems with
  | [] => ""
  | [e] => e
  | e :: rest => e +:+ sep +:+ Join rest sep
  end.

(** The [Error] method of [ValidationError]. *)
Definition Error (e : ValidationError) : string :=
  "template validation failed (" +:+ pretty (length (Errors e)) +:+ " errors):" +:+ LF +:+ "  - "
    +:+ Join (Errors e) (LF +:+ "  - ").

(** *** Lookup tables; indexing a Go [map[string]bool] at a missing key
    yields [false]. *)

Definition validRoles : gmap string bool :=
  list_to_map [(RoleGateway, true); (RoleControlPlane, true); (RoleWorker, true);
               (RoleObservability, true); (RoleDBAdjunct, true)].

Definition validTargets : gmap string bool :=
  list_to_map [(TargetPodman, true); (TargetKubernetes, true); (TargetOpenShift, true);
               (TargetDroplet, true); (TargetSandbox, true)].

Definition validSecretsProviders : gmap string bool :=
  list_to_map [("builtin", true); ("vault", true); ("k8s_secrets", true)].

Definition validSecretTypes : gmap string bool :=
  list_to_map [("api_key", true); ("node_key", true); ("oauth_cred", true);
               ("db_cred", true); ("cert", true)].

Definition validMergeStrategies : gmap string bool :=
  list_to_map [(MergeStrategyReplace, true); (MergeStrategyAppend, true);
               (MergeStrategyUnion, true)].

Definition validLogLevels : gmap string bool :=
  list_to_map [("debug", true); ("info", true); ("warn", true); ("error", true)].

Definition validUpdateChannels : gmap string bool :=
  list_to_map [("stable", true); ("beta", true); ("nightly", true); ("pinned", true)].

Definition isValidRole (s : string) : bool := default false (validRoles !! s).
Definition isValidTarget (s : string) : bool := default false (validTargets !! s).
Definition isValidSecretsProvider (s : string) : bool := default false (validSecretsProviders !! s).
Definition isValidSecretType (s : string) : bool := default false (validSecretTypes !! s).
Definition isValidMergeStrategy (s : string) : bool := default false (validMergeStrategies !! s).
Definition isValidLogLevel (s : string) : bool := default false (validLogLevels !! s).
Definition isValidUpdateChannel (s : string) : bool := default false (validUpdateChannels !! s).

Definition validRolesStr : string :=
  Join [RoleGateway; RoleControlPlane; RoleWorker; RoleObservability; RoleDBAdjunct] ", ".

Definition validTargetsStr : string :=
  Join [TargetPodman; TargetKubernetes; TargetOpenShift; TargetDroplet; TargetSandbox] ", ".

(** *** The messages, one per [add] call of [Validate] *)

Section Messages.

(** The [%q] verb of [fmt.Sprintf] ([strconv.Quote]), a library function. *)
Variable quote : string → string.

Definition msgAPIVersion : string := "apiVersion is required".
Definition msgKind : string := "kind is required".
Definition msgName : string := "metadata.name is required".
Definition msgRole (role : string) : string :=
  "identity.role " +:+ quote role +:+ " is not a recognized role (valid: " +:+ validRolesStr +:+ ")".
Definition msgTarget (target : string) : string :=
  "runtime.deployment_target " +:+ quote target +:+ " is not recognized (valid: "
    +:+ validTargetsStr +:+ ")".
Definition msgBindAddress (addr : string) : string :=
  "network.bind_address " +:+ quote addr +:+ " is not a valid IP address".
Definition msgPortName (i : nat) : string :=
  "network.ports[" +:+ pretty i +:+ "].name is required".
Definition msgPortRange (i : nat) (port : Z) : string :=
  "network.ports[" +:+ pretty i +:+ "].port " +:+ pretty port +:+ " is out of range (1-65535)".
Definition msgHostPortRange (i : nat) (port : Z) : string :=
  "network.ports[" +:+ pretty i +:+ "].host_port " +:+ pretty port
    +:+ " is out of range (1-65535)".
Definition msgPortDuplicate (i : nat) (name : string) (prev : nat) : string :=
  "network.ports[" +:+ pretty i +:+ "].name " +:+ quote name +:+ " duplicates ports["
    +:+ pretty prev +:+ "]".
Definition msgPortConflict (i : nat) (port : Z) (existing : string) : string :=
  "network.ports[" +:+ pretty i +:+ "].port " +:+ pretty port +:+ " conflicts with port named "
    +:+ quote existing.
Definition msgPortsStrategy (s : string) : string :=
  "network.ports_merge_strategy " +:+ quote s +:+ " is invalid (valid: replace, append, union)".
Definition msgSecretsProvider (s : string) : string :=
  "secrets.provider " +:+ quote s +:+ " is not recognized (valid: builtin, vault, k8s_secrets)".
Definition msgEntryName (i : nat) : string :=
  "secrets.entries[" +:+ pretty i +:+ "].name is required".
Definition msgEntryTypeRequired (i : nat) : string :=
  "secrets.entries[" +:+ pretty i +:+ "].type is required".
Definition msgEntryType (i : nat) (ty : string) : string :=
  "secrets.entries[" +:+ pretty i +:+ "].type " +:+ quote ty +:+ " is not recognized".
Definition msgEntryRef (i : nat) : string :=
  "secrets.entries[" +:+ pretty i
    +:+ "].ref is required (must be a URI reference, never a plaintext value)".
Definition msgEntriesStrategy (s : string) : string :=
  "secrets.entries_merge_strategy " +:+ quote s +:+ " is invalid".
Definition msgLogLevel (s : string) : string :=
  "observability.logging.level " +:+ quote s +:+ " is invalid (valid: debug, info, warn, error)".
Definition msgLogFormat (s : string) : string :=
  "observability.logging.format " +:+ quote s +:+ " is invalid (valid: json, text)".
Definition msgUpdateChannel (s : string) : string :=
  "policy.update_channel " +:+ quote s +:+ " is invalid (valid: stable, beta, nightly, pinned)".
Definition msgGateway : string := "gateway role requires at least one network port".

End Messages.

Section Validator.

(** [ParseIP s] tells whether [net.ParseIP(s)] is non-nil; [quote] is the
    [%q] verb. Both are library functions. *)
Variable ParseIP : string → bool.
Variable quote : string → string.

(** The closure [add]: [errs = append(errs, msg)]. *)
Definition add (errs : list string) (msg : string) : list string := errs ++ [msg].

(** [if cond { add(msg) }]: the value of [errs] afterwards. *)
Definition addIf (cond : Prop) `{Decision cond} (errs : list string) (msg : string)
    : list string :=
  if decide cond then add errs msg else errs.

(** The body of the loop over [nw.Ports], on [errs], [portNames] and
    [portNumbers]. *)
Definition checkPort (st : list string * gmap string nat * gmap Z string) (ip : nat * PortSpec)
    : list string * gmap string nat * gmap Z string :=
  let '(errs, portNames, portNumbers) := st in
  let '(i, p) := ip in
  let errs := addIf (PortSpec_Name p = "") errs (msgPortName i) in
  let errs :=
    addIf (PortSpec_Port p ≤ 0 ∨ PortSpec_Port p > 65535) errs
      (msgPortRange i (PortSpec_Port p)) in
  let errs :=
    addIf (PortSpec_HostPort p ≠ 0 ∧ (PortSpec_HostPort p ≤ 0 ∨ PortSpec_HostPort p > 65535))
      errs (msgHostPortRange i (PortSpec_HostPort p)) in
  let errs :=
    match portNames !! PortSpec_Name p with
    | Some prev => add errs (msgPortDuplicate quote i (PortSpec_Name p) prev)
    | None => errs
    end in
  let portNames := <[PortSpec_Name p := i]> portNames in
  let errs :=
    match portNumbers !! PortSpec_Port p with
    | Some existing => add errs (msgPortConflict quote i (PortSpec_Port p) existing)
    | None => errs
    end in
  let portNumbers := <[PortSpec_Port p := PortSpec_Name p]> portNumbers in
  (errs, portNames, portNumbers).

(** The body of the loop over [sec.Entries]. *)
Definition checkEntry (errs : list string) (ie : nat * SecretEntry) : list string :=
  let '(i, e) := ie in
  let errs := addIf (SecretEntry_Name e = "") errs (msgEntryName i) in
  let errs :=
    if decide (SecretEntry_Type e = "") then add errs (msgEntryTypeRequired i)
    else addIf (isValidSecretType (SecretEntry_Type e) = false) errs
           (msgEntryType quote i (SecretEntry_Type e)) in
  addIf (SecretEntry_Ref e = "") errs (msgEntryRef i).

(** The value of [errs] when [Validate] reaches its final test. *)
Definition collectErrors (t : Template) : list string :=
  let errs := [] in
  (* Metadata *)
  let errs := addIf (Template_APIVersion t = "") errs msgAPIVersion in
  let errs := addIf (Template_Kind t = "") errs msgKind in
  let errs := addIf (Metadata_Name (Template_Metadata t) = "") errs msgName in
  (* Identity *)
  let id := Spec_Identity (Template_Spec t) in
  let errs :=
    addIf (IdentitySpec_Role id ≠ "" ∧ isValidRole (IdentitySpec_Role id) = false) errs
      (msgRole quote (IdentitySpec_Role id)) in
  (* Runtime *)
  let rt := Spec_Runtime (Template_Spec t) in
  let errs :=
    addIf (RuntimeSpec_DeploymentTarget rt ≠ ""
           ∧ isValidTarget (RuntimeSpec_DeploymentTarget rt) = false) errs
      (msgTarget quote (RuntimeSpec_DeploymentTarget rt)) in
  (* Network *)
  let nw := Spec_Network (Template_Spec t) in
  let errs :=
    addIf (NetworkSpec_BindAddress nw ≠ "" ∧ ParseIP (NetworkSpec_BindAddress nw) = false) errs
      (msgBindAddress quote (NetworkSpec_BindAddress nw)) in
  let '(errs, _, _) :=
    foldl checkPort (errs, ∅, ∅) (imap (λ i p, (i, p)) (NetworkSpec_Ports nw)) in
  let errs :=
    addIf (NetworkSpec_PortsMergeStrategy nw ≠ ""
           ∧ isValidMergeStrategy (NetworkSpec_PortsMergeStrategy nw) = false) errs
      (msgPortsStrategy quote (NetworkSpec_PortsMergeStrategy nw)) in
  (* Secrets *)
  let sec := Spec_Secrets (Template_Spec t) in
  let errs :=
    addIf (SecretsSpec_Provider sec ≠ ""
           ∧ isValidSecretsProvider (SecretsSpec_Provider sec) = false) errs
      (msgSecretsProvider quote (SecretsSpec_Provider sec)) in
  let errs := foldl checkEntry errs (imap (λ i e, (i, e)) (SecretsSpec_Entries sec)) in
  let errs :=
    addIf (SecretsSpec_EntriesMergeStrategy sec ≠ ""
           ∧ isValidMergeStrategy (SecretsSpec_EntriesMergeStrategy sec) = false) errs
      (msgEntriesStrategy quote (SecretsSpec_EntriesMergeStrategy sec)) in
  (* Observability *)
  let obs := Spec_Observability (Template_Spec t) in
  let level := LoggingSpec_Level (ObservabilitySpec_Logging obs) in
  let format := LoggingSpec_Format (ObservabilitySpec_Logging obs) in
  let errs :=
    addIf (level ≠ "" ∧ isValidLogLevel level = false) errs (msgLogLevel quote level) in
  let errs :=
    addIf (format ≠ "" ∧ format ≠ "json" ∧ format ≠ "text") errs (msgLogFormat quote format) in
  (* Policy *)
  let pol := Spec_Policy (Template_Spec t) in
  let errs :=
    addIf (PolicySpec_UpdateChannel pol ≠ ""
           ∧ isValidUpdateChannel (PolicySpec_UpdateChannel pol) = false) errs
      (msgUpdateChannel quote (PolicySpec_UpdateChannel pol)) in
  (* Cross-field checks *)
  addIf (IdentitySpec_Role id = RoleGateway ∧ length (NetworkSpec_Ports nw) = 0%nat) errs
    msgGateway.

(** [Validate(t)]: [None] is the nil error. *)
Definition Validate (t : Template) : option ValidationError :=
  let errs := collectErrors t in
  if decide (0 < length errs)%nat then Some {| Errors := errs |} else None.

End Validator.

(** ** SHA-256 (crypto/sha256), after FIPS 180-4

    Bytes and 32-bit words are integers; [add32] is addition modulo 2^32. *)

Module SHA256.

Definition mask32 (x : Z) : Z := Z.land x (2 ^ 32 - 1).
Definition add32 (x y : Z) : Z := mask32 (x + y).
Definition rotr (n x : Z) : Z := Z.lor (Z.shiftr x n) (mask32 (Z.shiftl x (32 - n))).

Definition Ch (x y z : Z) : Z := Z.lxor (Z.land x y) (Z.land (Z.lnot x) z).
Definition Maj (x y z : Z) : Z := Z.lxor (Z.lxor (Z.land x y) (Z.land x z)) (Z.land y z).
Definition bigSigma0 (x : Z) : Z := Z.lxor (Z.lxor (rotr 2 x) (rotr 13 x)) (rotr 22 x).
Definition bigSigma1 (x : Z) : Z := Z.lxor (Z.lxor (rotr 6 x) (rotr 11 x)) (rotr 25 x).
Definition smallSigma0 (x : Z) : Z := Z.lxor (Z.lxor (rotr 7 x) (rotr 18 x)) (Z.shiftr x 3).
Definition smallSigma1 (x : Z) : Z := Z.lxor (Z.lxor (rotr 17 x) (rotr 19 x)) (Z.shiftr x 10).

(** The round constants: the first 32 bits of the fractional parts of the
    cube roots of the first 64 primes (from 0x428a2f98 to 0xc67178f2). *)
Definition K : list Z :=
  [1116352408; 1899447441; 3049323471; 3921009573; 961987163; 1508970993;
   2453635748; 2870763221; 3624381080; 310598401; 607225278; 1426881987;
   1925078388; 2162078206; 2614888103; 3248222580; 3835390401; 4022224774;
   264347078; 604807628; 770255983; 1249150122; 1555081692; 1996064986;
   2554220882; 2821834349; 2952996808; 3210313671; 3336571891; 3584528711;
   113926993; 338241895; 666307205; 773529912; 1294757372; 1396182291;
   1695183700; 1986661051; 2177026350; 2456956037; 2730485921; 2820302411;
   3259730800; 3345764771; 3516065817; 3600352804; 4094571909; 275423344;
   430227734; 506948616; 659060556; 883997877; 958139571; 1322822218;
   1537002063; 1747873779; 1955562222; 2024104815; 2227730452; 2361852424;
   2428436474; 2756734187; 3204031479; 3329325298].

(** The eight working variables, and the chaining value. *)
Record state := {
  s0 : Z; s1 : Z; s2 : Z; s3 : Z; s4 : Z; s5 : Z; s6 : Z; s7 : Z;
}.

(** The initial chaining value, 0x6a09e667 to 0x5be0cd19: the fractional
    parts of the square roots of the first 8 primes. *)
Definition init : state :=
  {| s0 := 1779033703; s1 := 3144134277; s2 := 1013904242; s3 := 2773480762;
     s4 := 1359893119; s5 := 2600822924; s6 := 528734635; s7 := 1541459225 |}.

(** Message padding: a 1 bit, zeros, and the bit length on 64 bits. *)
Definition bigEndian (n : nat) (x : Z) : list Z :=
  (λ i, Z.land (Z.shiftr x (8 * Z.of_nat i)) 255) <$> reverse (seq 0 n).

Definition pad (msg : list Z) : list Z :=
  let len := Z.of_nat (length msg) in
  msg ++ [128] ++ replicate (Z.to_nat ((55 - len) `mod` 64)) 0 ++ bigEndian 8 (8 * len).

Fixpoint blocks (n : nat) (l : list Z) : list (list Z) :=
  match n with
  | O => []
  | S n' => take 64 l :: blocks n' (drop 64 l)
  end.

Definition wordAt (block : list Z) (i : nat) : Z :=
  Z.lor (Z.lor (Z.lor (Z.shiftl (nth (4 * i) block 0) 24)
                      (Z.shiftl (nth (4 * i + 1) block 0) 16))
               (Z.shiftl (nth (4 * i + 2) block 0) 8))
        (nth (4 * i + 3) block 0).

(** The message schedule: sixteen words of the block, then 48 derived ones. *)
Fixpoint extend (n : nat) (w : list Z) : list Z :=
  match n with
  | O => w
  | S n' =>
      let t := length w in
      extend n'
        (w ++ [add32 (add32 (add32 (smallSigma1 (nth (t - 2) w 0)) (nth (t - 7) w 0))
                            (smallSigma0 (nth (t - 15) w 0)))
                     (nth (t - 16) w 0)])
  end.

Definition schedule (block : list Z) : list Z := extend 48 (wordAt block <$> seq 0 16).

Definition round (st : state) (kw : Z * Z) : state :=
  let t1 :=
    add32 (add32 (add32 (add32 (s7 st) (bigSigma1 (s4 st))) (Ch (s4 st) (s5 st) (s6 st))) kw.1)
          kw.2 in
  let t2 := add32 (bigSigma0 (s0 st)) (Maj (s0 st) (s1 st) (s2 st)) in
  {| s0 := add32 t1 t2; s1 := s0 st; s2 := s1 st; s3 := s2 st;
     s4 := add32 (s3 st) t1; s5 := s4 st; s6 := s5 st; s7 := s6 st |}.

Definition compress (hv : state) (block : list Z) : state :=
  let st := foldl round hv (zip K (schedule block)) in
  {| s0 := add32 (s0 hv) (s0 st); s1 := add32 (s1 hv) (s1 st);
     s2 := add32 (s2 hv) (s2 st); s3 := add32 (s3 hv) (s3 st);
     s4 := add32 (s4 hv) (s4 st); s5 := add32 (s5 hv) (s5 st);
     s6 := add32 (s6 hv) (s6 st); s7 := add32 (s7 hv) (s7 st) |}.

Definition digest (hv : state) : list Z :=
  bigEndian 4 (s0 hv) ++ bigEndian 4 (s1 hv) ++ bigEndian 4 (s2 hv) ++ bigEndian 4 (s3 hv)
    ++ bigEndian 4 (s4 hv) ++ bigEndian 4 (s5 hv) ++ bigEndian 4 (s6 hv) ++ bigEndian 4 (s7 hv).

(** [sha256.Sum256(data)]: the 32 bytes of the digest. *)
Definition Sum256 (data : list Z) : list Z :=
  let padded := pad data in
  digest (foldl compress init (blocks (length padded / 64) padded)).

End SHA256.

(** The bytes of a string. *)
Definition bytesOf (s : string) : list Z :=
  (λ c, Z.of_N (Ascii.N_of_ascii c)) <$> String.list_ascii_of_string s.

(** The verb [%x] of [fmt.Sprintf] on a byte array: two lower-case
    hexadecimal digits per byte. *)
Definition hexDigits : list Ascii.ascii := String.list_ascii_of_string "0123456789abcdef".

Definition hexDigit (n : Z) : Ascii.ascii := nth (Z.to_nat n) hexDigits (Ascii.ascii_of_nat 48).

Fixpoint hexString (bs : list Z) : string :=
  match bs with
  | [] => ""
  | b :: rest =>
      String (hexDigit (Z.shiftr b 4)) (String (hexDigit (Z.land b 15)) (hexString rest))
  end.

(** ** Iterating over maps, and sorting

    A [range] statement over a map visits every entry exactly once, in an
    order the language leaves unspecified and that may differ from one
    loop to the next. A loop whose outcome may depend on that order takes
    the enumeration it follows as an argument. *)

Definition RangeOrder : Type := gmap string string → list (string * string).

Definition RangeOk (range : RangeOrder) : Prop := ∀ m, range m ≡ₚ map_to_list m.

(** [sort.Strings]: increasing order, strings compared byte by byte. *)
Definition sortStrings (l : list string) : list string := merge_sort String.le l.

(** ** JSON encoding (encoding/json) of the schema

    Objects list their fields in declaration order under the names of the
    [json] struct tags; a field tagged [omitempty] is left out when it is
    false, 0, a nil pointer, or an empty string, slice or map (a struct is
    never empty); the keys of a map are written in sorted order. *)

Definition DQ : string := String (Ascii.ascii_of_nat 34) "".

Definition always (name value : string) : option string :=
  Some (DQ +:+ name +:+ DQ +:+ ":" +:+ value).

Definition omitempty (empty : bool) (name value : string) : option string :=
  if empty then None else always name value.

Definition object (fields : list (option string)) : string :=
  "{" +:+ Join (omap id fields) "," +:+ "}".

Definition array (items : list string) : string := "[" +:+ Join items "," +:+ "]".

Definition jsonBool (b : bool) : string := if b then "true" else "false".

Definition jsonInt (n : Z) : string := pretty n.

Section JSON.

(** The encoder of string values (quoting and escaping), a library
    function, and the order in which the encoder's [range] over a map
    yields the entries before it sorts them. *)
Variable jsonString : string → string.
Variable range : RangeOrder.

Definition omitString (name s : string) : option string :=
  omitempty (bool_decide (s = "")) name (jsonString s).

Definition omitStrings (name : string) (l : list string) : option string :=
  omitempty (bool_decide (length l = 0%nat)) name (array (jsonString <$> l)).

Definition jsonMap (m : gmap string string) : string :=
  object ((λ k, Some (jsonString k +:+ ":" +:+ jsonString (m !!! k)))
            <$> sortStrings ((range m).*1)).

Definition omitMap (h : Heap) (name : string) (r : mapref) : option string :=
  omitempty (bool_decide (mapLen h r = 0%nat)) name (jsonMap (mapContent h r)).

Definition jsonMetadata (h : Heap) (md : Metadata) : string :=
  object [always "name" (jsonString (Metadata_Name md));
          omitString "version" (Metadata_Version md);
          omitString "description" (Metadata_Description md);
          omitMap h "labels" (Metadata_Labels md)].

Definition jsonIdentity (h : Heap) (id : IdentitySpec) : string :=
  object [omitString "instance_name" (IdentitySpec_InstanceName id);
          omitString "role" (IdentitySpec_Role id);
          omitString "region" (IdentitySpec_Region id);
          omitMap h "labels" (IdentitySpec_Labels id);
          omitStrings "tailnet_tags" (IdentitySpec_TailnetTags id)].

Definition jsonResource (r : ResourceSpec) : string :=
  object [omitString "cpu" (ResourceSpec_CPU r);
          omitString "memory" (ResourceSpec_Memory r);
          omitStrings "storage_paths" (ResourceSpec_StoragePaths r)].

Definition jsonImage (i : ImageSpec) : string :=
  object [omitString "repository" (ImageSpec_Repository i);
          omitString "tag" (ImageSpec_Tag i);
          omitString "pull_policy" (ImageSpec_PullPolicy i)].

Definition jsonRuntime (rt : RuntimeSpec) : string :=
  object [omitString "deployment_target" (RuntimeSpec_DeploymentTarget rt);
          always "resources" (jsonResource (RuntimeSpec_Resources rt));
          always "image" (jsonImage (RuntimeSpec_Image rt))].

Definition jsonPort (p : PortSpec) : string :=
  object [always "name" (jsonString (PortSpec_Name p));
          always "port" (jsonInt (PortSpec_Port p));
          omitempty (bool_decide (PortSpec_HostPort p = 0)) "host_port"
            (jsonInt (PortSpec_HostPort p));
          omitString "protocol" (PortSpec_Protocol p)].

Definition jsonReverseProxy (rp : ReverseProxySpec) : string :=
  object [always "enabled" (jsonBool (ReverseProxySpec_Enabled rp));
          omitString "provider" (ReverseProxySpec_Provider rp);
          omitempty (negb (ReverseProxySpec_TLS rp)) "tls" (jsonBool (ReverseProxySpec_TLS rp))].

Definition jsonTailscale (h : Heap) (ts : TailscaleSpec) : string :=
  object [always "enabled" (jsonBool (TailscaleSpec_Enabled ts));
          omitString "provider" (TailscaleSpec_Provider ts);
          omitStrings "tags" (TailscaleSpec_Tags ts);
          omitMap h "acl_mapping" (TailscaleSpec_ACLMapping ts)].

Definition jsonMultiGateway (mg : MultiGatewaySpec) : string :=
  object [always "enabled" (jsonBool (MultiGatewaySpec_Enabled mg));
          omitString "mode" (MultiGatewaySpec_Mode mg);
          omitempty (bool_decide (MultiGatewaySpec_Priority mg = 0)) "priority"
            (jsonInt (MultiGatewaySpec_Priority mg))].

(** A pointer field tagged [omitempty]. *)
Definition omitPointer {A} (name : string) (enc : A → string) (p : option A) : option string :=
  match p with
  | None => None
  | Some a => always name (enc a)
  end.

Definition jsonNetwork (h : Heap) (nw : NetworkSpec) : string :=
  object [omitempty (bool_decide (length (NetworkSpec_Ports nw) = 0%nat)) "ports"
            (array (jsonPort <$> NetworkSpec_Ports nw));
          omitString "bind_address" (NetworkSpec_BindAddress nw);
          omitPointer "reverse_proxy" jsonReverseProxy (NetworkSpec_ReverseProxy nw);
          omitPointer "tailscale" (jsonTailscale h) (NetworkSpec_Tailscale nw);
          omitPointer "multi_gateway" jsonMultiGateway (NetworkSpec_MultiGateway nw);
          omitString "ports_merge_strategy" (NetworkSpec_PortsMergeStrategy nw)].

Definition jsonSecretEntry (e : SecretEntry) : string :=
  object [always "name" (jsonString (SecretEntry_Name e));
          always "type" (jsonString (SecretEntry_Type e));
          always "ref" (jsonString (SecretEntry_Ref e))].

Definition jsonSecrets (sec : SecretsSpec) : string :=
  object [omitString "provider" (SecretsSpec_Provider sec);
          omitempty (bool_decide (length (SecretsSpec_Entries sec) = 0%nat)) "entries"
            (array (jsonSecretEntry <$> SecretsSpec_Entries sec));
          omitString "entries_merge_strategy" (SecretsSpec_EntriesMergeStrategy sec)].

Definition jsonLogging (l : LoggingSpec) : string :=
  object [omitStrings "destinations" (LoggingSpec_Destinations l);
          omitStrings "redaction_rules" (LoggingSpec_RedactionRules l);
          omitString "level" (LoggingSpec_Level l);
          omitString "format" (LoggingSpec_Format l)].

Definition jsonMetrics (m : MetricsSpec) : string :=
  object [always "enabled" (jsonBool (MetricsSpec_Enabled m));
          omitString "endpoint" (MetricsSpec_Endpoint m);
          omitString "format" (MetricsSpec_Format m)].

Definition jsonTraces (m : TracesSpec) : string :=
  object [always "enabled" (jsonBool (TracesSpec_Enabled m));
          omitString "endpoint" (TracesSpec_Endpoint m);
          omitString "format" (TracesSpec_Format m)].

Definition jsonHealthCheck (hc : HealthCheckSpec) : string :=
  object [omitString "path" (HealthCheckSpec_Path hc);
          omitString "interval" (HealthCheckSpec_Interval hc);
          omitString "timeout" (HealthCheckSpec_Timeout hc);
          omitempty (negb (HealthCheckSpec_ReadinessGate hc)) "readiness_gate"
            (jsonBool (HealthCheckSpec_ReadinessGate hc))].

Definition jsonObservability (obs : ObservabilitySpec) : string :=
  object [always "logging" (jsonLogging (ObservabilitySpec_Logging obs));
          always "metrics" (jsonMetrics (ObservabilitySpec_Metrics obs));
          always "traces" (jsonTraces (ObservabilitySpec_Traces obs));
          always "health_check" (jsonHealthCheck (ObservabilitySpec_HealthCheck obs))].

Definition jsonPolicy (pol : PolicySpec) : string :=
  object [omitString "update_channel" (PolicySpec_UpdateChannel pol);
          omitString "pinned_version" (PolicySpec_PinnedVersion pol);
          omitStrings "approved_plugins" (PolicySpec_ApprovedPlugins pol);
          omitStrings "approved_providers" (PolicySpec_ApprovedProviders pol);
          omitStrings "filesystem_allowlist" (PolicySpec_FilesystemAllowlist pol);
          omitStrings "command_allowlist" (PolicySpec_CommandAllowlist pol)].

Definition jsonSpec (h : Heap) (sp : Spec) : string :=
  object [always "identity" (jsonIdentity h (Spec_Identity sp));
          always "runtime" (jsonRuntime (Spec_Runtime sp));
          always "network" (jsonNetwork h (Spec_Network sp));
          always "secrets" (jsonSecrets (Spec_Secrets sp));
          always "observability" (jsonObservability (Spec_Observability sp));
          always "policy" (jsonPolicy (Spec_Policy sp))].

(** [json.Marshal(t)] for a [*Template]; it has no failing case on this
    schema. *)
Definition Marshal (t : Template) (h : Heap) : Result string :=
  Ok (object [always "apiVersion" (jsonString (Template_APIVersion t));
              always "kind" (jsonString (Template_Kind t));
              always "metadata" (jsonMetadata h (Template_Metadata t));
              always "spec" (jsonSpec h (Template_Spec t))]).

(** [Hash(t)] *)
Definition Hash (t : Template) (h : Heap) : Result string :=
  match Marshal t h with
  | Err e => Err ("marshal for hash: " +:+ e)
  | Ok data => Ok (hexString (SHA256.Sum256 (bytesOf data)))
  end.

End JSON.

(** ** The renderer factory (renderer.go) *)

(** The concrete renderer types behind the [Renderer] interface. *)
Inductive Renderer : Type :=
  | PodmanRenderer
  | KubernetesRenderer
  | SandboxRenderer.

Definition NewRenderer (target : string) : Result Renderer :=
  if decide (target = TargetPodman) then Ok PodmanRenderer
  else if decide (target = TargetKubernetes ∨ target = TargetOpenShift) then Ok KubernetesRenderer
  else if decide (target = TargetSandbox) then Ok SandboxRenderer
  else Err ("unsupported deployment target: " +:+ target).

(** ** Bundles (types.go, bundle.go) *)

(** File contents are byte strings; [InstallBundle_ResolvedTemplate] is a
    pointer, [None] when nil. *)
Record InstallBundle := {
  InstallBundle_SourceHash : string;
  InstallBundle_ResolvedTemplate : option Template;
  InstallBundle_Files : gmap string string;
}.

Record BundleManifest := {
  BundleManifest_SourceHash : string;
  BundleManifest_Instance : string;
  BundleManifest_Role : string;
  BundleManifest_Target : string;
  BundleManifest_Files : list string;
}.

Record PlanSummary := {
  PlanSummary_Instance : string;
  PlanSummary_Role : string;
  PlanSummary_Target : string;
  PlanSummary_SourceHash : string;
  PlanSummary_Files : list string;
}.

(** [for relPath := range bundle.Files { files = append(files, relPath) }] *)
Definition collectPaths (range : RangeOrder) (bundle : InstallBundle) : list string :=
  foldl (λ files kv, files ++ [kv.1]) [] (range (InstallBundle_Files bundle)).

(** [Plan(bundle)]; [None] is the run-time panic on a nil
    [bundle.ResolvedTemplate]. *)
Definition Plan (range : RangeOrder) (bundle : InstallBundle) : option PlanSummary :=
  let files := sortStrings (collectPaths range bundle) in
  match InstallBundle_ResolvedTemplate bundle with
  | None => None
  | Some t =>
      Some {| PlanSummary_Instance := IdentitySpec_InstanceName (Spec_Identity (Template_Spec t));
              PlanSummary_Role := IdentitySpec_Role (Spec_Identity (Template_Spec t));
              PlanSummary_Target := RuntimeSpec_DeploymentTarget (Spec_Runtime (Template_Spec t));
              PlanSummary_SourceHash := InstallBundle_SourceHash bundle;
              PlanSummary_Files := files |}
  end.

(** [filepath.Ext]: the suffix starting at the last dot of the last path
    element, empty when that element has no dot. *)
Inductive extScan : Type :=
  | ExtFound (ext : string)
  | ExtSeparator
  | ExtNone.

Fixpoint scanExt (path : string) : extScan :=
  match path with
  | EmptyString => ExtNone
  | String c rest =>
      match scanExt rest with
      | ExtFound e => ExtFound e
      | ExtSeparator => ExtSeparator
      | ExtNone =>
          if decide (c = Ascii.ascii_of_nat 47) then ExtSeparator
          else if decide (c = Ascii.ascii_of_nat 46) then ExtFound path
          else ExtNone
      end
  end.

Definition Ext (path : string) : string :=
  match scanExt path with
  | ExtFound e => e
  | _ => ""
  end.

Definition isScript (path : string) : bool := bool_decide (Ext path = ".sh").

(** The manifest [WriteBundle] builds for a bundle whose resolved template
    is [t]. *)
Definition buildManifest (range : RangeOrder) (bundle : InstallBundle) (t : Template)
    : BundleManifest :=
  {| BundleManifest_SourceHash := InstallBundle_SourceHash bundle;
     BundleManifest_Instance := IdentitySpec_InstanceName (Spec_Identity (Template_Spec t));
     BundleManifest_Role := IdentitySpec_Role (Spec_Identity (Template_Spec t));
     BundleManifest_Target := RuntimeSpec_DeploymentTarget (Spec_Runtime (Template_Spec t));
     BundleManifest_Files := sortStrings (collectPaths range bundle) |}.

(** The file modes 0o755 and 0o644. *)
Definition mode755 : Z := 493.
Definition mode644 : Z := 420.

Section Assembler.

(** The file system and the library functions [WriteBundle] calls:
    [os.MkdirAll], [os.WriteFile], [filepath.Join], [filepath.Dir] and the
    JSON encoder of strings. Permissions are integers. *)
Context {FS : Type}.
Variable MkdirAll : string → Z → FS → Result FS.
Variable WriteFile : string → string → Z → FS → Result FS.
Variable filepath_Join : string → string → string.
Variable filepath_Dir : string → string.
Variable jsonString : string → string.

(** [json.MarshalIndent(manifest, "", "  ")]; a nil [Files] slice, which
    is what appending nothing leaves, is written as [null]. *)
Definition MarshalIndent (m : BundleManifest) : string :=
  let line (name value : string) := "  " +:+ DQ +:+ name +:+ DQ +:+ ": " +:+ value in
  "{" +:+ LF
    +:+ line "source_hash" (jsonString (BundleManifest_SourceHash m)) +:+ "," +:+ LF
    +:+ line "instance" (jsonString (BundleManifest_Instance m)) +:+ "," +:+ LF
    +:+ line "role" (jsonString (BundleManifest_Role m)) +:+ "," +:+ LF
    +:+ line "target" (jsonString (BundleManifest_Target m)) +:+ "," +:+ LF
    +:+ line "files"
          (match BundleManifest_Files m with
           | [] => "null"
           | files =>
               "[" +:+ LF
                 +:+ Join ((λ f, "    " +:+ jsonString f) <$> files) ("," +:+ LF) +:+ LF
                 +:+ "  ]"
           end) +:+ LF
    +:+ "}".

(** The loop that writes each artifact; it stops at the first error. *)
Fixpoint writeArtifacts (dir : string) (entries : list (string * string)) (fs : FS)
    : Result FS :=
  match entries with
  | [] => Ok fs
  | (relPath, content) :: rest =>
      let absPath := filepath_Join dir relPath in
      match MkdirAll (filepath_Dir absPath) mode755 fs with
      | Err e => Err ("create directory for " +:+ relPath +:+ ": " +:+ e)
      | Ok fs1 =>
          let perm := if isScript relPath then mode755 else mode644 in
          match WriteFile absPath content perm fs1 with
          | Err e => Err ("write " +:+ relPath +:+ ": " +:+ e)
          | Ok fs2 => writeArtifacts dir rest fs2
          end
      end
  end.

(** [WriteBundle(bundle, dir)]. [range1] and [range2] are the orders of
    its two loops over [bundle.Files]; the outer [None] is the panic on a
    nil [bundle.ResolvedTemplate], reached once the artifacts are
    written. *)
Definition WriteBundle (range1 range2 : RangeOrder) (bundle : InstallBundle) (dir : string)
    (fs : FS) : option (Result FS) :=
  match MkdirAll dir mode755 fs with
  | Err e => Some (Err ("create output directory: " +:+ e))
  | Ok fs1 =>
      match writeArtifacts dir (range1 (InstallBundle_Files bundle)) fs1 with
      | Err e => Some (Err e)
      | Ok fs2 =>
          match InstallBundle_ResolvedTemplate bundle with
          | None => None
          | Some t =>
              let manifest := buildManifest range2 bundle t in
              let mdata := MarshalIndent manifest in
              let mpath := filepath_Join dir "bundle-manifest.json" in
              match WriteFile mpath mdata mode644 fs2 with
              | Err e => Some (Err ("write manifest: " +:+ e))
              | Ok fs3 => Some (Ok fs3)
              end
          end
      end
  end.

End Assembler.

(** ** Choosing the renderer (cmd: render and plan) *)

(** What [runRender] and [runPlan] do between validation and rendering:
    the target defaults to podman when the template leaves it empty, and
    the factory picks the renderer. *)
Definition selectRenderer (resolved : Template) : Result Renderer :=
  let target := RuntimeSpec_DeploymentTarget (Spec_Runtime (Template_Spec resolved)) in
  let target := if decide (target = "") then TargetPodman else target in
  NewRenderer target.

(** ** The registry (registry.go) *)

(** [strings.HasSuffix] and [strings.TrimSuffix]: [stripSuffix s suffix]
    is what remains of [s] once [suffix] is cut from its end, when [s]
    ends with it. *)
Fixpoint stripSuffix (s suffix : string) : option string :=
  if decide (s = suffix) then Some ""
  else match s with
       | EmptyString => None
       | String c s' => String c <$> stripSuffix s' suffix
       end.

Definition HasSuffix (s suffix : string) : bool := bool_decide (is_Some (stripSuffix s suffix)).

Definition TrimSuffix (s suffix : string) : string := default s (stripSuffix s suffix).

(** What [os.ReadDir] tells about an entry, and its three outcomes. *)
Record DirEntry := { DirEntry_Name : string; DirEntry_IsDir : bool }.

Inductive ReadDirResult : Type :=
  | ReadDirEntries (entries : list DirEntry)
  | ReadDirNotExist
  | ReadDirError (msg : string).

(** The loop of [listDir] and the sort that follows it. *)
Definition listNames (entries : list DirEntry) : list string :=
  sortStrings
    (foldl (λ names e,
              if DirEntry_IsDir e then names
              else
                let name := DirEntry_Name e in
                if HasSuffix name ".yaml" || HasSuffix name ".yml"
                then names ++ [TrimSuffix (TrimSuffix name ".yaml") ".yml"]
                else names)
       [] entries).

(** [listDir(dir)], given the outcome of [os.ReadDir(dir)]. *)
Definition listDir (dir : string) (readDir : ReadDirResult) : Result (list string) :=
  match readDir with
  | ReadDirNotExist => Ok []
  | ReadDirError msg => Err ("list " +:+ dir +:+ ": " +:+ msg)
  | ReadDirEntries entries => Ok (listNames entries)
  end.




Section Loading.

(** The library functions behind the loaders: [os.ReadFile],
    [yaml.Unmarshal] into a fresh [Template] (which allocates the maps of
    the document), [filepath.Join] on three elements and the [%q] verb. *)
Variable ReadFile : string → Result string.
Variable Unmarshal : string → Heap → Result (Template * Heap).
Variable filepath_Join3 : string → string → string → string.
Variable quote : string → string.








End Loading.

(** * Properties *)

(** ** Slice merges *)

Section UnionMerge.

Context {A : Type} (name : A → string).

(** The [seen] set of a union merge holds the identity keys of [dst]. *)
Lemma seen_elem_of (dst : list A) (s0 : gset string) (k : string) :
  k ∈ foldl (λ (s : gset string) p, {[name p]} ∪ s) s0 dst ↔ k ∈ name <$> dst ∨ k ∈ s0.
Proof.
  revert s0. induction dst as [|p dst IH]; intros s0; simpl.
  - rewrite elem_of_nil. tauto.
  - rewrite IH, elem_of_cons, elem_of_union, elem_of_singleton. tauto.
Qed.

(** The appending loop of a union merge is a filter. *)
Lemma union_loop (seen : gset string) (dst src : list A) :
  foldl (λ out p, if decide (name p ∈ seen) then out else out ++ [p]) dst src
  = dst ++ filter (λ p, name p ∉ seen) src.
Proof.
  revert dst. induction src as [|p src IH]; intros dst; simpl.
  - by rewrite app_nil_r.
  - rewrite IH, filter_cons. destruct (decide (name p ∈ seen)) as [Hin|Hin].
    + by rewrite decide_False by (by intros ?).
    + by rewrite decide_True, <- app_assoc by done.
Qed.

Lemma union_merge_spec (dst src : list A) :
  foldl (λ out p,
           if decide (name p ∈ foldl (λ (s : gset string) q, {[name q]} ∪ s) ∅ dst)
           then out else out ++ [p]) dst src
  = dst ++ filter (λ p, name p ∉ name <$> dst) src.
Proof.
  rewrite union_loop. f_equal. apply list_filter_iff. intros p.
  rewrite seen_elem_of. split.
  - intros Hn Hin. apply Hn. by left.
  - intros Hn [Hin|Hin]; [done|]. by apply elem_of_empty in Hin.
Qed.

(** Looking an identity key up in the merged list finds the accumulated
    entry when there is one, and the first incoming entry otherwise. *)
Lemma union_first_wins (dst src : list A) (k : string) :
  head (filter (λ p, name p = k) (dst ++ filter (λ p, name p ∉ name <$> dst) src))
  = match head (filter (λ p, name p = k) dst) with
    | Some p => Some p
    | None => head (filter (λ p, name p = k) src)
    end.
Proof.
  rewrite filter_app.
  destruct (filter (λ p, name p = k) dst) as [|p l] eqn:Hdst; [|done].
  simpl. f_equal. rewrite list_filter_filter. apply list_filter_iff. intros p.
  split; [by intros [? ?]|]. intros Hp. split; [done|]. intros Hin.
  apply list_elem_of_fmap in Hin as (q & Hq & Hin).
  assert (q ∈ filter (λ p, name p = k) dst) as Hq'.
  { apply list_elem_of_filter. split; [congruence|done]. }
  rewrite Hdst in Hq'. by apply elem_of_nil in Hq'.
Qed.

End UnionMerge.

Lemma mergePortSlice_union (dst src : list PortSpec) :
  mergePortSlice dst src MergeStrategyUnion
  = dst ++ filter (λ p, PortSpec_Name p ∉ PortSpec_Name <$> dst) src.
Proof. unfold mergePortSlice. simpl. apply union_merge_spec. Qed.

Lemma mergeSecretEntries_union (dst src : list SecretEntry) :
  mergeSecretEntries dst src MergeStrategyUnion
  = dst ++ filter (λ e, SecretEntry_Name e ∉ SecretEntry_Name <$> dst) src.
Proof. unfold mergeSecretEntries. simpl. apply union_merge_spec. Qed.

(** The port lists of the resolver's union test. *)
Definition port (name : string) (number : Z) : PortSpec :=
  {| PortSpec_Name := name; PortSpec_Port := number; PortSpec_HostPort := 0;
     PortSpec_Protocol := "" |}.

Definition withPorts (ports : list PortSpec) (strategy : string) : Template :=
  {| Template_APIVersion := ""; Template_Kind := "";
     Template_Metadata := zeroMetadata;
     Template_Spec :=
       {| Spec_Identity := zeroIdentitySpec; Spec_Runtime := zeroRuntimeSpec;
          Spec_Network :=
            {| NetworkSpec_Ports := ports; NetworkSpec_BindAddress := "";
               NetworkSpec_ReverseProxy := None; NetworkSpec_Tailscale := None;
               NetworkSpec_MultiGateway := None; NetworkSpec_PortsMergeStrategy := strategy |};
          Spec_Secrets := zeroSecretsSpec; Spec_Observability := zeroObservabilitySpec;
          Spec_Policy := zeroPolicySpec |} |}.

(** C2. A union merge of two port lists, and of two secret-entry lists,
    yields the accumulated list followed by exactly the incoming entries
    whose identity key (port name, secret entry name) does not occur in
    the accumulated list, in layer order; looking a key up in the result
    finds its first occurrence, the accumulated one when there is one.
    Base ports http 8080, metrics 9090 merged with overlay ports http 80,
    https 443 under union give http 8080, metrics 9090, https 443, both
    by [mergePortSlice] and through [Resolve]. *)
Theorem union_merge_appends_new_keys :
  (∀ dst src : list PortSpec,
     mergePortSlice dst src MergeStrategyUnion
     = dst ++ filter (λ p, PortSpec_Name p ∉ PortSpec_Name <$> dst) src
     ∧ ∀ k, head (filter (λ p, PortSpec_Name p = k) (mergePortSlice dst src MergeStrategyUnion))
            = match head (filter (λ p, PortSpec_Name p = k) dst) with
              | Some p => Some p
              | None => head (filter (λ p, PortSpec_Name p = k) src)
              end)
  ∧ (∀ dst src : list SecretEntry,
       mergeSecretEntries dst src MergeStrategyUnion
       = dst ++ filter (λ e, SecretEntry_Name e ∉ SecretEntry_Name <$> dst) src
       ∧ ∀ k, head (filter (λ e, SecretEntry_Name e = k)
                      (mergeSecretEntries dst src MergeStrategyUnion))
              = match head (filter (λ e, SecretEntry_Name e = k) dst) with
                | Some e => Some e
                | None => head (filter (λ e, SecretEntry_Name e = k) src)
                end)
  ∧ mergePortSlice [port "http" 8080; port "metrics" 9090] [port "http" 80; port "https" 443]
      MergeStrategyUnion
    = [port "http" 8080; port "metrics" 9090; port "https" 443]
  ∧ ∃ r h,
      Resolve (Some (withPorts [port "http" 8080; port "metrics" 9090] ""))
        [Some (withPorts [port "http" 80; port "https" 443] MergeStrategyUnion)] ∅
      = Ok (r, h)
      ∧ NetworkSpec_Ports (Spec_Network (Template_Spec r))
        = [port "http" 8080; port "metrics" 9090; port "https" 443].
Proof.
  split; [|split; [|split]].
  - intros dst src. split; [apply mergePortSlice_union|].
    intros k. rewrite mergePortSlice_union. apply union_first_wins.
  - intros dst src. split; [apply mergeSecretEntries_union|].
    intros k. rewrite mergeSecretEntries_union. apply union_first_wins.
  - by vm_compute.
  - eexists _, _. split; [by vm_compute|]. by vm_compute.
Qed.

(** ** Merge steps *)

(** The assignment loop of a map merge, in whatever order it runs, leaves
    the entries of [src] over those of [dst]. *)
Lemma assign_loop_union (d s : gmap string string) :
  map_fold (λ k v m, <[k := v]> m) d s = s ∪ d.
Proof.
  apply (map_fold_weak_ind (λ r m, r = m ∪ d)).
  - by rewrite (left_id_L ∅ (∪)).
  - intros i x m r _ ->. by rewrite insert_union_l.
Qed.

Lemma assign_loop_any_order (d s : gmap string string) (order : list (string * string)) :
  order ≡ₚ map_to_list s →
  foldr (λ kv m, <[kv.1 := kv.2]> m) d order = s ∪ d.
Proof.
  intros Hperm. rewrite <- assign_loop_union, map_fold_foldr.
  assert (∀ l1 l2 : list (string * string), NoDup l1.*1 → l1 ≡ₚ l2 →
            foldr (λ kv m, <[kv.1 := kv.2]> m) d l1
            = foldr (λ kv m, <[kv.1 := kv.2]> m) d l2) as Hfold.
  { intros l1 l2 Hnd Hp. apply map_eq. intros k.
    assert (∀ l : list (string * string), NoDup l.*1 →
              foldr (λ kv m, <[kv.1 := kv.2]> m) d l !! k
              = match list_to_map (M := gmap string string) l !! k with
                | Some v => Some v
                | None => d !! k
                end) as Hl.
    { induction l as [|[k' v'] l IH]; intros Hl; simpl.
      - by rewrite lookup_empty.
      - apply NoDup_cons in Hl as [? ?]. rewrite !lookup_insert.
        case_decide; [done|]. by apply IH. }
    rewrite !Hl; [|by rewrite <- Hp|done].
    by rewrite (list_to_map_proper l1 l2). }
  rewrite (Hfold order (map_to_list s)); [|by rewrite Hperm; apply NoDup_fst_map_to_list|done].
  clear. induction (map_to_list s) as [|[k v] l IH]; simpl; [done|]. by rewrite IH.
Qed.

(** The spec's rule for the strategy in force at a merge step: the first
    non-empty of the layer's tag, the accumulated tag, and replace. *)
Definition effectiveStrategy (layerTag accTag : string) : string :=
  if decide (layerTag ≠ "") then layerTag
  else if decide (accTag ≠ "") then accTag
  else MergeStrategyReplace.

Lemma coalesce_effective (layerTag accTag : string) :
  coalesce [layerTag; accTag; MergeStrategyReplace] = effectiveStrategy layerTag accTag.
Proof.
  unfold effectiveStrategy. simpl.
  destruct (decide (layerTag = "")), (decide (accTag = ""));
    repeat case_decide; done.
Qed.

(** What [mergeNetwork] leaves in each field but the Tailscale one, whose
    merge is the only part that touches the heap. *)
Lemma mergeNetwork_fields (dst src : NetworkSpec) (h : Heap) :
  ∃ ts h',
    mergeNetwork dst src h
    = ({| NetworkSpec_Ports :=
            if decide (0 < length (NetworkSpec_Ports src))%nat
            then mergePortSlice (NetworkSpec_Ports dst) (NetworkSpec_Ports src)
                   (coalesce [NetworkSpec_PortsMergeStrategy src;
                              NetworkSpec_PortsMergeStrategy dst; MergeStrategyReplace])
            else NetworkSpec_Ports dst;
          NetworkSpec_BindAddress :=
            setIfNonEmpty (NetworkSpec_BindAddress dst) (NetworkSpec_BindAddress src);
          NetworkSpec_ReverseProxy :=
            match NetworkSpec_ReverseProxy src with
            | Some cp => Some cp
            | None => NetworkSpec_ReverseProxy dst
            end;
          NetworkSpec_Tailscale := ts;
          NetworkSpec_MultiGateway :=
            match NetworkSpec_MultiGateway src with
            | Some cp => Some cp
            | None => NetworkSpec_MultiGateway dst
            end;
          NetworkSpec_PortsMergeStrategy :=
            if decide (NetworkSpec_PortsMergeStrategy src ≠ "")
            then NetworkSpec_PortsMergeStrategy src
            else NetworkSpec_PortsMergeStrategy dst |}, h')
    ∧ (match NetworkSpec_Tailscale src with
       | Some s =>
           ∃ merged, ts = Some merged ∧ mergeTailscale (NetworkSpec_Tailscale dst) s h = (merged, h')
       | None => ts = NetworkSpec_Tailscale dst ∧ h' = h
       end).
Proof.
  unfold mergeNetwork, bind, ret.
  destruct (NetworkSpec_Tailscale src) as [s|].
  - destruct (mergeTailscale (NetworkSpec_Tailscale dst) s h) as [merged h'] eqn:Hm.
    exists (Some merged), h'. split; [done|]. by exists merged.
  - by exists (NetworkSpec_Tailscale dst), h.
Qed.

Lemma length_pos_nonempty {A} (l : list A) : (0 < length l)%nat ↔ l ≠ [].
Proof. destruct l; simpl; split; (done || lia). Qed.

Lemma mergeNetwork_ports (dst src : NetworkSpec) (h : Heap) :
  NetworkSpec_Ports (mergeNetwork dst src h).1
  = if decide (NetworkSpec_Ports src = []) then NetworkSpec_Ports dst
    else mergePortSlice (NetworkSpec_Ports dst) (NetworkSpec_Ports src)
           (effectiveStrategy (NetworkSpec_PortsMergeStrategy src)
              (NetworkSpec_PortsMergeStrategy dst)).
Proof.
  destruct (mergeNetwork_fields dst src h) as (ts & h' & -> & _).
  cbn [fst NetworkSpec_Ports]. rewrite coalesce_effective.
  destruct (decide (NetworkSpec_Ports src = [])) as [->|Hne]; [done|].
  by rewrite decide_True by (by apply length_pos_nonempty).
Qed.

Lemma mergeNetwork_strategy (dst src : NetworkSpec) (h : Heap) :
  NetworkSpec_PortsMergeStrategy (mergeNetwork dst src h).1
  = if decide (NetworkSpec_PortsMergeStrategy src = "") then NetworkSpec_PortsMergeStrategy dst
    else NetworkSpec_PortsMergeStrategy src.
Proof.
  destruct (mergeNetwork_fields dst src h) as (ts & h' & -> & _). simpl.
  by repeat case_decide.
Qed.

Lemma mergePortSlice_replace (dst src : list PortSpec) :
  mergePortSlice dst src MergeStrategyReplace = src.
Proof. done. Qed.

Lemma mergeSecretEntries_replace (dst src : list SecretEntry) :
  mergeSecretEntries dst src MergeStrategyReplace = src.
Proof. done. Qed.

Lemma mergeSecrets_entries (dst src : SecretsSpec) :
  SecretsSpec_Entries (mergeSecrets dst src)
  = if decide (SecretsSpec_Entries src = []) then SecretsSpec_Entries dst
    else mergeSecretEntries (SecretsSpec_Entries dst) (SecretsSpec_Entries src)
           (effectiveStrategy (SecretsSpec_EntriesMergeStrategy src)
              (SecretsSpec_EntriesMergeStrategy dst)).
Proof.
  unfold mergeSecrets. cbn [SecretsSpec_Entries]. rewrite coalesce_effective.
  destruct (decide (SecretsSpec_Entries src = [])) as [->|Hne]; [done|].
  by rewrite decide_True by (by apply length_pos_nonempty).
Qed.

Lemma mergeSecrets_strategy (dst src : SecretsSpec) :
  SecretsSpec_EntriesMergeStrategy (mergeSecrets dst src)
  = if decide (SecretsSpec_EntriesMergeStrategy src = "")
    then SecretsSpec_EntriesMergeStrategy dst
    else SecretsSpec_EntriesMergeStrategy src.
Proof. unfold mergeSecrets. simpl. by repeat case_decide. Qed.

(** A network section that only carries ports and a strategy tag. *)
Definition networkOf (ports : list PortSpec) (strategy : string) : NetworkSpec :=
  {| NetworkSpec_Ports := ports; NetworkSpec_BindAddress := "";
     NetworkSpec_ReverseProxy := None; NetworkSpec_Tailscale := None;
     NetworkSpec_MultiGateway := None; NetworkSpec_PortsMergeStrategy := strategy |}.

(** C1, as the claim states it, fails: under the replace strategy a layer
    without ports does not replace the accumulated ports by its empty
    list. *)
Lemma replace_does_not_clear_ports :
  ¬ (∀ (dst src : NetworkSpec) (h : Heap),
       effectiveStrategy (NetworkSpec_PortsMergeStrategy src) (NetworkSpec_PortsMergeStrategy dst)
       = MergeStrategyReplace →
       NetworkSpec_Ports (mergeNetwork dst src h).1 = NetworkSpec_Ports src).
Proof.
  intros Hclaim.
  specialize (Hclaim (networkOf [port "http" 8080] "") (networkOf [] MergeStrategyReplace) ∅
                eq_refl).
  vm_compute in Hclaim. discriminate.
Qed.

(** C1 (amended). At every merge step of the network ports and of the
    secret entries the strategy in force is the first non-empty of the
    incoming layer's tag, the accumulated tag and replace; afterwards the
    accumulated result carries the incoming tag whenever that tag is
    non-empty, so that a later layer without a tag merges under it; and
    under the replace strategy a non-empty incoming list fully replaces
    the accumulated list, while an empty incoming list leaves the
    accumulated list as it is. *)
Theorem merge_step_strategy :
  (∀ (dst src : NetworkSpec) (h : Heap),
     coalesce [NetworkSpec_PortsMergeStrategy src; NetworkSpec_PortsMergeStrategy dst;
               MergeStrategyReplace]
     = effectiveStrategy (NetworkSpec_PortsMergeStrategy src) (NetworkSpec_PortsMergeStrategy dst)
     ∧ NetworkSpec_Ports (mergeNetwork dst src h).1
       = (if decide (NetworkSpec_Ports src = []) then NetworkSpec_Ports dst
          else mergePortSlice (NetworkSpec_Ports dst) (NetworkSpec_Ports src)
                 (effectiveStrategy (NetworkSpec_PortsMergeStrategy src)
                    (NetworkSpec_PortsMergeStrategy dst)))
     ∧ NetworkSpec_PortsMergeStrategy (mergeNetwork dst src h).1
       = (if decide (NetworkSpec_PortsMergeStrategy src = "")
          then NetworkSpec_PortsMergeStrategy dst else NetworkSpec_PortsMergeStrategy src)
     ∧ (effectiveStrategy (NetworkSpec_PortsMergeStrategy src)
          (NetworkSpec_PortsMergeStrategy dst) = MergeStrategyReplace →
        NetworkSpec_Ports src ≠ [] →
        NetworkSpec_Ports (mergeNetwork dst src h).1 = NetworkSpec_Ports src)
     ∧ (NetworkSpec_Ports src = [] →
        NetworkSpec_Ports (mergeNetwork dst src h).1 = NetworkSpec_Ports dst)
     ∧ (∀ later : NetworkSpec,
          NetworkSpec_PortsMergeStrategy src ≠ "" →
          NetworkSpec_PortsMergeStrategy later = "" →
          effectiveStrategy (NetworkSpec_PortsMergeStrategy later)
            (NetworkSpec_PortsMergeStrategy (mergeNetwork dst src h).1)
          = NetworkSpec_PortsMergeStrategy src))
  ∧ (∀ dst src : SecretsSpec,
       coalesce [SecretsSpec_EntriesMergeStrategy src; SecretsSpec_EntriesMergeStrategy dst;
                 MergeStrategyReplace]
       = effectiveStrategy (SecretsSpec_EntriesMergeStrategy src)
           (SecretsSpec_EntriesMergeStrategy dst)
       ∧ SecretsSpec_Entries (mergeSecrets dst src)
         = (if decide (SecretsSpec_Entries src = []) then SecretsSpec_Entries dst
            else mergeSecretEntries (SecretsSpec_Entries dst) (SecretsSpec_Entries src)
                   (effectiveStrategy (SecretsSpec_EntriesMergeStrategy src)
                      (SecretsSpec_EntriesMergeStrategy dst)))
       ∧ SecretsSpec_EntriesMergeStrategy (mergeSecrets dst src)
         = (if decide (SecretsSpec_EntriesMergeStrategy src = "")
            then SecretsSpec_EntriesMergeStrategy dst else SecretsSpec_EntriesMergeStrategy src)
       ∧ (effectiveStrategy (SecretsSpec_EntriesMergeStrategy src)
            (SecretsSpec_EntriesMergeStrategy dst) = MergeStrategyReplace →
          SecretsSpec_Entries src ≠ [] →
          SecretsSpec_Entries (mergeSecrets dst src) = SecretsSpec_Entries src)
       ∧ (SecretsSpec_Entries src = [] →
          SecretsSpec_Entries (mergeSecrets dst src) = SecretsSpec_Entries dst)
       ∧ (∀ later : SecretsSpec,
            SecretsSpec_EntriesMergeStrategy src ≠ "" →
            SecretsSpec_EntriesMergeStrategy later = "" →
            effectiveStrategy (SecretsSpec_EntriesMergeStrategy later)
              (SecretsSpec_EntriesMergeStrategy (mergeSecrets dst src))
            = SecretsSpec_EntriesMergeStrategy src)).
Proof.
  split.
  - intros dst src h. split; [apply coalesce_effective|].
    split; [apply mergeNetwork_ports|]. split; [apply mergeNetwork_strategy|].
    rewrite mergeNetwork_ports, mergeNetwork_strategy. split; [|split].
    + intros -> Hne. by rewrite decide_False, mergePortSlice_replace.
    + intros ->. by rewrite decide_True.
    + intros later Hsrc ->. rewrite decide_False by done.
      unfold effectiveStrategy. by rewrite decide_False, decide_True by auto.
  - intros dst src. split; [apply coalesce_effective|].
    split; [apply mergeSecrets_entries|]. split; [apply mergeSecrets_strategy|].
    rewrite mergeSecrets_entries, mergeSecrets_strategy. split; [|split].
    + intros -> Hne. by rewrite decide_False, mergeSecretEntries_replace.
    + intros ->. by rewrite decide_True.
    + intros later Hsrc ->. rewrite decide_False by done.
      unfold effectiveStrategy. by rewrite decide_False, decide_True by auto.
Qed.

(** The replace clause of C1 at work: a base with one port, a layer with
    another one and no tag. *)
Lemma merge_step_strategy_witness :
  NetworkSpec_Ports
    (mergeNetwork (networkOf [port "http" 8080] "") (networkOf [port "https" 443] "") ∅).1
  = [port "https" 443].
Proof.
  refine (proj1 (proj2 (proj2 (proj2
            (proj1 merge_step_strategy (networkOf [port "http" 8080] "")
               (networkOf [port "https" 443] "") ∅)))) _ _).
  - reflexivity.
  - discriminate.
Defined.

(** ** Map merges and the Tailscale sub-spec *)

(** A reference with entries is allocated. *)
Lemma mapContent_nonempty_dom (h : Heap) (l : loc) : h !!! l ≠ (∅ : gmap string string) → l ∈ dom h.
Proof.
  intros Hne. apply elem_of_dom. rewrite lookup_total_alt in Hne.
  destruct (h !! l); [done|]. by destruct Hne.
Qed.

(** After [mergeMaps] the map [*dst] refers to holds the entries of [src]
    over those [dst] had: the later value wins per key, prior keys
    survive. *)
Lemma mergeMaps_content (dst src : mapref) (h : Heap) :
  mapContent (mergeMaps dst src h).2 (mergeMaps dst src h).1
  = mapContent h src ∪ mapContent h dst.
Proof.
  unfold mergeMaps, mapLen.
  destruct (decide (size (mapContent h src) = 0%nat)) as [Hz|Hnz].
  - apply map_size_empty_inv in Hz. simpl. by rewrite Hz, (left_id_L ∅ (∪)).
  - destruct dst as [d|]; unfold bind, makeMap, assignAll, ret; simpl.
    + by rewrite lookup_total_insert_eq, assign_loop_union.
    + rewrite !lookup_total_insert_eq, assign_loop_union. f_equal.
      destruct src as [s|]; simpl; [|done].
      assert (s ∈ dom h) as Hs.
      { apply mapContent_nonempty_dom. intros Hs. simpl in Hnz.
        by rewrite Hs, map_size_empty in Hnz. }
      rewrite lookup_total_insert_ne; [done|]. intros Heq. rewrite <- Heq in Hs.
      by apply (is_fresh (dom h)).
Qed.

(** The Tailscale flag is not sticky: a layer whose Tailscale sub-spec
    has [enabled] false does override an accumulated true. *)
Lemma tailscale_false_overrides_true :
  ¬ (∀ (dst src : NetworkSpec) (a b : TailscaleSpec) (h : Heap),
       NetworkSpec_Tailscale dst = Some a →
       NetworkSpec_Tailscale src = Some b →
       TailscaleSpec_Enabled a = true →
       TailscaleSpec_Enabled b = false →
       TailscaleSpec_Enabled <$> NetworkSpec_Tailscale (mergeNetwork dst src h).1 = Some true).
Proof.
  intros Hclaim.
  specialize (Hclaim
    {| NetworkSpec_Ports := []; NetworkSpec_BindAddress := ""; NetworkSpec_ReverseProxy := None;
       NetworkSpec_Tailscale := Some (Build_TailscaleSpec true "tailscale" [] None);
       NetworkSpec_MultiGateway := None; NetworkSpec_PortsMergeStrategy := "" |}
    {| NetworkSpec_Ports := []; NetworkSpec_BindAddress := ""; NetworkSpec_ReverseProxy := None;
       NetworkSpec_Tailscale := Some (Build_TailscaleSpec false "" [] None);
       NetworkSpec_MultiGateway := None; NetworkSpec_PortsMergeStrategy := "" |}
    _ _ ∅ eq_refl eq_refl eq_refl eq_refl).
  vm_compute in Hclaim. discriminate.
Qed.

(** What a merge step leaves in the Tailscale sub-spec when both the
    accumulated result and the incoming layer have one: [enabled] is that
    of the incoming layer, whether it is true or false; the provider is
    overridden only by a non-empty value, the tags only by a non-empty
    list, and the ACL mapping merges key by key. *)
Lemma tailscale_enabled_follows_layer (dst src : NetworkSpec) (a b : TailscaleSpec) (h : Heap) :
  NetworkSpec_Tailscale dst = Some a →
  NetworkSpec_Tailscale src = Some b →
  ∃ r,
    NetworkSpec_Tailscale (mergeNetwork dst src h).1 = Some r
    ∧ TailscaleSpec_Enabled r = TailscaleSpec_Enabled b
    ∧ TailscaleSpec_Provider r
      = (if decide (TailscaleSpec_Provider b = "") then TailscaleSpec_Provider a
         else TailscaleSpec_Provider b)
    ∧ TailscaleSpec_Tags r
      = (if decide (TailscaleSpec_Tags b = []) then TailscaleSpec_Tags a
         else TailscaleSpec_Tags b)
    ∧ mapContent (mergeNetwork dst src h).2 (TailscaleSpec_ACLMapping r)
      = mapContent h (TailscaleSpec_ACLMapping b) ∪ mapContent h (TailscaleSpec_ACLMapping a).
Proof.
  intros Hdst Hsrc.
  destruct (mergeNetwork_fields dst src h) as (ts & h' & -> & Hts).
  rewrite Hsrc, Hdst in Hts. destruct Hts as (merged & -> & Hm).
  exists merged. split; [done|]. cbn [fst snd].
  unfold mergeTailscale, bind, ret in Hm.
  pose proof (mergeMaps_content (TailscaleSpec_ACLMapping a) (TailscaleSpec_ACLMapping b) h)
    as Hacl.
  destruct (mergeMaps (TailscaleSpec_ACLMapping a) (TailscaleSpec_ACLMapping b) h)
    as [acl h''].
  injection Hm as <- <-. cbn in *. split; [done|]. split; [done|].
  split; [|done].
  destruct (TailscaleSpec_Tags b); simpl; by repeat case_decide.
Qed.

(** A layer that switches Tailscale off over a base that has it on. *)
Lemma tailscale_enabled_follows_layer_witness :
  ∃ r,
    NetworkSpec_Tailscale
      (mergeNetwork
         {| NetworkSpec_Ports := []; NetworkSpec_BindAddress := "";
            NetworkSpec_ReverseProxy := None;
            NetworkSpec_Tailscale := Some (Build_TailscaleSpec true "tailscale" ["tag:gw"] None);
            NetworkSpec_MultiGateway := None; NetworkSpec_PortsMergeStrategy := "" |}
         {| NetworkSpec_Ports := []; NetworkSpec_BindAddress := "";
            NetworkSpec_ReverseProxy := None;
            NetworkSpec_Tailscale := Some (Build_TailscaleSpec false "" [] None);
            NetworkSpec_MultiGateway := None; NetworkSpec_PortsMergeStrategy := "" |} ∅).1
    = Some r
    ∧ TailscaleSpec_Enabled r = false.
Proof.
  destruct (tailscale_enabled_follows_layer
              {| NetworkSpec_Ports := []; NetworkSpec_BindAddress := "";
                 NetworkSpec_ReverseProxy := None;
                 NetworkSpec_Tailscale :=
                   Some (Build_TailscaleSpec true "tailscale" ["tag:gw"] None);
                 NetworkSpec_MultiGateway := None; NetworkSpec_PortsMergeStrategy := "" |}
              {| NetworkSpec_Ports := []; NetworkSpec_BindAddress := "";
                 NetworkSpec_ReverseProxy := None;
                 NetworkSpec_Tailscale := Some (Build_TailscaleSpec false "" [] None);
                 NetworkSpec_MultiGateway := None; NetworkSpec_PortsMergeStrategy := "" |}
              _ _ ∅ eq_refl eq_refl) as (r & Hr & Hen & _).
  exists r. split; [exact Hr | exact Hen].
Defined.

(** A base that has Tailscale and metrics switched on, and an overlay
    that only adds a Tailscale tag and a metrics endpoint: it sets
    neither flag. *)
Definition tailscaleOnBase : Template :=
  {| Template_APIVersion := APIVersion; Template_Kind := KindEncodingTemplate;
     Template_Metadata :=
       {| Metadata_Name := "gateway-base"; Metadata_Version := ""; Metadata_Description := "";
          Metadata_Labels := None |};
     Template_Spec :=
       {| Spec_Identity := zeroIdentitySpec; Spec_Runtime := zeroRuntimeSpec;
          Spec_Network :=
            {| NetworkSpec_Ports := []; NetworkSpec_BindAddress := "";
               NetworkSpec_ReverseProxy := None;
               NetworkSpec_Tailscale := Some (Build_TailscaleSpec true "tailscale" ["tag:gw"] None);
               NetworkSpec_MultiGateway := None; NetworkSpec_PortsMergeStrategy := "" |};
          Spec_Secrets := zeroSecretsSpec;
          Spec_Observability :=
            Build_ObservabilitySpec zeroLoggingSpec (Build_MetricsSpec true "" "") zeroTracesSpec
              zeroHealthCheckSpec;
          Spec_Policy := zeroPolicySpec |} |}.

Definition tagsOverlay : Template :=
  {| Template_APIVersion := ""; Template_Kind := ""; Template_Metadata := zeroMetadata;
     Template_Spec :=
       {| Spec_Identity := zeroIdentitySpec; Spec_Runtime := zeroRuntimeSpec;
          Spec_Network :=
            {| NetworkSpec_Ports := []; NetworkSpec_BindAddress := "";
               NetworkSpec_ReverseProxy := None;
               NetworkSpec_Tailscale := Some (Build_TailscaleSpec false "" ["tag:extra"] None);
               NetworkSpec_MultiGateway := None; NetworkSpec_PortsMergeStrategy := "" |};
          Spec_Secrets := zeroSecretsSpec;
          Spec_Observability :=
            Build_ObservabilitySpec zeroLoggingSpec (Build_MetricsSpec false ":9090/metrics" "")
              zeroTracesSpec zeroHealthCheckSpec;
          Spec_Policy := zeroPolicySpec |} |}.

(** C6. The code breaks the rule: resolving the base above under the
    overlay above, which leaves both [enabled] flags at their zero value,
    returns a template whose Tailscale sub-spec is switched off, while
    its provider is kept, its tags are the overlay's and its metrics flag
    is still on. [mergeTailscale] copies [enabled] from the layer without
    the guard that [mergeMetrics], [mergeTraces] and [mergeHealthCheck]
    put on their flags. *)
Theorem Resolve_tags_overlay_switches_tailscale_off (h : Heap) :
  ∃ r h' ts,
    Resolve (Some tailscaleOnBase) [Some tagsOverlay] h = Ok (r, h')
    ∧ NetworkSpec_Tailscale (Spec_Network (Template_Spec r)) = Some ts
    ∧ TailscaleSpec_Enabled ts = false
    ∧ TailscaleSpec_Provider ts = "tailscale"
    ∧ TailscaleSpec_Tags ts = ["tag:extra"]
    ∧ MetricsSpec_Enabled (ObservabilitySpec_Metrics (Spec_Observability (Template_Spec r)))
      = true
    ∧ MetricsSpec_Endpoint (ObservabilitySpec_Metrics (Spec_Observability (Template_Spec r)))
      = ":9090/metrics".
Proof. eexists _, h, _. by vm_compute. Qed.

(** ** Resolve *)

Lemma mergeMetadataLabels_identity (dst src : Template) (h : Heap) :
  Template_APIVersion (mergeMetadataLabels dst src h).1 = Template_APIVersion dst
  ∧ Template_Kind (mergeMetadataLabels dst src h).1 = Template_Kind dst.
Proof.
  unfold mergeMetadataLabels. case_decide; [done|].
  unfold bind, ret. destruct (Metadata_Labels (Template_Metadata dst)); by simpl.
Qed.

Lemma applyLayer_identity (result : Template) (layer : option Template) (h : Heap) :
  Template_APIVersion (applyLayer result layer h).1 = Template_APIVersion result
  ∧ Template_Kind (applyLayer result layer h).1 = Template_Kind result.
Proof.
  destruct layer as [l|]; [|done]. unfold applyLayer, bind.
  destruct (mergeSpec (Template_Spec result) (Template_Spec l) h) as [spec h'].
  apply (mergeMetadataLabels_identity
           {| Template_APIVersion := Template_APIVersion result;
              Template_Kind := Template_Kind result;
              Template_Metadata := Template_Metadata result;
              Template_Spec := spec |}).
Qed.

Lemma applyLayers_identity (layers : list (option Template)) (result : Template) (h : Heap) :
  Template_APIVersion (applyLayers result layers h).1 = Template_APIVersion result
  ∧ Template_Kind (applyLayers result layers h).1 = Template_Kind result.
Proof.
  revert result h. induction layers as [|layer rest IH]; intros result h; [done|].
  cbn [applyLayers]. unfold bind.
  pose proof (applyLayer_identity result layer h) as [Ha Hk].
  destruct (applyLayer result layer h) as [result' h']. cbn [fst] in Ha, Hk.
  rewrite <- Ha, <- Hk. apply IH.
Qed.

(** [deepCopy] always returns a copy. *)
Lemma deepCopy_total (t : Template) (h : Heap) : ∃ copy h', deepCopy t h = Ok (copy, h').
Proof.
  unfold deepCopy.
  match goal with |- ∃ _ _, Ok ?p = _ => destruct p as [copy h'] end.
  by exists copy, h'.
Qed.

(** C10. For every non-nil base, [Resolve] succeeds and the template it
    returns has its apiVersion set to [APIVersion] and its kind to
    [KindEncodingTemplate], whatever the base and the layers carry in
    those fields. *)
Theorem Resolve_forces_apiVersion (base : Template) (layers : list (option Template))
    (h : Heap) :
  ∃ r h',
    Resolve (Some base) layers h = Ok (r, h')
    ∧ Template_APIVersion r = APIVersion
    ∧ Template_Kind r = KindEncodingTemplate.
Proof.
  unfold Resolve. destruct (deepCopy_total base h) as (copy & h1 & ->).
  pose proof (applyLayers_identity layers
                {| Template_APIVersion := APIVersion;
                   Template_Kind := KindEncodingTemplate;
                   Template_Metadata := Template_Metadata copy;
                   Template_Spec := Template_Spec copy |} h1) as [Ha Hk].
  destruct (applyLayers _ layers h1) as [r h'].
  by exists r, h'.
Qed.

(** ** Resolve and the maps of its input layers *)

(** The entries of the maps a template refers to. Together with the
    struct itself, which no callee can write to, they make up what a deep
    comparison of the template sees. *)
Definition mapsOf (h : Heap) (t : Template) : list (gmap string string) :=
  [mapContent h (Metadata_Labels (Template_Metadata t));
   mapContent h (IdentitySpec_Labels (Spec_Identity (Template_Spec t)));
   match NetworkSpec_Tailscale (Spec_Network (Template_Spec t)) with
   | Some ts => mapContent h (TailscaleSpec_ACLMapping ts)
   | None => ∅
   end].

(** A layer that brings a Tailscale sub-spec whose ACL mapping is the map
    at [acl]. *)
Definition tailscaleLayer (acl : loc) : Template :=
  {| Template_APIVersion := ""; Template_Kind := "";
     Template_Metadata := zeroMetadata;
     Template_Spec :=
       {| Spec_Identity := zeroIdentitySpec; Spec_Runtime := zeroRuntimeSpec;
          Spec_Network :=
            {| NetworkSpec_Ports := []; NetworkSpec_BindAddress := "";
               NetworkSpec_ReverseProxy := None;
               NetworkSpec_Tailscale :=
                 Some {| TailscaleSpec_Enabled := true; TailscaleSpec_Provider := "";
                         TailscaleSpec_Tags := []; TailscaleSpec_ACLMapping := Some acl |};
               NetworkSpec_MultiGateway := None; NetworkSpec_PortsMergeStrategy := "" |};
          Spec_Secrets := zeroSecretsSpec; Spec_Observability := zeroObservabilitySpec;
          Spec_Policy := zeroPolicySpec |} |}.

(** Two maps in the heap: the ACL mappings of two layers. *)
Definition twoACLs : Heap :=
  <[1%positive := {["group:ops" := "tag:gateway"]}]>
    (<[2%positive := {["group:dev" := "tag:worker"]}]> ∅).

(** C3 does not hold of the code: over a base without a Tailscale
    sub-spec, the first layer that has one hands its ACL map itself to
    the result, and the next such layer writes its entries into it.
    After [Resolve] the first layer's ACL mapping has an entry more than
    before the call. *)
Lemma Resolve_writes_into_layer :
  ∃ r h',
    Resolve (Some zeroTemplate) [Some (tailscaleLayer 1%positive); Some (tailscaleLayer 2%positive)] twoACLs
    = Ok (r, h')
    ∧ mapsOf twoACLs (tailscaleLayer 1%positive) = [∅; ∅; {["group:ops" := "tag:gateway"]}]
    ∧ mapsOf h' (tailscaleLayer 1%positive)
      = [∅; ∅; <["group:dev" := "tag:worker"]> {["group:ops" := "tag:gateway"]}]
    ∧ mapsOf h' (tailscaleLayer 1%positive) ≠ mapsOf twoACLs (tailscaleLayer 1%positive).
Proof.
  eexists _, _. split; [by vm_compute|].
  split; [by vm_compute|]. split; [by vm_compute|]. by vm_compute.
Qed.

(** ** Sorting *)

(** The sorted list only depends on the elements, not on the order in
    which a [range] loop appended them. *)
Lemma sortStrings_sorted (l : list string) : Sorted String.le (sortStrings l).
Proof. apply Sorted_merge_sort. apply _. Qed.

Lemma sortStrings_perm (l : list string) : sortStrings l ≡ₚ l.
Proof. apply merge_sort_Permutation. Qed.

Lemma sortStrings_canonical (l1 l2 : list string) :
  l1 ≡ₚ l2 → sortStrings l1 = sortStrings l2.
Proof.
  intros Hp. apply (Sorted_unique String.le); try apply sortStrings_sorted.
  by rewrite !sortStrings_perm.
Qed.

Lemma RangeOk_keys (range : RangeOrder) (m : gmap string string) :
  RangeOk range → (range m).*1 ≡ₚ (map_to_list m).*1.
Proof. intros Hr. apply fmap_Permutation, Hr. Qed.

(** ** Hash *)

Section HashFacts.

Variable jsonString : string → string.

Lemma jsonMap_range (r1 r2 : RangeOrder) (m : gmap string string) :
  RangeOk r1 → RangeOk r2 → jsonMap jsonString r1 m = jsonMap jsonString r2 m.
Proof.
  intros H1 H2. unfold jsonMap.
  rewrite (sortStrings_canonical (r1 m).*1 (r2 m).*1); [done|].
  by rewrite (RangeOk_keys r1), (RangeOk_keys r2).
Qed.

(** The encoding of a map field only depends on the entries of the map. *)
Lemma omitMap_content (r1 r2 : RangeOrder) (h1 h2 : Heap) (name : string) (m1 m2 : mapref) :
  RangeOk r1 → RangeOk r2 →
  mapContent h1 m1 = mapContent h2 m2 →
  omitMap jsonString r1 h1 name m1 = omitMap jsonString r2 h2 name m2.
Proof.
  intros H1 H2 Hm. unfold omitMap, mapLen. rewrite Hm.
  by rewrite (jsonMap_range r1 r2).
Qed.

(** A template with its map references blanked: the part of the document
    that lives in the structs. *)
Definition eraseMaps (t : Template) : Template :=
  let md := Template_Metadata t in
  let sp := Template_Spec t in
  let id := Spec_Identity sp in
  let nw := Spec_Network sp in
  {| Template_APIVersion := Template_APIVersion t;
     Template_Kind := Template_Kind t;
     Template_Metadata :=
       {| Metadata_Name := Metadata_Name md; Metadata_Version := Metadata_Version md;
          Metadata_Description := Metadata_Description md; Metadata_Labels := None |};
     Template_Spec :=
       {| Spec_Identity :=
            {| IdentitySpec_InstanceName := IdentitySpec_InstanceName id;
               IdentitySpec_Role := IdentitySpec_Role id;
               IdentitySpec_Region := IdentitySpec_Region id;
               IdentitySpec_Labels := None;
               IdentitySpec_TailnetTags := IdentitySpec_TailnetTags id |};
          Spec_Runtime := Spec_Runtime sp;
          Spec_Network :=
            {| NetworkSpec_Ports := NetworkSpec_Ports nw;
               NetworkSpec_BindAddress := NetworkSpec_BindAddress nw;
               NetworkSpec_ReverseProxy := NetworkSpec_ReverseProxy nw;
               NetworkSpec_Tailscale :=
                 (λ ts, {| TailscaleSpec_Enabled := TailscaleSpec_Enabled ts;
                           TailscaleSpec_Provider := TailscaleSpec_Provider ts;
                           TailscaleSpec_Tags := TailscaleSpec_Tags ts;
                           TailscaleSpec_ACLMapping := None |}) <$> NetworkSpec_Tailscale nw;
               NetworkSpec_MultiGateway := NetworkSpec_MultiGateway nw;
               NetworkSpec_PortsMergeStrategy := NetworkSpec_PortsMergeStrategy nw |};
          Spec_Secrets := Spec_Secrets sp;
          Spec_Observability := Spec_Observability sp;
          Spec_Policy := Spec_Policy sp |} |}.

(** Two documents are logically equal when their structs agree apart from
    the map references and their maps hold the same entries. *)
Definition SameDocument (h1 : Heap) (t1 : Template) (h2 : Heap) (t2 : Template) : Prop :=
  eraseMaps t1 = eraseMaps t2 ∧ mapsOf h1 t1 = mapsOf h2 t2.

Lemma Marshal_same_document (r1 r2 : RangeOrder) (h1 h2 : Heap) (t1 t2 : Template) :
  RangeOk r1 → RangeOk r2 →
  SameDocument h1 t1 h2 t2 →
  Marshal jsonString r1 t1 h1 = Marshal jsonString r2 t2 h2.
Proof.
  intros Hr1 Hr2 [Hs Hm].
  destruct t1 as [api1 kind1 [n1 v1 d1 ml1]
                    [[in1 ro1 re1 il1 tt1] rt1 [ports1 bind1 rp1 ts1 mg1 pms1] sec1 obs1 pol1]].
  destruct t2 as [api2 kind2 [n2 v2 d2 ml2]
                    [[in2 ro2 re2 il2 tt2] rt2 [ports2 bind2 rp2 ts2 mg2 pms2] sec2 obs2 pol2]].
  unfold eraseMaps in Hs. unfold mapsOf in Hm. cbn in Hs, Hm.
  injection Hs as -> -> -> -> -> -> -> -> -> -> -> -> -> Hts -> -> -> -> ->.
  injection Hm as Hml Hil Hacl.
  unfold Marshal, jsonMetadata, jsonSpec, jsonIdentity, jsonNetwork. cbn.
  rewrite (omitMap_content r1 r2 h1 h2 "labels" ml1 ml2) by done.
  rewrite (omitMap_content r1 r2 h1 h2 "labels" il1 il2) by done.
  destruct ts1 as [[e1 p1 g1 a1]|], ts2 as [[e2 p2 g2 a2]|]; try done.
  cbn in Hts, Hacl. injection Hts as -> -> ->.
  unfold jsonTailscale. cbn.
  by rewrite (omitMap_content r1 r2 h1 h2 "acl_mapping" a1 a2).
Qed.

Lemma length_bigEndian (n : nat) (x : Z) : length (SHA256.bigEndian n x) = n.
Proof. unfold SHA256.bigEndian. by rewrite length_fmap, length_reverse, length_seq. Qed.

Lemma length_Sum256 (data : list Z) : length (SHA256.Sum256 data) = 32%nat.
Proof.
  unfold SHA256.Sum256, SHA256.digest. by rewrite !length_app, !length_bigEndian.
Qed.

Lemma length_hexString (bs : list Z) : String.length (hexString bs) = (2 * length bs)%nat.
Proof. induction bs as [|b bs IH]; simpl; [done|]. rewrite IH. lia. Qed.

Lemma hexDigit_lower (n : Z) : hexDigit n ∈ hexDigits.
Proof.
  unfold hexDigit. destruct (nth_in_or_default (Z.to_nat n) hexDigits (Ascii.ascii_of_nat 48))
    as [Hin| ->].
  - by apply list_elem_of_In.
  - by vm_compute; repeat constructor.
Qed.

Lemma hexString_lower (bs : list Z) :
  Forall (λ c, c ∈ hexDigits) (String.list_ascii_of_string (hexString bs)).
Proof.
  induction bs as [|b bs IH]; simpl; [constructor|].
  constructor; [apply hexDigit_lower|]. constructor; [apply hexDigit_lower|]. exact IH.
Qed.

End HashFacts.

(** C7. For every template, [Hash] succeeds and returns 64 lower-case
    hexadecimal characters: the SHA-256 digest of the JSON serialization,
    in which the keys of every map come in sorted order. The digest does
    not depend on the order in which the encoder's loops enumerate the
    maps, so hashing the same template twice gives the same digest, and so
    do any two logically equal documents, in particular label maps that
    received the same entries in different orders. *)
Theorem Hash_deterministic (jsonString : string → string) (range1 range2 : RangeOrder)
    (t : Template) (h : Heap) :
  RangeOk range1 →
  RangeOk range2 →
  ∃ d,
    Hash jsonString range1 t h = Ok d
    ∧ String.length d = 64%nat
    ∧ Forall (λ c, c ∈ hexDigits) (String.list_ascii_of_string d)
    ∧ (∃ data,
         Marshal jsonString range1 t h = Ok data
         ∧ d = hexString (SHA256.Sum256 (bytesOf data)))
    ∧ (∀ m : gmap string string,
         ∃ keys,
           Sorted String.le keys
           ∧ keys ≡ₚ (map_to_list m).*1
           ∧ jsonMap jsonString range1 m
             = object ((λ k, Some (jsonString k +:+ ":" +:+ jsonString (m !!! k))) <$> keys))
    ∧ Hash jsonString range2 t h = Ok d
    ∧ (∀ (t' : Template) (h' : Heap),
         SameDocument h t h' t' → Hash jsonString range2 t' h' = Ok d)
    ∧ (∀ (l : loc) (m : gmap string string) (k1 v1 k2 v2 : string),
         k1 ≠ k2 →
         Hash jsonString range1 t (<[l := <[k1 := v1]> (<[k2 := v2]> m)]> h)
         = Hash jsonString range2 t (<[l := <[k2 := v2]> (<[k1 := v1]> m)]> h)).
Proof.
  intros Hr1 Hr2. unfold Hash.
  destruct (Marshal jsonString range1 t h) as [data|e] eqn:Hdata; [|done].
  exists (hexString (SHA256.Sum256 (bytesOf data))).
  split; [done|]. split; [by rewrite length_hexString, length_Sum256|].
  split; [apply hexString_lower|]. split; [by exists data|].
  split; [|split; [|split]].
  - intros m. exists (sortStrings (range1 m).*1).
    split; [apply sortStrings_sorted|]. split; [|done].
    by rewrite sortStrings_perm, (RangeOk_keys range1).
  - by rewrite <- (Marshal_same_document jsonString range1 range2 h h t t), Hdata.
  - intros t' h' Hsame.
    by rewrite <- (Marshal_same_document jsonString range1 range2 h h' t t'), Hdata.
  - intros l m k1 v1 k2 v2 Hne.
    rewrite (insert_insert_ne m k1 k2 v1 v2) by done.
    set (h2 := <[l := <[k2 := v2]> (<[k1 := v1]> m)]> h).
    by rewrite (Marshal_same_document jsonString range1 range2 h2 h2 t t).
Qed.

(** A string encoder for the examples: on text without quotes,
    backslashes, control or non-ASCII characters and the characters the
    JSON encoder escapes for HTML, both [encoding/json] and [%q] only add
    the surrounding double quotes. *)
Definition quotePlain (s : string) : string := DQ +:+ s +:+ DQ.

(** The template of the resolver's hash test, with two labels added. *)
Definition labelled : Template :=
  {| Template_APIVersion := APIVersion; Template_Kind := KindEncodingTemplate;
     Template_Metadata :=
       {| Metadata_Name := "test"; Metadata_Version := ""; Metadata_Description := "";
          Metadata_Labels := Some 1%positive |};
     Template_Spec :=
       {| Spec_Identity := Build_IdentitySpec "" RoleWorker "" None [];
          Spec_Runtime := zeroRuntimeSpec; Spec_Network := zeroNetworkSpec;
          Spec_Secrets := zeroSecretsSpec; Spec_Observability := zeroObservabilitySpec;
          Spec_Policy := zeroPolicySpec |} |}.

Definition labelHeap : Heap := {[1%positive := {["owner" := "adam"; "env" := "prod"]}]}.

Lemma RangeOk_map_to_list : RangeOk map_to_list.
Proof. by intros m. Qed.

Lemma RangeOk_reverse : RangeOk (λ m, reverse (map_to_list m)).
Proof. intros m. apply reverse_Permutation. Qed.

(** Enumerating the labels in one order or the reverse gives the same
    digest. *)
Lemma Hash_deterministic_witness :
  ∃ d,
    Hash quotePlain map_to_list labelled labelHeap = Ok d
    ∧ Hash quotePlain (λ m, reverse (map_to_list m)) labelled labelHeap = Ok d
    ∧ String.length d = 64%nat.
Proof.
  destruct (Hash_deterministic quotePlain map_to_list (λ m, reverse (map_to_list m))
              labelled labelHeap RangeOk_map_to_list RangeOk_reverse)
    as (d & H1 & Hlen & _ & _ & _ & H2 & _).
  exists d. split; [exact H1|]. split; [exact H2 | exact Hlen].
Defined.

(** ** Plan and the manifest *)

Lemma collect_loop (l : list (string * string)) (acc : list string) :
  foldl (λ files kv, files ++ [kv.1]) acc l = acc ++ l.*1.
Proof.
  revert acc. induction l as [|kv l IH]; intros acc; simpl.
  - by rewrite app_nil_r.
  - by rewrite IH, <- app_assoc.
Qed.

Lemma collectPaths_keys (range : RangeOrder) (bundle : InstallBundle) :
  RangeOk range →
  sortStrings (collectPaths range bundle)
  = sortStrings (map_to_list (InstallBundle_Files bundle)).*1.
Proof.
  intros Hr. unfold collectPaths. rewrite collect_loop. simpl.
  apply sortStrings_canonical. by apply RangeOk_keys.
Qed.

Lemma sorted_keys_elem_of (m : gmap string string) (k : string) :
  k ∈ sortStrings (map_to_list m).*1 ↔ k ∈ dom m.
Proof.
  rewrite sortStrings_perm, elem_of_dom, list_elem_of_fmap. split.
  - intros ([k' v] & -> & Hin). apply elem_of_map_to_list in Hin. by exists v.
  - intros [v Hv]. exists (k, v). split; [done|]. by apply elem_of_map_to_list.
Qed.

Lemma sorted_keys_NoDup (m : gmap string string) : NoDup (sortStrings (map_to_list m).*1).
Proof. rewrite sortStrings_perm. apply NoDup_fst_map_to_list. Qed.

(** C8. For every bundle that holds its resolved template, [Plan]
    returns a summary whose file list is exactly the key set of
    [bundle.Files] in increasing order (sorted, without repetition, with
    the keys as its members) and whose hash is the bundle's source hash,
    whatever the order in which the map is enumerated; the manifest that
    [WriteBundle] builds for the same bundle has the same file list and
    hash, and it is that manifest that a successful [WriteBundle] writes
    last. *)
Theorem Plan_matches_manifest (range range2 : RangeOrder) (bundle : InstallBundle)
    (t : Template) :
  RangeOk range →
  RangeOk range2 →
  InstallBundle_ResolvedTemplate bundle = Some t →
  ∃ p,
    Plan range bundle = Some p
    ∧ PlanSummary_Files p = sortStrings (map_to_list (InstallBundle_Files bundle)).*1
    ∧ Sorted String.le (PlanSummary_Files p)
    ∧ NoDup (PlanSummary_Files p)
    ∧ (∀ k, k ∈ PlanSummary_Files p ↔ k ∈ dom (InstallBundle_Files bundle))
    ∧ PlanSummary_SourceHash p = InstallBundle_SourceHash bundle
    ∧ BundleManifest_Files (buildManifest range2 bundle t) = PlanSummary_Files p
    ∧ BundleManifest_SourceHash (buildManifest range2 bundle t) = PlanSummary_SourceHash p
    ∧ (∀ (FS : Type) (MkdirAll : string → Z → FS → Result FS)
         (WriteFile : string → string → Z → FS → Result FS)
         (filepath_Join : string → string → string) (filepath_Dir : string → string)
         (jsonString : string → string) (range1 : RangeOrder) (dir : string) (fs fs' : FS),
         WriteBundle MkdirAll WriteFile filepath_Join filepath_Dir jsonString range1 range2
           bundle dir fs = Some (Ok fs') →
         ∃ fs0,
           WriteFile (filepath_Join dir "bundle-manifest.json")
             (MarshalIndent jsonString (buildManifest range2 bundle t)) mode644 fs0
           = Ok fs').
Proof.
  intros Hr Hr2 Ht. unfold Plan. rewrite Ht. eexists. split; [done|]. cbn.
  rewrite !collectPaths_keys by done.
  split; [done|]. split; [apply sortStrings_sorted|]. split; [apply sorted_keys_NoDup|].
  split; [apply sorted_keys_elem_of|]. split; [done|]. split; [done|]. split; [done|].
  intros FS MkdirAll WriteFile filepath_Join filepath_Dir jsonString range1 dir fs fs' Hw.
  unfold WriteBundle in Hw. rewrite Ht in Hw.
  destruct (MkdirAll dir mode755 fs) as [fs1|e]; [|done].
  destruct (writeArtifacts _ _ _ _ _ _ fs1) as [fs2|e]; [|done].
  exists fs2.
  destruct (WriteFile _ _ mode644 fs2) as [fs3|e] eqn:Hwrite; [|done].
  by injection Hw as <-.
Qed.

(** An in-memory file system on which nothing fails: directories are not
    recorded, a file is its content and mode. *)
Definition memMkdirAll (path : string) (perm : Z) (fs : gmap string (string * Z))
    : Result (gmap string (string * Z)) := Ok fs.

Definition memWriteFile (path data : string) (perm : Z) (fs : gmap string (string * Z))
    : Result (gmap string (string * Z)) := Ok (<[path := (data, perm)]> fs).

Definition slashJoin (dir rel : string) : string := dir +:+ "/" +:+ rel.

(** A bundle with a script and a manifest file. *)
Definition sampleBundle : InstallBundle :=
  {| InstallBundle_SourceHash := "09e7f846";
     InstallBundle_ResolvedTemplate := Some labelled;
     InstallBundle_Files := {["install.sh" := "#!/bin/sh"; "base/service.yaml" := "kind: Service"]} |}.

Lemma Plan_matches_manifest_witness :
  ∃ p fs',
    Plan map_to_list sampleBundle = Some p
    ∧ PlanSummary_Files p = ["base/service.yaml"; "install.sh"]
    ∧ WriteBundle memMkdirAll memWriteFile slashJoin id quotePlain map_to_list
        (λ m, reverse (map_to_list m)) sampleBundle "out" ∅ = Some (Ok fs')
    ∧ fs' !! "out/bundle-manifest.json"
      = Some (MarshalIndent quotePlain
                (buildManifest (λ m, reverse (map_to_list m)) sampleBundle labelled), mode644).
Proof.
  destruct (Plan_matches_manifest map_to_list (λ m, reverse (map_to_list m)) sampleBundle
              labelled RangeOk_map_to_list RangeOk_reverse eq_refl)
    as (p & Hp & Hfiles & _ & _ & _ & _ & _ & _ & Hwrite).
  exists p. eexists. split; [exact Hp|]. split; [by rewrite Hfiles|].
  split; [by vm_compute|].
  edestruct (Hwrite _ memMkdirAll memWriteFile slashJoin id quotePlain map_to_list "out" ∅)
    as [fs0 Hfs0]; [by vm_compute|].
  by vm_compute.
Defined.

(** ** The renderer factory against the validator *)

Lemma NewRenderer_supported (target : string) :
  (∃ r, NewRenderer target = Ok r)
  ↔ target ∈ [TargetPodman; TargetKubernetes; TargetOpenShift; TargetSandbox].
Proof.
  unfold NewRenderer. rewrite !elem_of_cons, elem_of_nil.
  repeat case_decide; split; try (intros [r Hr]; discriminate); eauto; tauto.
Qed.

(** A template that declares the droplet target and nothing the
    validator objects to. *)
Definition dropletTemplate : Template :=
  {| Template_APIVersion := APIVersion; Template_Kind := KindEncodingTemplate;
     Template_Metadata :=
       {| Metadata_Name := "droplet-worker"; Metadata_Version := "";
          Metadata_Description := ""; Metadata_Labels := None |};
     Template_Spec :=
       {| Spec_Identity := Build_IdentitySpec "worker-1" RoleWorker "" None [];
          Spec_Runtime := Build_RuntimeSpec TargetDroplet zeroResourceSpec zeroImageSpec;
          Spec_Network := networkOf [port "http" 8080] "";
          Spec_Secrets := zeroSecretsSpec; Spec_Observability := zeroObservabilitySpec;
          Spec_Policy := zeroPolicySpec |} |}.

(** C9. Some template passes [Validate] and is refused by the renderer
    factory: the validator accepts the droplet target, while
    [NewRenderer] answers it with the unsupported-target error; the
    factory supports exactly podman, kubernetes, openshift (served by the
    Kubernetes renderer) and sandbox. *)
Theorem validated_target_without_renderer (ParseIP : string → bool) (quote : string → string) :
  ∃ t,
    Validate ParseIP quote t = None
    ∧ RuntimeSpec_DeploymentTarget (Spec_Runtime (Template_Spec t)) = TargetDroplet
    ∧ isValidTarget TargetDroplet = true
    ∧ NewRenderer (RuntimeSpec_DeploymentTarget (Spec_Runtime (Template_Spec t)))
      = Err "unsupported deployment target: droplet"
    ∧ (∀ target,
         (∃ r, NewRenderer target = Ok r)
         ↔ target ∈ [TargetPodman; TargetKubernetes; TargetOpenShift; TargetSandbox])
    ∧ NewRenderer TargetPodman = Ok PodmanRenderer
    ∧ NewRenderer TargetKubernetes = Ok KubernetesRenderer
    ∧ NewRenderer TargetOpenShift = Ok KubernetesRenderer
    ∧ NewRenderer TargetSandbox = Ok SandboxRenderer.
Proof.
  exists dropletTemplate. split; [by vm_compute|]. split; [done|]. split; [by vm_compute|].
  split; [by vm_compute|]. split; [apply NewRenderer_supported|].
  repeat split; by vm_compute.
Qed.

(** ** The validator against its rules *)

(** [strings.Contains], by way of [strings.HasPrefix]. *)
Fixpoint HasPrefix (s prefix : string) {struct prefix} : bool :=
  match prefix, s with
  | EmptyString, _ => true
  | String c prefix', String d s' => bool_decide (c = d) && HasPrefix s' prefix'
  | String _ _, EmptyString => false
  end.

Fixpoint Contains (s substr : string) : bool :=
  HasPrefix s substr
  || match s with
     | EmptyString => false
     | String _ s' => Contains s' substr
     end.

(** The closed sets of section 4.2 of the specification. *)
Definition roleSet : list string :=
  [RoleGateway; RoleControlPlane; RoleWorker; RoleObservability; RoleDBAdjunct].
Definition targetSet : list string :=
  [TargetPodman; TargetKubernetes; TargetOpenShift; TargetDroplet; TargetSandbox].
Definition secretsProviderSet : list string := ["builtin"; "vault"; "k8s_secrets"].
Definition secretTypeSet : list string := ["api_key"; "node_key"; "oauth_cred"; "db_cred"; "cert"].
Definition mergeStrategySet : list string :=
  [MergeStrategyReplace; MergeStrategyAppend; MergeStrategyUnion].
Definition logLevelSet : list string := ["debug"; "info"; "warn"; "error"].
Definition logFormatSet : list string := ["json"; "text"].
Definition updateChannelSet : list string := ["stable"; "beta"; "nightly"; "pinned"].

(** [LastWith P l j]: [j] is the last position of [l] whose element
    satisfies [P]. *)
Definition LastWith {A} (P : A → Prop) (l : list A) (j : nat) : Prop :=
  (∃ x, l !! j = Some x ∧ P x) ∧ ∀ k y, (j < k)%nat → l !! k = Some y → ¬ P y.

Section Rules.

Variable ParseIP : string → bool.
Variable quote : string → string.

(** The violations of the port at index [i], given the ports before it:
    a missing name, a number or host port out of range, a name or a
    number that an earlier port already has (reported with the latest
    such port). *)
Inductive PortViolationAt (before : list PortSpec) (i : nat) (p : PortSpec) : string → Prop :=
  | PV_name :
      PortSpec_Name p = "" → PortViolationAt before i p (msgPortName i)
  | PV_range :
      ¬ (1 ≤ PortSpec_Port p ≤ 65535) →
      PortViolationAt before i p (msgPortRange i (PortSpec_Port p))
  | PV_hostRange :
      PortSpec_HostPort p ≠ 0 → ¬ (1 ≤ PortSpec_HostPort p ≤ 65535) →
      PortViolationAt before i p (msgHostPortRange i (PortSpec_HostPort p))
  | PV_duplicate (prev : nat) :
      LastWith (λ q, PortSpec_Name q = PortSpec_Name p) before prev →
      PortViolationAt before i p (msgPortDuplicate quote i (PortSpec_Name p) prev)
  | PV_conflict (prev : nat) (q : PortSpec) :
      LastWith (λ q, PortSpec_Port q = PortSpec_Port p) before prev →
      before !! prev = Some q →
      PortViolationAt before i p (msgPortConflict quote i (PortSpec_Port p) (PortSpec_Name q)).

Definition PortViolation (ports : list PortSpec) (m : string) : Prop :=
  ∃ i p, ports !! i = Some p ∧ PortViolationAt (take i ports) i p m.

(** The violations of the secret entry at index [i]. *)
Inductive EntryViolationAt (i : nat) (e : SecretEntry) : string → Prop :=
  | EV_name :
      SecretEntry_Name e = "" → EntryViolationAt i e (msgEntryName i)
  | EV_typeRequired :
      SecretEntry_Type e = "" → EntryViolationAt i e (msgEntryTypeRequired i)
  | EV_type :
      SecretEntry_Type e ≠ "" → SecretEntry_Type e ∉ secretTypeSet →
      EntryViolationAt i e (msgEntryType quote i (SecretEntry_Type e))
  | EV_ref :
      SecretEntry_Ref e = "" → EntryViolationAt i e (msgEntryRef i).

Definition EntryViolation (entries : list SecretEntry) (m : string) : Prop :=
  ∃ i e, entries !! i = Some e ∧ EntryViolationAt i e m.

(** The rules of section 4.2, each with the message that reports its
    violation. *)
Inductive Violation (t : Template) : string → Prop :=
  | V_apiVersion :
      Template_APIVersion t = "" → Violation t msgAPIVersion
  | V_kind :
      Template_Kind t = "" → Violation t msgKind
  | V_name :
      Metadata_Name (Template_Metadata t) = "" → Violation t msgName
  | V_role (role : string) :
      role = IdentitySpec_Role (Spec_Identity (Template_Spec t)) →
      role ≠ "" → role ∉ roleSet → Violation t (msgRole quote role)
  | V_target (target : string) :
      target = RuntimeSpec_DeploymentTarget (Spec_Runtime (Template_Spec t)) →
      target ≠ "" → target ∉ targetSet → Violation t (msgTarget quote target)
  | V_bindAddress (addr : string) :
      addr = NetworkSpec_BindAddress (Spec_Network (Template_Spec t)) →
      addr ≠ "" → ParseIP addr = false → Violation t (msgBindAddress quote addr)
  | V_port (m : string) :
      PortViolation (NetworkSpec_Ports (Spec_Network (Template_Spec t))) m → Violation t m
  | V_portsStrategy (s : string) :
      s = NetworkSpec_PortsMergeStrategy (Spec_Network (Template_Spec t)) →
      s ≠ "" → s ∉ mergeStrategySet → Violation t (msgPortsStrategy quote s)
  | V_secretsProvider (s : string) :
      s = SecretsSpec_Provider (Spec_Secrets (Template_Spec t)) →
      s ≠ "" → s ∉ secretsProviderSet → Violation t (msgSecretsProvider quote s)
  | V_entry (m : string) :
      EntryViolation (SecretsSpec_Entries (Spec_Secrets (Template_Spec t))) m → Violation t m
  | V_entriesStrategy (s : string) :
      s = SecretsSpec_EntriesMergeStrategy (Spec_Secrets (Template_Spec t)) →
      s ≠ "" → s ∉ mergeStrategySet → Violation t (msgEntriesStrategy quote s)
  | V_logLevel (s : string) :
      s = LoggingSpec_Level (ObservabilitySpec_Logging (Spec_Observability (Template_Spec t))) →
      s ≠ "" → s ∉ logLevelSet → Violation t (msgLogLevel quote s)
  | V_logFormat (s : string) :
      s = LoggingSpec_Format (ObservabilitySpec_Logging (Spec_Observability (Template_Spec t))) →
      s ≠ "" → s ∉ logFormatSet → Violation t (msgLogFormat quote s)
  | V_updateChannel (s : string) :
      s = PolicySpec_UpdateChannel (Spec_Policy (Template_Spec t)) →
      s ≠ "" → s ∉ updateChannelSet → Violation t (msgUpdateChannel quote s)
  | V_gateway :
      IdentitySpec_Role (Spec_Identity (Template_Spec t)) = RoleGateway →
      NetworkSpec_Ports (Spec_Network (Template_Spec t)) = [] →
      Violation t msgGateway.

(** The rules other than the cross-field one, as conditions on the
    template: presence, enum membership, network and secrets. *)
Definition portOk (p : PortSpec) : Prop :=
  PortSpec_Name p ≠ "" ∧ 1 ≤ PortSpec_Port p ≤ 65535
  ∧ (PortSpec_HostPort p = 0 ∨ 1 ≤ PortSpec_HostPort p ≤ 65535).

Definition entryOk (e : SecretEntry) : Prop :=
  SecretEntry_Name e ≠ "" ∧ SecretEntry_Type e ∈ secretTypeSet ∧ SecretEntry_Ref e ≠ "".

Definition unsetOrIn (s : string) (set : list string) : Prop := s = "" ∨ s ∈ set.

Definition OtherRulesHold (t : Template) : Prop :=
  let sp := Template_Spec t in
  Template_APIVersion t ≠ ""
  ∧ Template_Kind t ≠ ""
  ∧ Metadata_Name (Template_Metadata t) ≠ ""
  ∧ unsetOrIn (IdentitySpec_Role (Spec_Identity sp)) roleSet
  ∧ unsetOrIn (RuntimeSpec_DeploymentTarget (Spec_Runtime sp)) targetSet
  ∧ (NetworkSpec_BindAddress (Spec_Network sp) = ""
     ∨ ParseIP (NetworkSpec_BindAddress (Spec_Network sp)) = true)
  ∧ Forall portOk (NetworkSpec_Ports (Spec_Network sp))
  ∧ NoDup (PortSpec_Name <$> NetworkSpec_Ports (Spec_Network sp))
  ∧ NoDup (PortSpec_Port <$> NetworkSpec_Ports (Spec_Network sp))
  ∧ unsetOrIn (NetworkSpec_PortsMergeStrategy (Spec_Network sp)) mergeStrategySet
  ∧ unsetOrIn (SecretsSpec_Provider (Spec_Secrets sp)) secretsProviderSet
  ∧ Forall entryOk (SecretsSpec_Entries (Spec_Secrets sp))
  ∧ unsetOrIn (SecretsSpec_EntriesMergeStrategy (Spec_Secrets sp)) mergeStrategySet
  ∧ unsetOrIn (LoggingSpec_Level (ObservabilitySpec_Logging (Spec_Observability sp))) logLevelSet
  ∧ unsetOrIn (LoggingSpec_Format (ObservabilitySpec_Logging (Spec_Observability sp)))
      logFormatSet
  ∧ unsetOrIn (PolicySpec_UpdateChannel (Spec_Policy sp)) updateChannelSet.

End Rules.

(** *** Lookup tables and closed sets *)

Lemma table_lookup (keys : list string) (s : string) :
  default false ((list_to_map ((λ k, (k, true)) <$> keys) : gmap string bool) !! s) = true
  ↔ s ∈ keys.
Proof.
  induction keys as [|k keys IH]; simpl.
  - rewrite lookup_empty, elem_of_nil. by split.
  - rewrite lookup_insert, elem_of_cons. case_decide as Hk; simpl.
    + split; [by left; subst|done].
    + rewrite IH. split; [by right|]. intros [->|?]; [by destruct Hk|done].
Qed.

Lemma table_lookup_false (keys : list string) (s : string) :
  default false ((list_to_map ((λ k, (k, true)) <$> keys) : gmap string bool) !! s) = false
  ↔ s ∉ keys.
Proof. rewrite <- table_lookup. by destruct (default false _). Qed.

Lemma isValidRole_false (s : string) : isValidRole s = false ↔ s ∉ roleSet.
Proof. apply (table_lookup_false roleSet). Qed.

Lemma isValidTarget_false (s : string) : isValidTarget s = false ↔ s ∉ targetSet.
Proof. apply (table_lookup_false targetSet). Qed.

Lemma isValidSecretsProvider_false (s : string) :
  isValidSecretsProvider s = false ↔ s ∉ secretsProviderSet.
Proof. apply (table_lookup_false secretsProviderSet). Qed.

Lemma isValidSecretType_false (s : string) : isValidSecretType s = false ↔ s ∉ secretTypeSet.
Proof. apply (table_lookup_false secretTypeSet). Qed.

Lemma isValidMergeStrategy_false (s : string) :
  isValidMergeStrategy s = false ↔ s ∉ mergeStrategySet.
Proof. apply (table_lookup_false mergeStrategySet). Qed.

Lemma isValidLogLevel_false (s : string) : isValidLogLevel s = false ↔ s ∉ logLevelSet.
Proof. apply (table_lookup_false logLevelSet). Qed.

Lemma isValidUpdateChannel_false (s : string) :
  isValidUpdateChannel s = false ↔ s ∉ updateChannelSet.
Proof. apply (table_lookup_false updateChannelSet). Qed.

Lemma logFormat_not_in (s : string) : s ≠ "json" ∧ s ≠ "text" ↔ s ∉ logFormatSet.
Proof.
  unfold logFormatSet. rewrite !elem_of_cons, elem_of_nil. tauto.
Qed.

(** *** Accumulating errors *)

(** The messages a guarded [add] contributes. *)
Definition when (cond : Prop) `{Decision cond} (msg : string) : list string :=
  if decide cond then [msg] else [].

Lemma addIf_app (cond : Prop) `{Decision cond} (errs : list string) (msg : string) :
  addIf cond errs msg = errs ++ when cond msg.
Proof. unfold addIf, when, add. case_decide; [done|by rewrite app_nil_r]. Qed.

Lemma elem_of_when (cond : Prop) `{Decision cond} (msg m : string) :
  m ∈ when cond msg ↔ cond ∧ m = msg.
Proof.
  unfold when. case_decide.
  - rewrite list_elem_of_singleton. tauto.
  - rewrite elem_of_nil. tauto.
Qed.

(** *** The last element with a property *)

Lemma LastWith_unique {A} (P : A → Prop) (l : list A) (j1 j2 : nat) :
  LastWith P l j1 → LastWith P l j2 → j1 = j2.
Proof.
  intros [(x1 & Hx1 & HP1) Hlast1] [(x2 & Hx2 & HP2) Hlast2].
  destruct (lt_eq_lt_dec j1 j2) as [[Hlt|Heq]|Hlt]; [|done|].
  - by destruct (Hlast1 j2 x2 Hlt Hx2).
  - by destruct (Hlast2 j1 x1 Hlt Hx1).
Qed.

Lemma LastWith_snoc {A} (P : A → Prop) (l : list A) (x : A) (j : nat) :
  LastWith P (l ++ [x]) j ↔ (P x ∧ j = length l) ∨ (¬ P x ∧ LastWith P l j).
Proof.
  split.
  - intros [(y & Hy & HPy) Hlast].
    apply lookup_app_Some in Hy as [Hy|[Hlen Hy]].
    + right. assert (¬ P x) as Hx.
      { apply (Hlast (length l) x).
        - by apply lookup_lt_Some in Hy.
        - by rewrite lookup_app_r, Nat.sub_diag. }
      split; [done|]. split; [by exists y|].
      intros k z Hk Hz. apply (Hlast k z Hk). by apply lookup_app_l_Some.
    + left. apply list_lookup_singleton_Some in Hy as [Hj ->].
      split; [done|lia].
  - intros [[HPx ->]|[HPx [(y & Hy & HPy) Hlast]]].
    + split.
      * exists x. split; [|done]. by rewrite lookup_app_r, Nat.sub_diag.
      * intros k z Hk Hz. apply lookup_lt_Some in Hz.
        rewrite length_app in Hz. simpl in Hz. lia.
    + split.
      * exists y. split; [|done]. by apply lookup_app_l_Some.
      * intros k z Hk Hz. apply lookup_app_Some in Hz as [Hz|[Hlen Hz]].
        -- by apply (Hlast k z).
        -- apply list_lookup_singleton_Some in Hz as [_ <-]. done.
Qed.

Lemma LastWith_nil {A} (P : A → Prop) (j : nat) : ¬ LastWith P [] j.
Proof. by intros [(x & Hx & _) _]. Qed.

(** *** The loops of [Validate] *)

Section Refinement.

Variable ParseIP : string → bool.
Variable quote : string → string.

(** What [portNames] and [portNumbers] hold once the ports of [ports]
    have been visited: for each name the last index that carries it, for
    each number the name of the last port that carries it. *)
Definition portStateOk (ports : list PortSpec) (names : gmap string nat)
    (numbers : gmap Z string) : Prop :=
  (∀ s j, names !! s = Some j ↔ LastWith (λ q, PortSpec_Name q = s) ports j)
  ∧ (∀ n s, numbers !! n = Some s
            ↔ ∃ j q, LastWith (λ q, PortSpec_Port q = n) ports j
                     ∧ ports !! j = Some q ∧ PortSpec_Name q = s).

Lemma portStateOk_snoc (ports : list PortSpec) (p : PortSpec) (names : gmap string nat)
    (numbers : gmap Z string) :
  portStateOk ports names numbers →
  portStateOk (ports ++ [p]) (<[PortSpec_Name p := length ports]> names)
    (<[PortSpec_Port p := PortSpec_Name p]> numbers).
Proof.
  intros [Hnames Hnumbers]. split.
  - intros s j. rewrite LastWith_snoc, lookup_insert. case_decide as Hs.
    + split.
      * intros [= <-]. by left.
      * intros [[_ ->]|[Hne _]]; [done|by destruct Hne].
    + rewrite Hnames. split; [by right|]. intros [[Heq _]|[_ ?]]; [by destruct Hs|done].
  - intros n s. rewrite lookup_insert. case_decide as Hn.
    + split.
      * intros [= <-]. exists (length ports), p. split; [|split; [|done]].
        -- apply LastWith_snoc. by left.
        -- by rewrite lookup_app_r, Nat.sub_diag.
      * intros (j & q & Hlast & Hq & <-). apply LastWith_snoc in Hlast as [[_ ->]|[Hne _]].
        -- rewrite lookup_app_r, Nat.sub_diag in Hq by done. by injection Hq as <-.
        -- by destruct Hne.
    + rewrite Hnumbers. split.
      * intros (j & q & Hlast & Hq & <-). exists j, q. split; [|split; [|done]].
        -- apply LastWith_snoc. right. split; [by intros ?|done].
        -- by apply lookup_app_l_Some.
      * intros (j & q & Hlast & Hq & <-). apply LastWith_snoc in Hlast as [[Heq _]|[_ Hlast]].
        -- by destruct Hn.
        -- exists j, q. split; [done|]. split; [|done].
           destruct Hlast as [(y & Hy & _) _].
           apply lookup_app_Some in Hq as [Hq|[Hlen _]]; [done|].
           apply lookup_lt_Some in Hy. lia.
Qed.

(** One iteration over a port appends exactly its violations. *)
Lemma checkPort_spec (ports : list PortSpec) (p : PortSpec) (errs : list string)
    (names : gmap string nat) (numbers : gmap Z string) :
  portStateOk ports names numbers →
  ∃ errs',
    checkPort quote (errs, names, numbers) (length ports, p)
    = (errs ++ errs', <[PortSpec_Name p := length ports]> names,
       <[PortSpec_Port p := PortSpec_Name p]> numbers)
    ∧ ∀ m, m ∈ errs' ↔ PortViolationAt quote ports (length ports) p m.
Proof.
  intros [Hnames Hnumbers].
  exists (when (PortSpec_Name p = "") (msgPortName (length ports))
          ++ when (PortSpec_Port p ≤ 0 ∨ PortSpec_Port p > 65535)
               (msgPortRange (length ports) (PortSpec_Port p))
          ++ when (PortSpec_HostPort p ≠ 0
                   ∧ (PortSpec_HostPort p ≤ 0 ∨ PortSpec_HostPort p > 65535))
               (msgHostPortRange (length ports) (PortSpec_HostPort p))
          ++ match names !! PortSpec_Name p with
             | Some prev => [msgPortDuplicate quote (length ports) (PortSpec_Name p) prev]
             | None => []
             end
          ++ match numbers !! PortSpec_Port p with
             | Some existing =>
                 [msgPortConflict quote (length ports) (PortSpec_Port p) existing]
             | None => []
             end).
  split.
  - unfold checkPort. rewrite !addIf_app. unfold add.
    destruct (names !! PortSpec_Name p), (numbers !! PortSpec_Port p);
      by rewrite ?app_nil_r, <- ?app_assoc.
  - intros m. rewrite !elem_of_app, !elem_of_when. split.
    + intros [[? ->]|[[? ->]|[[[? ?] ->]|[Hdup|Hconf]]]].
      * by constructor.
      * constructor. lia.
      * constructor; [done|lia].
      * destruct (names !! PortSpec_Name p) as [prev|] eqn:Hprev;
          [|by apply elem_of_nil in Hdup].
        apply list_elem_of_singleton in Hdup as ->. constructor. by apply Hnames.
      * destruct (numbers !! PortSpec_Port p) as [existing|] eqn:Hex;
          [|by apply elem_of_nil in Hconf].
        apply list_elem_of_singleton in Hconf as ->.
        apply Hnumbers in Hex as (j & q & Hlast & Hq & <-). by econstructor.
    + intros [Hname|Hrange|Hne Hrange|prev Hlast|prev q Hlast Hq].
      * by left.
      * right. left. split; [lia|done].
      * right. right. left. split; [|done]. split; [done|lia].
      * right. right. right. left. apply Hnames in Hlast. rewrite Hlast.
        by apply list_elem_of_singleton.
      * right. right. right. right.
        assert (numbers !! PortSpec_Port p = Some (PortSpec_Name q)) as ->.
        { apply Hnumbers. by exists prev, q. }
        by apply list_elem_of_singleton.
Qed.

Lemma PortViolation_snoc (ports : list PortSpec) (p : PortSpec) (m : string) :
  PortViolation quote (ports ++ [p]) m
  ↔ PortViolation quote ports m ∨ PortViolationAt quote ports (length ports) p m.
Proof.
  split.
  - intros (i & q & Hq & Hv). apply lookup_app_Some in Hq as [Hq|[Hlen Hq]].
    + left. exists i, q. split; [done|].
      rewrite take_app_le in Hv; [done|]. apply lookup_lt_Some in Hq. lia.
    + right. apply list_lookup_singleton_Some in Hq as [Hi <-].
      assert (i = length ports) as -> by lia. by rewrite take_app_length in Hv.
  - intros [(i & q & Hq & Hv)|Hv].
    + exists i, q. split; [by apply lookup_app_l_Some|].
      rewrite take_app_le; [done|]. apply lookup_lt_Some in Hq. lia.
    + exists (length ports), p. split.
      * by rewrite lookup_app_r, Nat.sub_diag.
      * by rewrite take_app_length.
Qed.

(** The loop over the ports appends exactly the port violations. *)
Lemma portLoop_spec (ports : list PortSpec) (errs : list string) :
  ∃ errs' names numbers,
    foldl (checkPort quote) (errs, ∅, ∅) (imap (λ i p, (i, p)) ports)
    = (errs ++ errs', names, numbers)
    ∧ (∀ m, m ∈ errs' ↔ PortViolation quote ports m)
    ∧ portStateOk ports names numbers.
Proof.
  induction ports as [|p ports IH] using rev_ind.
  - exists [], ∅, ∅. split; [by rewrite app_nil_r|]. split.
    + intros m. rewrite elem_of_nil. split; [done|]. by intros (i & q & Hq & _).
    + split.
      * intros s j. rewrite lookup_empty. split; [done|]. intros H. by apply LastWith_nil in H.
      * intros n s. rewrite lookup_empty. split; [done|].
        intros (j & q & H & _). by apply LastWith_nil in H.
  - destruct IH as (errs1 & names & numbers & Hloop & Herrs & Hstate).
    rewrite imap_app, foldl_app, Hloop. cbn [imap foldl]. rewrite Nat.add_0_r.
    destruct (checkPort_spec ports p (errs ++ errs1) names numbers Hstate)
      as (errs2 & -> & Herrs2).
    exists (errs1 ++ errs2), (<[PortSpec_Name p := length ports]> names),
      (<[PortSpec_Port p := PortSpec_Name p]> numbers).
    split; [by rewrite app_assoc|]. split.
    + intros m. by rewrite elem_of_app, PortViolation_snoc, Herrs, Herrs2.
    + by apply portStateOk_snoc.
Qed.

(** One iteration over a secret entry appends exactly its violations. *)
Lemma checkEntry_spec (i : nat) (e : SecretEntry) (errs : list string) :
  ∃ errs',
    checkEntry quote errs (i, e) = errs ++ errs'
    ∧ ∀ m, m ∈ errs' ↔ EntryViolationAt quote i e m.
Proof.
  exists (when (SecretEntry_Name e = "") (msgEntryName i)
          ++ (if decide (SecretEntry_Type e = "") then [msgEntryTypeRequired i]
              else when (isValidSecretType (SecretEntry_Type e) = false)
                     (msgEntryType quote i (SecretEntry_Type e)))
          ++ when (SecretEntry_Ref e = "") (msgEntryRef i)).
  split.
  - unfold checkEntry. case_decide; rewrite !addIf_app; unfold add;
      by rewrite <- ?app_assoc.
  - intros m. rewrite !elem_of_app, !elem_of_when. split.
    + intros [[? ->]|[Hty|[? ->]]].
      * by constructor.
      * case_decide as Hempty.
        -- apply list_elem_of_singleton in Hty as ->. by constructor.
        -- apply elem_of_when in Hty as [Hinv ->].
           constructor; [done|]. by apply isValidSecretType_false.
      * by constructor.
    + intros [Hname|Hty|Hty Hset|Href].
      * by left.
      * right. left. rewrite decide_True by done. by apply list_elem_of_singleton.
      * right. left. rewrite decide_False by done. apply elem_of_when.
        split; [|done]. by apply isValidSecretType_false.
      * by right; right.
Qed.

Lemma EntryViolation_snoc (entries : list SecretEntry) (e : SecretEntry) (m : string) :
  EntryViolation quote (entries ++ [e]) m
  ↔ EntryViolation quote entries m ∨ EntryViolationAt quote (length entries) e m.
Proof.
  split.
  - intros (i & x & Hx & Hv). apply lookup_app_Some in Hx as [Hx|[Hlen Hx]].
    + left. by exists i, x.
    + right. apply list_lookup_singleton_Some in Hx as [Hi <-].
      by assert (i = length entries) as -> by lia.
  - intros [(i & x & Hx & Hv)|Hv].
    + exists i, x. split; [by apply lookup_app_l_Some|done].
    + exists (length entries), e. split; [|done]. by rewrite lookup_app_r, Nat.sub_diag.
Qed.

Lemma entryLoop_spec (entries : list SecretEntry) (errs : list string) :
  ∃ errs',
    foldl (checkEntry quote) errs (imap (λ i e, (i, e)) entries) = errs ++ errs'
    ∧ ∀ m, m ∈ errs' ↔ EntryViolation quote entries m.
Proof.
  induction entries as [|e entries IH] using rev_ind.
  - exists []. split; [by rewrite app_nil_r|].
    intros m. rewrite elem_of_nil. split; [done|]. by intros (i & x & Hx & _).
  - destruct IH as (errs1 & Hloop & Herrs).
    rewrite imap_app, foldl_app, Hloop. cbn [imap foldl]. rewrite Nat.add_0_r.
    destruct (checkEntry_spec (length entries) e (errs ++ errs1)) as (errs2 & -> & Herrs2).
    exists (errs1 ++ errs2). split; [by rewrite app_assoc|].
    intros m. by rewrite elem_of_app, EntryViolation_snoc, Herrs, Herrs2.
Qed.

End Refinement.

(** *** [Validate] reports exactly the violations *)

Section ValidateFacts.

Variable ParseIP : string → bool.
Variable quote : string → string.

(** The error list, section by section. *)
Lemma collectErrors_shape (t : Template) :
  ∃ portErrs entryErrs,
    collectErrors ParseIP quote t
    = when (Template_APIVersion t = "") msgAPIVersion
      ++ when (Template_Kind t = "") msgKind
      ++ when (Metadata_Name (Template_Metadata t) = "") msgName
      ++ when (IdentitySpec_Role (Spec_Identity (Template_Spec t)) ≠ ""
               ∧ isValidRole (IdentitySpec_Role (Spec_Identity (Template_Spec t))) = false)
           (msgRole quote (IdentitySpec_Role (Spec_Identity (Template_Spec t))))
      ++ when (RuntimeSpec_DeploymentTarget (Spec_Runtime (Template_Spec t)) ≠ ""
               ∧ isValidTarget (RuntimeSpec_DeploymentTarget (Spec_Runtime (Template_Spec t)))
                 = false)
           (msgTarget quote (RuntimeSpec_DeploymentTarget (Spec_Runtime (Template_Spec t))))
      ++ when (NetworkSpec_BindAddress (Spec_Network (Template_Spec t)) ≠ ""
               ∧ ParseIP (NetworkSpec_BindAddress (Spec_Network (Template_Spec t))) = false)
           (msgBindAddress quote (NetworkSpec_BindAddress (Spec_Network (Template_Spec t))))
      ++ portErrs
      ++ when (NetworkSpec_PortsMergeStrategy (Spec_Network (Template_Spec t)) ≠ ""
               ∧ isValidMergeStrategy
                   (NetworkSpec_PortsMergeStrategy (Spec_Network (Template_Spec t))) = false)
           (msgPortsStrategy quote
              (NetworkSpec_PortsMergeStrategy (Spec_Network (Template_Spec t))))
      ++ when (SecretsSpec_Provider (Spec_Secrets (Template_Spec t)) ≠ ""
               ∧ isValidSecretsProvider (SecretsSpec_Provider (Spec_Secrets (Template_Spec t)))
                 = false)
           (msgSecretsProvider quote (SecretsSpec_Provider (Spec_Secrets (Template_Spec t))))
      ++ entryErrs
      ++ when (SecretsSpec_EntriesMergeStrategy (Spec_Secrets (Template_Spec t)) ≠ ""
               ∧ isValidMergeStrategy
                   (SecretsSpec_EntriesMergeStrategy (Spec_Secrets (Template_Spec t))) = false)
           (msgEntriesStrategy quote
              (SecretsSpec_EntriesMergeStrategy (Spec_Secrets (Template_Spec t))))
      ++ when (LoggingSpec_Level
                 (ObservabilitySpec_Logging (Spec_Observability (Template_Spec t))) ≠ ""
               ∧ isValidLogLevel
                   (LoggingSpec_Level
                      (ObservabilitySpec_Logging (Spec_Observability (Template_Spec t))))
                 = false)
           (msgLogLevel quote
              (LoggingSpec_Level
                 (ObservabilitySpec_Logging (Spec_Observability (Template_Spec t)))))
      ++ when (LoggingSpec_Format
                 (ObservabilitySpec_Logging (Spec_Observability (Template_Spec t))) ≠ ""
               ∧ LoggingSpec_Format
                   (ObservabilitySpec_Logging (Spec_Observability (Template_Spec t))) ≠ "json"
               ∧ LoggingSpec_Format
                   (ObservabilitySpec_Logging (Spec_Observability (Template_Spec t))) ≠ "text")
           (msgLogFormat quote
              (LoggingSpec_Format
                 (ObservabilitySpec_Logging (Spec_Observability (Template_Spec t)))))
      ++ when (PolicySpec_UpdateChannel (Spec_Policy (Template_Spec t)) ≠ ""
               ∧ isValidUpdateChannel (PolicySpec_UpdateChannel (Spec_Policy (Template_Spec t)))
                 = false)
           (msgUpdateChannel quote (PolicySpec_UpdateChannel (Spec_Policy (Template_Spec t))))
      ++ when (IdentitySpec_Role (Spec_Identity (Template_Spec t)) = RoleGateway
               ∧ length (NetworkSpec_Ports (Spec_Network (Template_Spec t))) = 0%nat)
           msgGateway
    ∧ (∀ m, m ∈ portErrs
            ↔ PortViolation quote (NetworkSpec_Ports (Spec_Network (Template_Spec t))) m)
    ∧ (∀ m, m ∈ entryErrs
            ↔ EntryViolation quote (SecretsSpec_Entries (Spec_Secrets (Template_Spec t))) m).
Proof.
  unfold collectErrors. cbv zeta.
  match goal with
  | |- context [foldl (checkPort quote) (?E, ∅, ∅) (imap _ ?ports)] =>
      destruct (portLoop_spec quote ports E) as (portErrs & names & numbers & -> & Hports & _)
  end.
  match goal with
  | |- context [foldl (checkEntry quote) ?E (imap _ ?entries)] =>
      destruct (entryLoop_spec quote entries E) as (entryErrs & -> & Hentries)
  end.
  exists portErrs, entryErrs. split; [|done].
  rewrite !addIf_app, app_nil_l. by rewrite <- !app_assoc.
Qed.

(** The refinement: a message is in the list [Validate] builds exactly
    when it reports a violation of one of the rules. *)
Lemma collectErrors_Violation (t : Template) (m : string) :
  m ∈ collectErrors ParseIP quote t ↔ Violation ParseIP quote t m.
Proof.
  destruct (collectErrors_shape t) as (portErrs & entryErrs & -> & Hports & Hentries).
  rewrite !elem_of_app, !elem_of_when, Hports, Hentries.
  rewrite isValidRole_false, isValidTarget_false, !isValidMergeStrategy_false,
    isValidSecretsProvider_false, isValidLogLevel_false, isValidUpdateChannel_false.
  split.
  - intros [[? ->]|[[? ->]|[[? ->]|[[[? ?] ->]|[[[? ?] ->]|[[[? ?] ->]|[?|[[[? ?] ->]
      |[[[? ?] ->]|[?|[[[? ?] ->]|[[[? ?] ->]|[[[? ?] ->]|[[[? ?] ->]|[[? Hlen] ->]]]]]]]]]]]]]]].
    + by apply V_apiVersion.
    + by apply V_kind.
    + by apply V_name.
    + by apply V_role.
    + by apply V_target.
    + by apply V_bindAddress.
    + by apply V_port.
    + by apply V_portsStrategy.
    + by apply V_secretsProvider.
    + by apply V_entry.
    + by apply V_entriesStrategy.
    + by apply V_logLevel.
    + apply V_logFormat; [done|done|]. by apply logFormat_not_in.
    + by apply V_updateChannel.
    + apply V_gateway; [done|]. by apply nil_length_inv.
  - intros [?|?|?|role -> ? ?|target -> ? ?|addr -> ? ?|m' ?|s -> ? ?|s -> ? ?|m' ?
            |s -> ? ?|s -> ? ?|s -> ? Hfmt|s -> ? ?|? Hports'].
    + by left.
    + by right; left.
    + by right; right; left.
    + by right; right; right; left.
    + by right; right; right; right; left.
    + by right; right; right; right; right; left.
    + by right; right; right; right; right; right; left.
    + by right; right; right; right; right; right; right; left.
    + by right; right; right; right; right; right; right; right; left.
    + by right; right; right; right; right; right; right; right; right; left.
    + by right; right; right; right; right; right; right; right; right; right; left.
    + by right; right; right; right; right; right; right; right; right; right; right; left.
    + apply logFormat_not_in in Hfmt.
      by right; right; right; right; right; right; right; right; right; right; right; right;
        left.
    + by right; right; right; right; right; right; right; right; right; right; right; right;
        right; left.
    + rewrite Hports'.
      by right; right; right; right; right; right; right; right; right; right; right; right;
        right; right.
Qed.

Lemma Validate_None (t : Template) :
  Validate ParseIP quote t = None ↔ collectErrors ParseIP quote t = [].
Proof.
  unfold Validate. destruct (collectErrors ParseIP quote t) as [|m errs]; cbv zeta.
  - by rewrite decide_False by (simpl; lia).
  - rewrite decide_True by (simpl; lia). by split.
Qed.

Lemma Validate_Some (t : Template) (e : ValidationError) :
  Validate ParseIP quote t = Some e → Errors e = collectErrors ParseIP quote t.
Proof. unfold Validate. case_decide; [|done]. by intros [= <-]. Qed.

Lemma Validate_Some_of_elem (t : Template) (m : string) :
  m ∈ collectErrors ParseIP quote t →
  Validate ParseIP quote t = Some {| Errors := collectErrors ParseIP quote t |}.
Proof.
  intros Hm. unfold Validate. rewrite decide_True; [done|].
  destruct (collectErrors ParseIP quote t); [by apply elem_of_nil in Hm|simpl; lia].
Qed.

Lemma Validate_None_Violation (t : Template) :
  Validate ParseIP quote t = None ↔ ∀ m, ¬ Violation ParseIP quote t m.
Proof.
  rewrite Validate_None. split.
  - intros Hnil m Hv. apply collectErrors_Violation in Hv. rewrite Hnil in Hv.
    by apply elem_of_nil in Hv.
  - intros Hno. destruct (collectErrors ParseIP quote t) as [|m errs] eqn:Herrs; [done|].
    destruct (Hno m). apply collectErrors_Violation. rewrite Herrs. by left.
Qed.

End ValidateFacts.

(** *** Substrings of the error text *)

Lemma append_cons (c : Ascii.ascii) (s t : string) : String c s +:+ t = String c (s +:+ t).
Proof. reflexivity. Qed.

Lemma append_nil_r (s : string) : s +:+ "" = s.
Proof. induction s as [|c s IH]; [reflexivity|]. by rewrite append_cons, IH. Qed.

Lemma append_assoc (s t u : string) : (s +:+ t) +:+ u = s +:+ (t +:+ u).
Proof. induction s as [|c s IH]; [reflexivity|]. by rewrite !append_cons, IH. Qed.

Lemma HasPrefix_append (prefix rest : string) : HasPrefix (prefix +:+ rest) prefix = true.
Proof.
  induction prefix as [|c prefix IH]; [reflexivity|].
  rewrite append_cons. simpl. by rewrite bool_decide_eq_true_2, IH.
Qed.

Lemma Contains_append (before substr after : string) :
  Contains (before +:+ substr +:+ after) substr = true.
Proof.
  induction before as [|c before IH].
  - change ("" +:+ substr +:+ after) with (substr +:+ after).
    destruct (substr +:+ after) eqn:Heq; simpl; rewrite <- Heq, HasPrefix_append; done.
  - rewrite append_cons. simpl. rewrite IH. by rewrite orb_true_r.
Qed.

Lemma Join_elem (elems : list string) (sep m : string) :
  m ∈ elems → ∃ before after, Join elems sep = before +:+ m +:+ after.
Proof.
  induction elems as [|e rest IH]; intros Hm; [by apply elem_of_nil in Hm|].
  apply elem_of_cons in Hm as [->|Hm].
  - destruct rest as [|e' rest].
    + exists "", "". by rewrite append_nil_r.
    + exists "", (sep +:+ Join (e' :: rest) sep). done.
  - destruct (IH Hm) as (before & after & Heq).
    destruct rest as [|e' rest]; [by apply elem_of_nil in Hm|].
    exists (e +:+ sep +:+ before), after.
    change (Join (e :: e' :: rest) sep) with (e +:+ sep +:+ Join (e' :: rest) sep).
    by rewrite Heq, !append_assoc.
Qed.

(** The text of a validation error contains every substring of each of
    its messages. *)
Lemma Error_Contains (e : ValidationError) (m substr before after : string) :
  m ∈ Errors e → m = before +:+ substr +:+ after → Contains (Error e) substr = true.
Proof.
  intros Hm ->. destruct (Join_elem (Errors e) (LF +:+ "  - ") _ Hm) as (b & a & Heq).
  unfold Error. rewrite Heq.
  rewrite <- !append_assoc.
  rewrite (append_assoc _ after a), (append_assoc _ substr _). apply Contains_append.
Qed.

(** *** Templates that satisfy the rules *)

Global Instance portOk_dec (p : PortSpec) : Decision (portOk p).
Proof. unfold portOk. apply _. Defined.

Global Instance entryOk_dec (e : SecretEntry) : Decision (entryOk e).
Proof. unfold entryOk. apply _. Defined.

Global Instance unsetOrIn_dec (s : string) (set : list string) : Decision (unsetOrIn s set).
Proof. unfold unsetOrIn. apply _. Defined.

Global Instance OtherRulesHold_dec (ParseIP : string → bool) (t : Template) :
  Decision (OtherRulesHold ParseIP t).
Proof. unfold OtherRulesHold. apply _. Defined.

Section RulesFacts.

Variable ParseIP : string → bool.
Variable quote : string → string.

Lemma ports_without_violation (ports : list PortSpec) (m : string) :
  Forall portOk ports →
  NoDup (PortSpec_Name <$> ports) →
  NoDup (PortSpec_Port <$> ports) →
  ¬ PortViolation quote ports m.
Proof.
  intros Hok Hnames Hnumbers (i & p & Hp & Hv).
  pose proof (Forall_lookup_1 _ _ _ _ Hok Hp) as (Hname & Hrange & Hhost).
  destruct Hv as [Hempty|Hout|Hne Hout|prev [(q & Hq & Heq) _]|prev q' [(q & Hq & Heq) _] _].
  - done.
  - done.
  - destruct Hhost; [done|lia].
  - apply lookup_take_Some in Hq as [Hq Hlt].
    assert (prev = i); [|lia].
    apply (NoDup_lookup (PortSpec_Name <$> ports) prev i (PortSpec_Name p)); [done|..].
    + by rewrite list_lookup_fmap, Hq, <- Heq.
    + by rewrite list_lookup_fmap, Hp.
  - apply lookup_take_Some in Hq as [Hq Hlt].
    assert (prev = i); [|lia].
    apply (NoDup_lookup (PortSpec_Port <$> ports) prev i (PortSpec_Port p)); [done|..].
    + by rewrite list_lookup_fmap, Hq, <- Heq.
    + by rewrite list_lookup_fmap, Hp.
Qed.

Lemma entries_without_violation (entries : list SecretEntry) (m : string) :
  Forall entryOk entries → ¬ EntryViolation quote entries m.
Proof.
  intros Hok (i & e & He & Hv).
  pose proof (Forall_lookup_1 _ _ _ _ Hok He) as (Hname & Hty & Href).
  destruct Hv as [?|Hempty|? ?|?]; try done.
  rewrite Hempty in Hty. unfold secretTypeSet in Hty.
  by repeat (apply elem_of_cons in Hty as [?|Hty]; [done|]); apply elem_of_nil in Hty.
Qed.

(** A template that satisfies every rule has no violation. *)
Lemma rules_without_violation (t : Template) (m : string) :
  OtherRulesHold ParseIP t →
  (IdentitySpec_Role (Spec_Identity (Template_Spec t)) = RoleGateway →
   NetworkSpec_Ports (Spec_Network (Template_Spec t)) ≠ []) →
  ¬ Violation ParseIP quote t m.
Proof.
  intros (Hapi & Hkind & Hname & Hrole & Htarget & Hbind & Hports & Hnames & Hnumbers
          & Hpstrat & Hprov & Hentries & Hestrat & Hlevel & Hformat & Hchannel) Hgw Hv.
  unfold unsetOrIn in *.
  destruct Hv as [?|?|?|role -> ? ?|target -> ? ?|addr -> ? Hip|m Hp|s -> ? ?|s -> ? ?|m He
                  |s -> ? ?|s -> ? ?|s -> ? ?|s -> ? ?|Hg Hnil];
    try done; try (by destruct_or!).
  - destruct Hbind as [?|Hok]; [done|congruence].
  - eapply ports_without_violation; eauto.
  - eapply entries_without_violation; eauto.
  - by apply Hgw.
Qed.

End RulesFacts.

(** *** The last earlier element, and lists without repetition *)

Lemma LastWith_exists {A} (P : A → Prop) `{∀ x, Decision (P x)} (l : list A) :
  (∃ j x, l !! j = Some x ∧ P x) → ∃ j, LastWith P l j.
Proof.
  induction l as [|x l IH] using rev_ind; intros (j & y & Hy & HPy); [done|].
  destruct (decide (P x)) as [HPx|HPx].
  - exists (length l). apply LastWith_snoc. by left.
  - apply lookup_app_Some in Hy as [Hy|[_ Hy]].
    + destruct IH as [j' Hj']; [by exists j, y|].
      exists j'. apply LastWith_snoc. by right.
    + apply list_lookup_singleton_Some in Hy as [_ <-]. done.
Qed.

(** A list whose elements never repeat the key of an earlier element has
    pairwise distinct keys. *)
Lemma NoDup_keys_of_no_earlier {A K} `{EqDecision K} (key : A → K) (l : list A) :
  (∀ i x prev, l !! i = Some x → ¬ LastWith (λ y, key y = key x) (take i l) prev) →
  NoDup (key <$> l).
Proof.
  induction l as [|x l IH] using rev_ind; intros Hno; [constructor|].
  rewrite fmap_app. apply NoDup_app. split; [|split].
  - apply IH. intros i y prev Hy Hlast. apply (Hno i y prev).
    + by apply lookup_app_l_Some.
    + rewrite take_app_le; [done|]. apply lookup_lt_Some in Hy. lia.
  - intros k Hk Hx. apply list_elem_of_singleton in Hx as ->.
    apply list_elem_of_fmap in Hk as (y & Heq & Hy).
    apply list_elem_of_lookup in Hy as [j Hj].
    destruct (LastWith_exists (λ y, key y = key x) l) as [prev Hprev]; [by exists j, y|].
    apply (Hno (length l) x prev).
    + by rewrite lookup_app_r, Nat.sub_diag.
    + by rewrite take_app_length.
  - apply NoDup_singleton.
Qed.

Section Validity.

Variable ParseIP : string → bool.
Variable quote : string → string.

(** A template without violation satisfies every rule. *)
Lemma no_violation_rules (t : Template) :
  (∀ m, ¬ Violation ParseIP quote t m) →
  OtherRulesHold ParseIP t
  ∧ (IdentitySpec_Role (Spec_Identity (Template_Spec t)) = RoleGateway →
     NetworkSpec_Ports (Spec_Network (Template_Spec t)) ≠ []).
Proof.
  intros Hno.
  assert (∀ s set msg,
            (s ≠ "" → s ∉ set → Violation ParseIP quote t msg) → unsetOrIn s set) as Henum.
  { intros s set msg Hv. destruct (decide (s = "")) as [?|Hs]; [by left|].
    destruct (decide (s ∈ set)) as [?|Hin]; [by right|]. by destruct (Hno msg); apply Hv. }
  split; [|intros Hgw Hnil; by apply (Hno msgGateway), V_gateway].
  unfold OtherRulesHold. cbv zeta.
  split; [intros Heq; by apply (Hno msgAPIVersion), V_apiVersion|].
  split; [intros Heq; by apply (Hno msgKind), V_kind|].
  split; [intros Heq; by apply (Hno msgName), V_name|].
  split; [eapply Henum; intros; by eapply V_role|].
  split; [eapply Henum; intros; by eapply V_target|].
  split.
  { destruct (decide (NetworkSpec_BindAddress (Spec_Network (Template_Spec t)) = ""))
      as [?|Hne]; [by left|]. right.
    destruct (ParseIP _) eqn:Hip; [done|].
    destruct (Hno (msgBindAddress quote
                     (NetworkSpec_BindAddress (Spec_Network (Template_Spec t))))).
    by eapply V_bindAddress. }
  split.
  { apply Forall_lookup. intros i p Hp.
    assert (∀ m, ¬ PortViolationAt quote
                     (take i (NetworkSpec_Ports (Spec_Network (Template_Spec t)))) i p m)
      as Hat.
    { intros m Hv. apply (Hno m), V_port. by exists i, p. }
    split; [intros Heq; by apply (Hat (msgPortName i)), PV_name|].
    split.
    - destruct (decide (1 ≤ PortSpec_Port p ≤ 65535)) as [?|Hout]; [done|].
      by destruct (Hat (msgPortRange i (PortSpec_Port p))); apply PV_range.
    - destruct (decide (PortSpec_HostPort p = 0)) as [?|Hne]; [by left|]. right.
      destruct (decide (1 ≤ PortSpec_HostPort p ≤ 65535)) as [?|Hout]; [done|].
      by destruct (Hat (msgHostPortRange i (PortSpec_HostPort p))); apply PV_hostRange. }
  split.
  { apply NoDup_keys_of_no_earlier. intros i p prev Hp Hlast.
    apply (Hno (msgPortDuplicate quote i (PortSpec_Name p) prev)), V_port.
    exists i, p. split; [done|]. by apply PV_duplicate. }
  split.
  { apply NoDup_keys_of_no_earlier. intros i p prev Hp Hlast.
    pose proof Hlast as [(q & Hq & _) _].
    apply (Hno (msgPortConflict quote i (PortSpec_Port p) (PortSpec_Name q))), V_port.
    exists i, p. split; [done|]. by eapply PV_conflict. }
  split; [eapply Henum; intros; by eapply V_portsStrategy|].
  split; [eapply Henum; intros; by eapply V_secretsProvider|].
  split.
  { apply Forall_lookup. intros i e He.
    assert (∀ m, ¬ EntryViolationAt quote i e m) as Hat.
    { intros m Hv. apply (Hno m), V_entry. by exists i, e. }
    split; [intros Heq; by apply (Hat (msgEntryName i)), EV_name|].
    split.
    - destruct (decide (SecretEntry_Type e = "")) as [Hempty|Hty].
      + by destruct (Hat (msgEntryTypeRequired i)); apply EV_typeRequired.
      + destruct (decide (SecretEntry_Type e ∈ secretTypeSet)) as [?|Hout]; [done|].
        by destruct (Hat (msgEntryType quote i (SecretEntry_Type e))); apply EV_type.
    - intros Heq. by apply (Hat (msgEntryRef i)), EV_ref. }
  split; [eapply Henum; intros; by eapply V_entriesStrategy|].
  split; [eapply Henum; intros; by eapply V_logLevel|].
  split; [eapply Henum; intros; by eapply V_logFormat|].
  eapply Henum; intros; by eapply V_updateChannel.
Qed.

End Validity.

(** *** What [Validate] guarantees *)

(** X1. [Validate] returns nil exactly on the templates that satisfy the
    rules: the three required fields are set, every enum field is unset or
    in its closed set, the bind address is unset or parses, every port has
    a name, a number in 1..65535 and a host port that is 0 or in range,
    port names and port numbers are pairwise distinct, every secret entry
    has a name, a known type and a reference, and a gateway has a port. *)
Theorem Validate_accepts_exactly_rule_abiding (ParseIP : string → bool)
    (quote : string → string) (t : Template) :
  Validate ParseIP quote t = None
  ↔ OtherRulesHold ParseIP t
    ∧ (IdentitySpec_Role (Spec_Identity (Template_Spec t)) = RoleGateway →
       NetworkSpec_Ports (Spec_Network (Template_Spec t)) ≠ []).
Proof.
  rewrite Validate_None_Violation. split.
  - apply no_violation_rules.
  - intros [Hrules Hgw] m. by apply rules_without_violation.
Qed.

(** The templates of the validator's tests: a gateway with two ports, and
    the same gateway without ports. *)
Definition gatewayTemplate (ports : list PortSpec) : Template :=
  {| Template_APIVersion := APIVersion; Template_Kind := KindEncodingTemplate;
     Template_Metadata :=
       {| Metadata_Name := "test"; Metadata_Version := ""; Metadata_Description := "";
          Metadata_Labels := None |};
     Template_Spec :=
       {| Spec_Identity := Build_IdentitySpec "gw-1" RoleGateway "us-east-1" None [];
          Spec_Runtime := Build_RuntimeSpec TargetPodman zeroResourceSpec zeroImageSpec;
          Spec_Network :=
            {| NetworkSpec_Ports := ports; NetworkSpec_BindAddress := "0.0.0.0";
               NetworkSpec_ReverseProxy := None; NetworkSpec_Tailscale := None;
               NetworkSpec_MultiGateway := None; NetworkSpec_PortsMergeStrategy := "" |};
          Spec_Secrets :=
            Build_SecretsSpec "builtin" [Build_SecretEntry "api-key" "api_key" "builtin://api-key"]
              "";
          Spec_Observability :=
            Build_ObservabilitySpec (Build_LoggingSpec [] [] "info" "json") zeroMetricsSpec
              zeroTracesSpec zeroHealthCheckSpec;
          Spec_Policy := Build_PolicySpec "stable" "" [] [] [] [] |} |}.

(** An address check for the examples: it only knows the wildcard
    address. *)
Definition onlyWildcard (s : string) : bool := bool_decide (s = "0.0.0.0").

(** C5. The cross-field rule: a template whose role is gateway is
    refused when it has no port, with an error that holds the gateway
    message and whose text mentions that the gateway role requires a
    port, and is accepted when it has a port and satisfies the other
    rules. *)
Theorem gateway_role_requires_port (ParseIP : string → bool) (quote : string → string)
    (t : Template) :
  IdentitySpec_Role (Spec_Identity (Template_Spec t)) = RoleGateway →
  (NetworkSpec_Ports (Spec_Network (Template_Spec t)) = [] →
   ∃ e, Validate ParseIP quote t = Some e
        ∧ msgGateway ∈ Errors e
        ∧ Contains (Error e) "gateway role requires" = true)
  ∧ (NetworkSpec_Ports (Spec_Network (Template_Spec t)) ≠ [] →
     OtherRulesHold ParseIP t →
     Validate ParseIP quote t = None).
Proof.
  intros Hrole. split.
  - intros Hnil.
    assert (msgGateway ∈ collectErrors ParseIP quote t) as Hin.
    { apply collectErrors_Violation. by apply V_gateway. }
    eexists. split; [by eapply Validate_Some_of_elem|]. split; [done|].
    by apply (Error_Contains _ msgGateway _ "" " at least one network port").
  - intros Hports Hrules. apply Validate_None_Violation. intros m.
    by apply rules_without_violation.
Qed.

Lemma gateway_role_requires_port_witness :
  (∃ e, Validate onlyWildcard quotePlain (gatewayTemplate []) = Some e
        ∧ Contains (Error e) "gateway role requires" = true)
  ∧ Validate onlyWildcard quotePlain (gatewayTemplate [port "https" 443; port "http" 8080])
    = None.
Proof.
  split.
  - destruct (proj1 (gateway_role_requires_port onlyWildcard quotePlain (gatewayTemplate [])
                       eq_refl) eq_refl) as (e & He & _ & Hc).
    by exists e.
  - apply (proj2 (gateway_role_requires_port onlyWildcard quotePlain
                    (gatewayTemplate [port "https" 443; port "http" 8080]) eq_refl)).
    + discriminate.
    + apply (bool_decide_unpack _). by vm_compute.
Defined.

(** Violations are aggregated: a template without apiVersion and kind
    and with an unrecognized role is refused with one error that lists
    at least three messages, the apiVersion one first, the kind one
    second, and the role one among them; validation does not stop at the
    first problem. *)
Lemma missing_fields_reported_together (ParseIP : string → bool) (quote : string → string)
    (t : Template) :
  Template_APIVersion t = "" →
  Template_Kind t = "" →
  IdentitySpec_Role (Spec_Identity (Template_Spec t)) ≠ "" →
  IdentitySpec_Role (Spec_Identity (Template_Spec t)) ∉ roleSet →
  ∃ e,
    Validate ParseIP quote t = Some e
    ∧ (3 ≤ length (Errors e))%nat
    ∧ Errors e !! 0%nat = Some msgAPIVersion
    ∧ Errors e !! 1%nat = Some msgKind
    ∧ msgRole quote (IdentitySpec_Role (Spec_Identity (Template_Spec t))) ∈ Errors e.
Proof.
  intros Hapi Hkind Hrole Hset.
  assert (msgAPIVersion ∈ collectErrors ParseIP quote t) as Hin.
  { apply collectErrors_Violation. by apply V_apiVersion. }
  exists {| Errors := collectErrors ParseIP quote t |}.
  split; [by eapply Validate_Some_of_elem|]. cbn [Errors].
  assert (msgRole quote (IdentitySpec_Role (Spec_Identity (Template_Spec t)))
          ∈ collectErrors ParseIP quote t) as Hr.
  { apply collectErrors_Violation. by apply V_role. }
  split; [|split; [|split; [|done]]].
  - destruct (collectErrors_shape ParseIP quote t) as (pe & ee & -> & _).
    unfold when at 1 2 4. rewrite !decide_True; [|by rewrite isValidRole_false|done|done].
    rewrite !length_app. simpl. lia.
  - destruct (collectErrors_shape ParseIP quote t) as (pe & ee & -> & _).
    unfold when at 1. by rewrite decide_True.
  - destruct (collectErrors_shape ParseIP quote t) as (pe & ee & -> & _).
    unfold when at 1 2. by rewrite !decide_True.
Qed.

(** A template without apiVersion and kind whose role is not a role. *)
Definition headlessTemplate : Template :=
  {| Template_APIVersion := ""; Template_Kind := ""; Template_Metadata := zeroMetadata;
     Template_Spec :=
       {| Spec_Identity := Build_IdentitySpec "" "not-a-role" "" None [];
          Spec_Runtime := zeroRuntimeSpec; Spec_Network := zeroNetworkSpec;
          Spec_Secrets := zeroSecretsSpec; Spec_Observability := zeroObservabilitySpec;
          Spec_Policy := zeroPolicySpec |} |}.

(** C4. [Validate] never fails fast. It returns nil exactly when the
    template violates no rule, and otherwise one error whose list is not
    empty and holds a message if and only if that message reports a
    violation of a rule (presence, enum membership, network, secrets,
    cross-field), every port and every secret entry included. In
    particular a template without apiVersion, without kind and with an
    unrecognized role is refused with an error that lists at least three
    messages, among them one that names apiVersion, one that names kind
    and one that names the role. *)
Theorem Validate_never_fails_fast (ParseIP : string → bool) (quote : string → string)
    (t : Template) :
  (Validate ParseIP quote t = None ↔ ∀ m, ¬ Violation ParseIP quote t m)
  ∧ (∀ e, Validate ParseIP quote t = Some e →
          Errors e ≠ [] ∧ ∀ m, m ∈ Errors e ↔ Violation ParseIP quote t m)
  ∧ (Template_APIVersion t = "" →
     Template_Kind t = "" →
     IdentitySpec_Role (Spec_Identity (Template_Spec t)) ≠ "" →
     IdentitySpec_Role (Spec_Identity (Template_Spec t)) ∉ roleSet →
     ∃ e,
       Validate ParseIP quote t = Some e
       ∧ (3 ≤ length (Errors e))%nat
       ∧ msgAPIVersion ∈ Errors e
       ∧ msgKind ∈ Errors e
       ∧ msgRole quote (IdentitySpec_Role (Spec_Identity (Template_Spec t))) ∈ Errors e
       ∧ Contains msgAPIVersion "apiVersion" = true
       ∧ Contains msgKind "kind" = true
       ∧ Contains (msgRole quote (IdentitySpec_Role (Spec_Identity (Template_Spec t))))
           "identity.role" = true).
Proof.
  split; [apply Validate_None_Violation|]. split.
  - intros e He. pose proof (Validate_Some _ _ _ _ He) as Herrs. split.
    + intros Hnil. rewrite Herrs in Hnil. apply Validate_None in Hnil. congruence.
    + intros m. rewrite Herrs. apply collectErrors_Violation.
  - intros Hapi Hkind Hrole Hset.
    destruct (missing_fields_reported_together ParseIP quote t Hapi Hkind Hrole Hset)
      as (e & He & Hlen & H0 & H1 & Hr).
    exists e. split; [done|]. split; [done|].
    split; [by eapply list_elem_of_lookup_2|]. split; [by eapply list_elem_of_lookup_2|].
    split; [done|]. split; [by vm_compute|]. split; [by vm_compute|].
    apply (Contains_append "" "identity.role").
Qed.

Lemma Validate_never_fails_fast_witness :
  ∃ e,
    Validate onlyWildcard quotePlain headlessTemplate = Some e
    ∧ (3 ≤ length (Errors e))%nat
    ∧ msgAPIVersion ∈ Errors e
    ∧ msgKind ∈ Errors e
    ∧ msgRole quotePlain "not-a-role" ∈ Errors e.
Proof.
  destruct (proj2 (proj2 (Validate_never_fails_fast onlyWildcard quotePlain headlessTemplate))
              eq_refl eq_refl) as (e & He & Hlen & Hapi & Hkind & Hrole & _).
  - discriminate.
  - apply (bool_decide_unpack _). by vm_compute.
  - exists e. by repeat split.
Defined.

(** X2. The text of a validation error starts with the number of messages
    and contains every message of the list. *)
Theorem Error_lists_every_message (e : ValidationError) (m : string) :
  m ∈ Errors e →
  Contains (Error e) m = true
  ∧ HasPrefix (Error e)
      ("template validation failed (" +:+ pretty (length (Errors e)) +:+ " errors):")
    = true.
Proof.
  intros Hm. split.
  - apply (Error_Contains e m m "" ""); [done|]. by rewrite append_nil_r.
  - unfold Error. rewrite <- !append_assoc.
    rewrite (append_assoc _ "  - "), (append_assoc _ LF). apply HasPrefix_append.
Qed.

Lemma Error_lists_every_message_witness :
  Contains (Error {| Errors := [msgKind; msgGateway] |}) msgGateway = true.
Proof.
  apply (Error_lists_every_message {| Errors := [msgKind; msgGateway] |} msgGateway).
  apply elem_of_cons. right. apply elem_of_cons. by left.
Defined.

(** ** Layers, field by field *)

(** What [mergeIdentity] and [mergeSpec] leave in the fields that do not
    live in the heap. *)
Lemma mergeIdentity_fields (dst src : IdentitySpec) (h : Heap) :
  mergeIdentity dst src h
  = ({| IdentitySpec_InstanceName :=
          setIfNonEmpty (IdentitySpec_InstanceName dst) (IdentitySpec_InstanceName src);
        IdentitySpec_Role := setIfNonEmpty (IdentitySpec_Role dst) (IdentitySpec_Role src);
        IdentitySpec_Region := setIfNonEmpty (IdentitySpec_Region dst) (IdentitySpec_Region src);
        IdentitySpec_Labels :=
          (mergeMaps (IdentitySpec_Labels dst) (IdentitySpec_Labels src) h).1;
        IdentitySpec_TailnetTags :=
          if decide (0 < length (IdentitySpec_TailnetTags src))%nat
          then IdentitySpec_TailnetTags src else IdentitySpec_TailnetTags dst |},
     (mergeMaps (IdentitySpec_Labels dst) (IdentitySpec_Labels src) h).2).
Proof.
  unfold mergeIdentity, bind, ret.
  by destruct (mergeMaps (IdentitySpec_Labels dst) (IdentitySpec_Labels src) h).
Qed.

Lemma mergeSpec_fields (dst src : Spec) (h : Heap) :
  mergeSpec dst src h
  = ({| Spec_Identity := (mergeIdentity (Spec_Identity dst) (Spec_Identity src) h).1;
        Spec_Runtime := mergeRuntime (Spec_Runtime dst) (Spec_Runtime src);
        Spec_Network :=
          (mergeNetwork (Spec_Network dst) (Spec_Network src)
             (mergeIdentity (Spec_Identity dst) (Spec_Identity src) h).2).1;
        Spec_Secrets := mergeSecrets (Spec_Secrets dst) (Spec_Secrets src);
        Spec_Observability :=
          mergeObservability (Spec_Observability dst) (Spec_Observability src);
        Spec_Policy := mergePolicy (Spec_Policy dst) (Spec_Policy src) |},
     (mergeNetwork (Spec_Network dst) (Spec_Network src)
        (mergeIdentity (Spec_Identity dst) (Spec_Identity src) h).2).2).
Proof.
  unfold mergeSpec, bind, ret.
  destruct (mergeIdentity (Spec_Identity dst) (Spec_Identity src) h) as [id h1]. simpl.
  by destruct (mergeNetwork (Spec_Network dst) (Spec_Network src) h1).
Qed.

Lemma mergeMetadataLabels_fields (dst src : Template) (h : Heap) :
  Template_Spec (mergeMetadataLabels dst src h).1 = Template_Spec dst
  ∧ Metadata_Name (Template_Metadata (mergeMetadataLabels dst src h).1)
    = Metadata_Name (Template_Metadata dst)
  ∧ Metadata_Version (Template_Metadata (mergeMetadataLabels dst src h).1)
    = Metadata_Version (Template_Metadata dst)
  ∧ Metadata_Description (Template_Metadata (mergeMetadataLabels dst src h).1)
    = Metadata_Description (Template_Metadata dst).
Proof.
  unfold mergeMetadataLabels. case_decide; [done|].
  unfold bind, ret. by destruct (Metadata_Labels (Template_Metadata dst)).
Qed.

(** The layers that are not nil. *)
Definition presentLayers (layers : list (option Template)) : list Template := omap id layers.

(** A field of the spec that each merge step combines by [g] ends up as
    the fold of [g] over the layers, in call order. *)
Lemma applyLayers_fold {A} (f : Spec → A) (g : A → A → A) :
  (∀ dst src h, f (mergeSpec dst src h).1 = g (f dst) (f src)) →
  ∀ layers result h,
    f (Template_Spec (applyLayers result layers h).1)
    = foldl g (f (Template_Spec result)) (f ∘ Template_Spec <$> presentLayers layers).
Proof.
  intros Hstep. induction layers as [|layer rest IH]; intros result h; [done|].
  cbn [applyLayers]. unfold bind.
  destruct (applyLayer result layer h) as [result' h'] eqn:Hl. rewrite IH.
  destruct layer as [l|]; cbn.
  - f_equal. unfold applyLayer, bind in Hl.
    pose proof (Hstep (Template_Spec result) (Template_Spec l) h) as Hs.
    destruct (mergeSpec (Template_Spec result) (Template_Spec l) h) as [spec h1].
    pose proof (mergeMetadataLabels_fields
                  {| Template_APIVersion := Template_APIVersion result;
                     Template_Kind := Template_Kind result;
                     Template_Metadata := Template_Metadata result;
                     Template_Spec := spec |} l h1) as [Hspec _].
    rewrite Hl in Hspec. cbn in Hspec, Hs. by rewrite Hspec, Hs.
  - by injection Hl as <- <-.
Qed.

(** The fields of the copy that do not live in the heap are those of the
    original. *)
Lemma deepCopy_fields (t : Template) (h : Heap) :
  ∃ copy h' mdLabels idLabels tailscale,
    deepCopy t h = Ok (copy, h')
    ∧ copy
      = {| Template_APIVersion := Template_APIVersion t;
           Template_Kind := Template_Kind t;
           Template_Metadata :=
             {| Metadata_Name := Metadata_Name (Template_Metadata t);
                Metadata_Version := Metadata_Version (Template_Metadata t);
                Metadata_Description := Metadata_Description (Template_Metadata t);
                Metadata_Labels := mdLabels |};
           Template_Spec :=
             {| Spec_Identity :=
                  {| IdentitySpec_InstanceName :=
                       IdentitySpec_InstanceName (Spec_Identity (Template_Spec t));
                     IdentitySpec_Role := IdentitySpec_Role (Spec_Identity (Template_Spec t));
                     IdentitySpec_Region :=
                       IdentitySpec_Region (Spec_Identity (Template_Spec t));
                     IdentitySpec_Labels := idLabels;
                     IdentitySpec_TailnetTags :=
                       IdentitySpec_TailnetTags (Spec_Identity (Template_Spec t)) |};
                Spec_Runtime := Spec_Runtime (Template_Spec t);
                Spec_Network :=
                  {| NetworkSpec_Ports := NetworkSpec_Ports (Spec_Network (Template_Spec t));
                     NetworkSpec_BindAddress :=
                       NetworkSpec_BindAddress (Spec_Network (Template_Spec t));
                     NetworkSpec_ReverseProxy :=
                       NetworkSpec_ReverseProxy (Spec_Network (Template_Spec t));
                     NetworkSpec_Tailscale := tailscale;
                     NetworkSpec_MultiGateway :=
                       NetworkSpec_MultiGateway (Spec_Network (Template_Spec t));
                     NetworkSpec_PortsMergeStrategy :=
                       NetworkSpec_PortsMergeStrategy (Spec_Network (Template_Spec t)) |};
                Spec_Secrets := Spec_Secrets (Template_Spec t);
                Spec_Observability := Spec_Observability (Template_Spec t);
                Spec_Policy := Spec_Policy (Template_Spec t) |} |}.
Proof.
  unfold deepCopy, bind, ret.
  destruct (copyMap (Metadata_Labels (Template_Metadata t)) h) as [mdLabels h1].
  destruct (copyMap (IdentitySpec_Labels (Spec_Identity (Template_Spec t))) h1)
    as [idLabels h2].
  destruct (NetworkSpec_Tailscale (Spec_Network (Template_Spec t))) as [ts|].
  - destruct (copyMap (TailscaleSpec_ACLMapping ts) h2) as [acl h3]. by eexists _, _, _, _, _.
  - by eexists _, _, _, _, _.
Qed.

(** A field that the copy keeps and that each merge step combines by [g]
    is, in the resolved template, the fold of [g] over base and layers. *)
Lemma Resolve_fold {A} (f : Spec → A) (g : A → A → A) :
  (∀ dst src h, f (mergeSpec dst src h).1 = g (f dst) (f src)) →
  (∀ t h copy h', deepCopy t h = Ok (copy, h') → f (Template_Spec copy) = f (Template_Spec t)) →
  ∀ base layers h,
    ∃ r h',
      Resolve (Some base) layers h = Ok (r, h')
      ∧ f (Template_Spec r)
        = foldl g (f (Template_Spec base)) (f ∘ Template_Spec <$> presentLayers layers).
Proof.
  intros Hstep Hcopy base layers h. unfold Resolve.
  destruct (deepCopy_total base h) as (copy & h1 & Hc). rewrite Hc.
  pose proof (applyLayers_fold f g Hstep layers
                {| Template_APIVersion := APIVersion; Template_Kind := KindEncodingTemplate;
                   Template_Metadata := Template_Metadata copy;
                   Template_Spec := Template_Spec copy |} h1) as Hfold.
  destruct (applyLayers _ layers h1) as [r h'].
  exists r, h'. split; [done|]. cbn in Hfold. by rewrite Hfold, (Hcopy _ _ _ _ Hc).
Qed.

Lemma Resolve_total (base : Template) (layers : list (option Template)) (h : Heap) :
  ∃ r h', Resolve (Some base) layers h = Ok (r, h').
Proof.
  unfold Resolve. destruct (deepCopy_total base h) as (copy & h1 & ->).
  destruct (applyLayers _ layers h1) as [r h']. by exists r, h'.
Qed.


(** The flags that a layer can only switch on. *)
Definition flagFields : list (Spec → bool) :=
  [λ s, MetricsSpec_Enabled (ObservabilitySpec_Metrics (Spec_Observability s));
   λ s, TracesSpec_Enabled (ObservabilitySpec_Traces (Spec_Observability s));
   λ s, HealthCheckSpec_ReadinessGate (ObservabilitySpec_HealthCheck (Spec_Observability s))].





Lemma foldl_sticky (vals : list bool) (base : bool) :
  foldl (λ a v : bool, if v then true else a) base vals = base || existsb id vals.
Proof.
  revert base. induction vals as [|v vals IH]; intros base; simpl.
  - by rewrite orb_false_r.
  - rewrite IH. by destruct v, base.
Qed.

Ltac copy_keeps_field :=
  let t := fresh "t" in
  let h := fresh "h" in
  let Hc := fresh "Hc" in
  intros t h ? ? Hc;
  destruct (deepCopy_fields t h) as (? & ? & ? & ? & ? & Hc' & ->);
  rewrite Hc in Hc'; injection Hc' as -> ->; reflexivity.

Ltac step_combines :=
  let dst := fresh "dst" in
  let src := fresh "src" in
  let h := fresh "h" in
  intros dst src h; rewrite mergeSpec_fields; cbn [fst Spec_Identity Spec_Runtime Spec_Network
    Spec_Secrets Spec_Observability Spec_Policy];
  try match goal with
      | |- context [mergeNetwork ?d ?s ?hh] =>
          destruct (mergeNetwork_fields d s hh) as (? & ? & -> & _)
      end;
  try rewrite mergeIdentity_fields;
  cbn; unfold setIfNonEmpty; repeat case_decide; try done;
  repeat match goal with |- context [if ?b then true else _] => destruct b end; done.





(** X5. The metrics and traces [enabled] flags and the readiness gate are
    sticky: in the resolved template each is true exactly when the base
    or some layer has it true, so no layer can switch off what an earlier
    one switched on. *)
Theorem Resolve_flags_sticky (base : Template) (layers : list (option Template)) (h : Heap) :
  ∃ r h',
    Resolve (Some base) layers h = Ok (r, h')
    ∧ Forall (λ f : Spec → bool,
                f (Template_Spec r)
                = f (Template_Spec base)
                  || existsb id (f ∘ Template_Spec <$> presentLayers layers))
        flagFields.
Proof.
  destruct (Resolve_total base layers h) as (r & h' & Hr). exists r, h'. split; [done|].
  assert (∀ f : Spec → bool,
            (∀ dst src h, f (mergeSpec dst src h).1 = if f src then true else f dst) →
            (∀ t h copy h', deepCopy t h = Ok (copy, h') →
                            f (Template_Spec copy) = f (Template_Spec t)) →
            f (Template_Spec r)
            = f (Template_Spec base)
              || existsb id (f ∘ Template_Spec <$> presentLayers layers)) as Hfield.
  { intros f Hstep Hcopy.
    destruct (Resolve_fold f (λ a v : bool, if v then true else a) Hstep Hcopy
                base layers h) as (r' & h'' & Hr' & Heq).
    rewrite Hr in Hr'. injection Hr' as <- <-. rewrite Heq.
    by apply foldl_sticky. }
  unfold flagFields.
  repeat match goal with
         | |- Forall _ (?f :: _) =>
             apply Forall_cons; split; [apply (Hfield f); [step_combines|copy_keeps_field]|]
         end.
  apply Forall_nil_2.
Qed.

(** ** Resolve: failure, nil layers, metadata *)






(** ** Which maps [Resolve] writes *)

(** The ACL mapping a template refers to, if any, and those of the
    layers of a call. *)
Definition aclRef (t : Template) : mapref :=
  match NetworkSpec_Tailscale (Spec_Network (Template_Spec t)) with
  | Some ts => TailscaleSpec_ACLMapping ts
  | None => None
  end.

Definition layerACLs (layers : list (option Template)) : list loc :=
  omap aclRef (presentLayers layers).

(** The maps a template refers to. *)
Definition refsOf (t : Template) : list loc :=
  omap id [Metadata_Labels (Template_Metadata t);
           IdentitySpec_Labels (Spec_Identity (Template_Spec t));
           aclRef t].

(** [Preserved h0 A h]: the heap [h] still has every map of [h0], with
    the entries it had, except possibly those at the locations of [A]. *)
Definition Preserved (h0 : Heap) (A : list loc) (h : Heap) : Prop :=
  dom h0 ⊆ dom h ∧ ∀ l, l ∈ dom h0 → l ∉ A → h !! l = h0 !! l.

(** A reference the resolver may write through: a map allocated since
    [h0], or one of [A]. *)
Definition mayWrite (h0 : Heap) (A : list loc) (r : mapref) : Prop :=
  ∀ l, r = Some l → l ∉ dom h0 ∨ l ∈ A.

Section Frame.

Variable h0 : Heap.
Variable A : list loc.

Lemma Preserved_insert (h : Heap) (l : loc) (m : gmap string string) :
  Preserved h0 A h → (l ∉ dom h0 ∨ l ∈ A) → Preserved h0 A (<[l := m]> h).
Proof.
  intros [Hdom Hkeep] Hl. split.
  - intros x Hx. rewrite dom_insert. apply elem_of_union. right. by apply Hdom.
  - intros l' Hl' HA. rewrite lookup_insert_ne; [by apply Hkeep|].
    intros <-. by destruct Hl.
Qed.

Lemma fresh_not_in_h0 (h : Heap) : Preserved h0 A h → fresh (dom h) ∉ dom h0.
Proof. intros [Hdom _] Hin. apply (is_fresh (dom h)). by apply Hdom. Qed.

Lemma mergeMaps_preserved (dst src : mapref) (h : Heap) :
  Preserved h0 A h → mayWrite h0 A dst →
  Preserved h0 A (mergeMaps dst src h).2 ∧ mayWrite h0 A (mergeMaps dst src h).1.
Proof.
  intros Hp Hdst. unfold mergeMaps. case_decide; [done|].
  destruct dst as [d|]; unfold bind, makeMap, assignAll, ret; cbn [fst snd].
  - split; [|done]. apply Preserved_insert; [done|by apply Hdst].
  - pose proof (fresh_not_in_h0 h Hp) as Hfresh. split.
    + apply Preserved_insert; [|by left]. apply Preserved_insert; [done|by left].
    + intros l [= <-]. by left.
Qed.

Lemma mergeMetadataLabels_preserved (dst src : Template) (h : Heap) :
  Preserved h0 A h → mayWrite h0 A (Metadata_Labels (Template_Metadata dst)) →
  Preserved h0 A (mergeMetadataLabels dst src h).2
  ∧ mayWrite h0 A (Metadata_Labels (Template_Metadata (mergeMetadataLabels dst src h).1)).
Proof.
  intros Hp Hdst. unfold mergeMetadataLabels. case_decide; [done|].
  destruct (Metadata_Labels (Template_Metadata dst)) as [d|];
    unfold bind, makeMap, assignAll, ret; cbn [fst snd Template_Metadata Metadata_Labels].
  - split; [|done]. apply Preserved_insert; [done|by apply Hdst].
  - pose proof (fresh_not_in_h0 h Hp) as Hfresh. split.
    + apply Preserved_insert; [|by left]. apply Preserved_insert; [done|by left].
    + intros l [= <-]. by left.
Qed.

Lemma mergeNetwork_preserved (dst src : NetworkSpec) (h : Heap) :
  Preserved h0 A h →
  mayWrite h0 A (from_option TailscaleSpec_ACLMapping None (NetworkSpec_Tailscale dst)) →
  (∀ l, from_option TailscaleSpec_ACLMapping None (NetworkSpec_Tailscale src) = Some l → l ∈ A) →
  Preserved h0 A (mergeNetwork dst src h).2
  ∧ mayWrite h0 A
      (from_option TailscaleSpec_ACLMapping None
         (NetworkSpec_Tailscale (mergeNetwork dst src h).1)).
Proof.
  intros Hp Hdst Hsrc.
  destruct (mergeNetwork_fields dst src h) as (ts & h' & -> & Hts).
  cbn [fst snd NetworkSpec_Tailscale].
  destruct (NetworkSpec_Tailscale src) as [s|].
  - destruct Hts as (merged & -> & Hm). unfold mergeTailscale in Hm.
    destruct (NetworkSpec_Tailscale dst) as [out|].
    + unfold bind, ret in Hm.
      pose proof (mergeMaps_preserved (TailscaleSpec_ACLMapping out)
                    (TailscaleSpec_ACLMapping s) h Hp Hdst) as [Hp' Hr].
      destruct (mergeMaps (TailscaleSpec_ACLMapping out) (TailscaleSpec_ACLMapping s) h)
        as [acl h''].
      by injection Hm as <- <-.
    + injection Hm as <- <-. split; [done|]. intros l Hl. right. by apply Hsrc.
  - by destruct Hts as [-> ->].
Qed.

(** The references of a template through which a merge may write. *)
Definition writableRefs (t : Template) : Prop :=
  mayWrite h0 A (Metadata_Labels (Template_Metadata t))
  ∧ mayWrite h0 A (IdentitySpec_Labels (Spec_Identity (Template_Spec t)))
  ∧ mayWrite h0 A (aclRef t).

Lemma applyLayer_preserved (result : Template) (layer : option Template) (h : Heap) :
  Preserved h0 A h → writableRefs result →
  (∀ l, (layer ≫= aclRef) = Some l → l ∈ A) →
  Preserved h0 A (applyLayer result layer h).2 ∧ writableRefs (applyLayer result layer h).1.
Proof.
  intros Hp (Hmd & Hid & Hacl) Hlayer. destruct layer as [l|]; [|done].
  unfold applyLayer, bind. rewrite mergeSpec_fields, mergeIdentity_fields.
  cbn [fst snd].
  pose proof (mergeMaps_preserved (IdentitySpec_Labels (Spec_Identity (Template_Spec result)))
                (IdentitySpec_Labels (Spec_Identity (Template_Spec l))) h Hp Hid)
    as [Hp1 Hid1].
  set (h1 := (mergeMaps _ _ h).2) in *.
  pose proof (mergeNetwork_preserved (Spec_Network (Template_Spec result))
                (Spec_Network (Template_Spec l)) h1 Hp1 Hacl Hlayer) as [Hp2 Hacl2].
  set (h2 := (mergeNetwork _ _ h1).2) in *.
  match goal with
  | |- context [mergeMetadataLabels ?dst l h2] =>
      pose proof (mergeMetadataLabels_preserved dst l h2 Hp2 Hmd) as [Hp3 Hmd3];
      pose proof (mergeMetadataLabels_fields dst l h2) as [Hspec _];
      destruct (mergeMetadataLabels dst l h2) as [result' h3]
  end.
  cbn [fst snd] in *. split; [done|]. unfold writableRefs, aclRef.
  rewrite Hspec. cbn [Template_Spec Spec_Identity Spec_Network IdentitySpec_Labels].
  split; [done|]. split; [done|].
  unfold aclRef in Hacl2.
  by destruct (NetworkSpec_Tailscale (mergeNetwork _ _ h1).1).
Qed.

Lemma applyLayers_preserved (layers : list (option Template)) (result : Template) (h : Heap) :
  Preserved h0 A h → writableRefs result →
  (∀ l, l ∈ layerACLs layers → l ∈ A) →
  Preserved h0 A (applyLayers result layers h).2.
Proof.
  revert result h. induction layers as [|layer rest IH]; intros result h Hp Hw HA; [done|].
  cbn [applyLayers]. unfold bind.
  pose proof (applyLayer_preserved result layer h Hp Hw) as Hstep.
  destruct (applyLayer result layer h) as [result' h']. cbn [fst snd] in Hstep.
  destruct Hstep as [Hp' Hw'].
  - intros l Hl. apply HA. unfold layerACLs, presentLayers.
    destruct layer as [t|]; [|done]. cbn in Hl |- *. rewrite Hl. by left.
  - apply IH; [done|done|]. intros l Hl. apply HA. unfold layerACLs, presentLayers in *.
    destruct layer as [t|]; [|done]. cbn. destruct (aclRef t); [by right|done].
Qed.

End Frame.

Lemma copyMap_preserved (h0 : Heap) (r : mapref) (h : Heap) :
  Preserved h0 [] h →
  Preserved h0 [] (copyMap r h).2 ∧ mayWrite h0 [] (copyMap r h).1.
Proof.
  intros Hp. unfold copyMap. case_decide; [done|]. cbn [fst snd]. split.
  - apply Preserved_insert; [done|]. left. by apply fresh_not_in_h0 with (A := []).
  - intros l [= <-]. left. by apply fresh_not_in_h0 with (A := []).
Qed.

Lemma Preserved_weaken (h0 : Heap) (A : list loc) (h : Heap) :
  Preserved h0 [] h → Preserved h0 A h.
Proof.
  intros [Hdom Hkeep]. split; [done|]. intros l Hl _. apply Hkeep; [done|].
  apply not_elem_of_nil.
Qed.

Lemma mayWrite_weaken (h0 : Heap) (A : list loc) (r : mapref) :
  mayWrite h0 [] r → mayWrite h0 A r.
Proof.
  intros Hr l Hl. destruct (Hr l Hl) as [?|Hin]; [by left|]. by apply elem_of_nil in Hin.
Qed.

(** The copy of the base only refers to maps allocated by the copy. *)
Lemma deepCopy_preserved (t : Template) (h : Heap) (copy : Template) (h1 : Heap) :
  deepCopy t h = Ok (copy, h1) →
  Preserved h [] h1 ∧ writableRefs h [] copy.
Proof.
  unfold deepCopy, bind, ret. intros Hc.
  assert (Preserved h [] h) as Hp0 by (split; [done|by intros]).
  pose proof (copyMap_preserved h (Metadata_Labels (Template_Metadata t)) h Hp0) as [Hp1 Hr1].
  destruct (copyMap (Metadata_Labels (Template_Metadata t)) h) as [ml h'1].
  cbn [fst snd] in Hp1, Hr1.
  pose proof (copyMap_preserved h (IdentitySpec_Labels (Spec_Identity (Template_Spec t)))
                h'1 Hp1) as [Hp2 Hr2].
  destruct (copyMap (IdentitySpec_Labels (Spec_Identity (Template_Spec t))) h'1) as [il h'2].
  cbn [fst snd] in Hp2, Hr2.
  destruct (NetworkSpec_Tailscale (Spec_Network (Template_Spec t))) as [ts|].
  - pose proof (copyMap_preserved h (TailscaleSpec_ACLMapping ts) h'2 Hp2) as [Hp3 Hr3].
    destruct (copyMap (TailscaleSpec_ACLMapping ts) h'2) as [acl h'3].
    cbn [fst snd] in Hp3, Hr3. injection Hc as <- <-.
    split; [done|]. unfold writableRefs, aclRef. cbn. by repeat split.
  - injection Hc as <- <-.
    split; [done|]. unfold writableRefs, aclRef. cbn. by repeat split.
Qed.

(** A template that shares no map with the ACL mappings of the layers,
    and whose maps are allocated. *)
Definition apartFrom (h : Heap) (layers : list (option Template)) (t : Template) : Prop :=
  ∀ l, l ∈ refsOf t → l ∈ dom h ∧ l ∉ layerACLs layers.

Lemma mapsOf_preserved (h h' : Heap) (layers : list (option Template)) (t : Template) :
  Preserved h (layerACLs layers) h' → apartFrom h layers t → mapsOf h' t = mapsOf h t.
Proof.
  intros [_ Hkeep] Hapart.
  assert (∀ r : mapref, (∀ l, r = Some l → l ∈ refsOf t) → mapContent h' r = mapContent h r)
    as Hsame.
  { intros [l|] Hr; [|done]. simpl. rewrite !lookup_total_alt.
    destruct (Hapart l (Hr l eq_refl)) as [Hdom Hacl]. by rewrite Hkeep. }
  unfold mapsOf. rewrite !Hsame.
  - fold (aclRef t). unfold aclRef.
    destruct (NetworkSpec_Tailscale (Spec_Network (Template_Spec t))) as [ts|] eqn:Hts;
      [|done].
    rewrite (Hsame (TailscaleSpec_ACLMapping ts)); [done|].
    intros l Hl. unfold refsOf, aclRef. rewrite Hts, Hl.
    apply list_elem_of_omap. exists (Some l). split; [|done].
    apply elem_of_cons. right. apply elem_of_cons. right. apply elem_of_cons. by left.
  - intros l Hl. unfold refsOf. rewrite Hl. apply list_elem_of_omap. exists (Some l).
    split; [|done]. apply elem_of_cons. right. apply elem_of_cons. by left.
  - intros l Hl. unfold refsOf. rewrite Hl. apply list_elem_of_omap. exists (Some l).
    split; [|done]. apply elem_of_cons. by left.
Qed.

(** X8. [Resolve] only writes into maps it allocated itself and into the ACL
    mappings of the layers: every map that existed before the call and is
    not the ACL mapping of a layer keeps its entries. Hence the base, and
    every layer, is left as it was whenever its maps are not shared with
    the ACL mapping of a layer. *)
Theorem Resolve_preserves_other_maps (base : Template) (layers : list (option Template))
    (h : Heap) (r : Template) (h' : Heap) :
  Resolve (Some base) layers h = Ok (r, h') →
  (∀ l, l ∈ dom h → l ∉ layerACLs layers → h' !! l = h !! l)
  ∧ (∀ t, apartFrom h layers t → mapsOf h' t = mapsOf h t).
Proof.
  intros Hr. unfold Resolve in Hr.
  destruct (deepCopy base h) as [[copy h1]|e] eqn:Hc; [|done].
  destruct (deepCopy_preserved base h copy h1 Hc) as [Hp1 (Hmd & Hid & Hacl)].
  injection Hr as Hr.
  assert (Preserved h (layerACLs layers) h') as Hp.
  { replace h' with (applyLayers
                       {| Template_APIVersion := APIVersion;
                          Template_Kind := KindEncodingTemplate;
                          Template_Metadata := Template_Metadata copy;
                          Template_Spec := Template_Spec copy |} layers h1).2
      by (by rewrite Hr).
    apply applyLayers_preserved; [by apply Preserved_weaken| |done].
    repeat split; by apply mayWrite_weaken. }
  split; [apply Hp|]. intros t Ht. by apply (mapsOf_preserved h h' layers t).
Qed.

(** A base whose metadata labels are the map at location 3, next to the
    two ACL mappings of [twoACLs]. *)
Definition labelledBase : Template :=
  {| Template_APIVersion := ""; Template_Kind := "";
     Template_Metadata :=
       {| Metadata_Name := "base"; Metadata_Version := ""; Metadata_Description := "";
          Metadata_Labels := Some 3%positive |};
     Template_Spec := zeroSpec |}.

Definition threeMaps : Heap := <[3%positive := {["owner" := "adam"]}]> twoACLs.

Lemma Resolve_preserves_other_maps_witness :
  ∃ r h',
    Resolve (Some labelledBase) [Some (tailscaleLayer 1%positive); Some (tailscaleLayer 2%positive)]
      threeMaps = Ok (r, h')
    ∧ mapsOf h' labelledBase = mapsOf threeMaps labelledBase.
Proof.
  destruct (Resolve_total labelledBase
              [Some (tailscaleLayer 1%positive); Some (tailscaleLayer 2%positive)] threeMaps)
    as (r & h' & Hr).
  exists r, h'. split; [exact Hr|].
  apply (proj2 (Resolve_preserves_other_maps _ _ _ _ _ Hr)).
  intros l Hl. apply list_elem_of_singleton in Hl as ->. split.
  - apply elem_of_dom. by eexists.
  - by vm_compute; intros Hin; repeat (apply elem_of_cons in Hin as [?|Hin]; [done|]);
      apply elem_of_nil in Hin.
Defined.

(** ** Label maps *)

Lemma mergeMetadataLabels_as_mergeMaps (dst src : Template) (h : Heap) :
  (Metadata_Labels (Template_Metadata (mergeMetadataLabels dst src h).1),
   (mergeMetadataLabels dst src h).2)
  = mergeMaps (Metadata_Labels (Template_Metadata dst))
      (Metadata_Labels (Template_Metadata src)) h.
Proof.
  unfold mergeMetadataLabels, mergeMaps. case_decide; [done|].
  by destruct (Metadata_Labels (Template_Metadata dst)).
Qed.

Lemma lookup_later_wins (later earlier : gmap string string) (k : string) :
  (later ∪ earlier) !! k
  = match later !! k with
    | Some v => Some v
    | None => earlier !! k
    end.
Proof. rewrite lookup_union. by destruct (later !! k), (earlier !! k). Qed.

(** X9. Label maps merge key by key: after a layer is merged, the metadata
    labels and the identity labels of the result hold, for every key, the
    layer's value when the layer has the key and the accumulated value
    otherwise; no accumulated key is lost. *)
Theorem labels_merge_key_by_key (dst src : Template) (h : Heap) (k : string) :
  mapContent (mergeMetadataLabels dst src h).2
    (Metadata_Labels (Template_Metadata (mergeMetadataLabels dst src h).1)) !! k
  = match mapContent h (Metadata_Labels (Template_Metadata src)) !! k with
    | Some v => Some v
    | None => mapContent h (Metadata_Labels (Template_Metadata dst)) !! k
    end
  ∧ mapContent
      (mergeIdentity (Spec_Identity (Template_Spec dst)) (Spec_Identity (Template_Spec src)) h).2
      (IdentitySpec_Labels
         (mergeIdentity (Spec_Identity (Template_Spec dst))
            (Spec_Identity (Template_Spec src)) h).1) !! k
    = match mapContent h (IdentitySpec_Labels (Spec_Identity (Template_Spec src))) !! k with
      | Some v => Some v
      | None => mapContent h (IdentitySpec_Labels (Spec_Identity (Template_Spec dst))) !! k
      end.
Proof.
  split.
  - pose proof (mergeMetadataLabels_as_mergeMaps dst src h) as Heq.
    pose proof (mergeMaps_content (Metadata_Labels (Template_Metadata dst))
                  (Metadata_Labels (Template_Metadata src)) h) as Hc.
    rewrite <- Heq in Hc. cbn [fst snd] in Hc. rewrite Hc. apply lookup_later_wins.
  - rewrite mergeIdentity_fields. cbn [fst snd IdentitySpec_Labels].
    rewrite mergeMaps_content. apply lookup_later_wins.
Qed.

(** ** Slice merges: key sets and non-emptiness *)

Section SliceFacts.

Context {A : Type} (name : A → string).

Lemma union_keys (dst src : list A) (k : string) :
  k ∈ name <$> (dst ++ filter (λ p, name p ∉ name <$> dst) src)
  ↔ k ∈ name <$> dst ∨ k ∈ name <$> src.
Proof.
  rewrite fmap_app, elem_of_app. split.
  - intros [?|Hin]; [by left|]. right.
    apply list_elem_of_fmap in Hin as (p & -> & Hp).
    apply list_elem_of_filter in Hp as [_ Hp]. by apply list_elem_of_fmap_2.
  - intros [?|Hin]; [by left|].
    destruct (decide (k ∈ name <$> dst)) as [?|Hno]; [by left|]. right.
    apply list_elem_of_fmap in Hin as (p & -> & Hp).
    apply list_elem_of_fmap_2. by apply list_elem_of_filter.
Qed.

Lemma NoDup_fmap_filter (P : A → Prop) `{∀ x, Decision (P x)} (l : list A) :
  NoDup (name <$> l) → NoDup (name <$> filter P l).
Proof.
  induction l as [|x l IH]; [done|]. rewrite fmap_cons, filter_cons.
  intros [Hx Hl]%NoDup_cons. case_decide; [|by apply IH].
  rewrite fmap_cons. apply NoDup_cons. split; [|by apply IH].
  intros Hin. apply Hx. apply list_elem_of_fmap in Hin as (y & Heq & Hy).
  apply list_elem_of_filter in Hy as [_ Hy]. rewrite Heq. by apply list_elem_of_fmap_2.
Qed.

Lemma union_NoDup (dst src : list A) :
  NoDup (name <$> dst) → NoDup (name <$> src) →
  NoDup (name <$> (dst ++ filter (λ p, name p ∉ name <$> dst) src)).
Proof.
  intros Hdst Hsrc. rewrite fmap_app. apply NoDup_app. split; [done|].
  split; [|by apply NoDup_fmap_filter].
  intros k Hk Hin. apply list_elem_of_fmap in Hin as (p & -> & Hp).
  by apply list_elem_of_filter in Hp as [Hp _].
Qed.

End SliceFacts.

(** X10. A union merge keeps identity keys unique: when the port names of the
    accumulated list and those of the incoming list are each pairwise
    distinct, so are the names of the merged list, whose names are those
    of either list; the same holds of secret entries. So a union merge
    of two lists that pass the validator's uniqueness rule passes it
    too. *)
Theorem union_merge_keeps_names_unique :
  (∀ dst src : list PortSpec,
     NoDup (PortSpec_Name <$> dst) → NoDup (PortSpec_Name <$> src) →
     NoDup (PortSpec_Name <$> mergePortSlice dst src MergeStrategyUnion)
     ∧ ∀ k, k ∈ PortSpec_Name <$> mergePortSlice dst src MergeStrategyUnion
            ↔ k ∈ PortSpec_Name <$> dst ∨ k ∈ PortSpec_Name <$> src)
  ∧ (∀ dst src : list SecretEntry,
       NoDup (SecretEntry_Name <$> dst) → NoDup (SecretEntry_Name <$> src) →
       NoDup (SecretEntry_Name <$> mergeSecretEntries dst src MergeStrategyUnion)
       ∧ ∀ k, k ∈ SecretEntry_Name <$> mergeSecretEntries dst src MergeStrategyUnion
              ↔ k ∈ SecretEntry_Name <$> dst ∨ k ∈ SecretEntry_Name <$> src).
Proof.
  split.
  - intros dst src Hdst Hsrc. rewrite mergePortSlice_union.
    split; [by apply union_NoDup|]. intros k. apply union_keys.
  - intros dst src Hdst Hsrc. rewrite mergeSecretEntries_union.
    split; [by apply union_NoDup|]. intros k. apply union_keys.
Qed.

Lemma union_merge_keeps_names_unique_witness :
  NoDup (PortSpec_Name
           <$> mergePortSlice [port "http" 8080; port "metrics" 9090]
                 [port "http" 80; port "https" 443] MergeStrategyUnion).
Proof.
  apply (proj1 union_merge_keeps_names_unique).
  - apply (bool_decide_unpack _). by vm_compute.
  - apply (bool_decide_unpack _). by vm_compute.
Defined.

(** ** Ports and secret entries through the whole resolution *)




Section SliceFold.

Context {A : Type} (merge : list A → list A → string → list A).
Hypothesis merge_nonempty : ∀ dst src s, src ≠ [] → merge dst src s ≠ [].
Hypothesis merge_from : ∀ dst src s p, p ∈ merge dst src s → p ∈ dst ∨ p ∈ src.



End SliceFold.



Lemma mergeSecretEntries_nonempty (dst src : list SecretEntry) (s : string) :
  src ≠ [] → mergeSecretEntries dst src s ≠ [].
Proof.
  intros Hsrc. unfold mergeSecretEntries. case_decide; [by destruct dst, src|].
  case_decide; [|done]. subst s. intros Hm.
  pose proof (mergeSecretEntries_union dst src) as Hu. unfold mergeSecretEntries in Hu.
  rewrite decide_False, decide_True in Hu by done. rewrite Hu in Hm.
  apply app_eq_nil in Hm as [-> Hf]. destruct src as [|p src]; [done|].
  rewrite filter_cons, decide_True in Hf; [done|]. cbn. apply not_elem_of_nil.
Qed.






(** ** Resolution without overrides *)












(** ** Validation after resolution *)

Definition headChar (s : string) : option Ascii.ascii :=
  match s with
  | EmptyString => None
  | String c _ => Some c
  end.

(** Only the two header rules produce a message that starts with [a] or
    with [k]. *)
Lemma Violation_header (ParseIP : string → bool) (quote : string → string) (t : Template)
    (m : string) :
  Violation ParseIP quote t m →
  (headChar m = headChar msgAPIVersion → Template_APIVersion t = "")
  ∧ (headChar m = headChar msgKind → Template_Kind t = "").
Proof.
  intros Hv. destruct Hv; try (split; (done || (intros Hh; by vm_compute in Hh))).
  - destruct H as (i & p & _ & Hp). destruct Hp; split; intros Hh; by vm_compute in Hh.
  - destruct H as (i & e & _ & He). destruct He; split; intros Hh; by vm_compute in Hh.
Qed.

(** X13. Validation after resolution never reports a missing apiVersion or
    kind: [Resolve] sets both, so whatever the base and the layers carry
    in those fields, neither message is among the errors [Validate]
    returns for the resolved template. *)
Theorem resolved_template_passes_header_rules (ParseIP : string → bool)
    (quote : string → string) (base : Template) (layers : list (option Template))
    (h : Heap) :
  ∃ r h',
    Resolve (Some base) layers h = Ok (r, h')
    ∧ ∀ e, Validate ParseIP quote r = Some e →
           (msgAPIVersion ∉ Errors e) ∧ (msgKind ∉ Errors e).
Proof.
  unfold Resolve. destruct (deepCopy_total base h) as (copy & h1 & ->).
  pose proof (applyLayers_identity layers
                {| Template_APIVersion := APIVersion;
                   Template_Kind := KindEncodingTemplate;
                   Template_Metadata := Template_Metadata copy;
                   Template_Spec := Template_Spec copy |} h1) as [Ha Hk].
  destruct (applyLayers _ layers h1) as [r h']. cbn [fst] in Ha, Hk.
  exists r, h'. split; [done|]. intros e He.
  rewrite (Validate_Some _ _ _ _ He).
  split; intros Hin; apply collectErrors_Violation, Violation_header in Hin.
  - destruct Hin as [Hm _]. rewrite Ha in Hm. by specialize (Hm eq_refl).
  - destruct Hin as [_ Hm]. rewrite Hk in Hm. by specialize (Hm eq_refl).
Qed.

(** ** Choosing the renderer (commands render and plan) *)

(** X14. For a template that passed validation, choosing the renderer fails
    exactly when the template asks for the droplet target; a template
    without target is rendered for podman, and openshift shares the
    Kubernetes renderer. *)
Theorem validated_template_renderer (ParseIP : string → bool) (quote : string → string)
    (t : Template) :
  Validate ParseIP quote t = None →
  selectRenderer t
  = let target := RuntimeSpec_DeploymentTarget (Spec_Runtime (Template_Spec t)) in
    if decide (target = TargetDroplet) then Err "unsupported deployment target: droplet"
    else if decide (target = "" ∨ target = TargetPodman) then Ok PodmanRenderer
    else if decide (target = TargetSandbox) then Ok SandboxRenderer
    else Ok KubernetesRenderer.
Proof.
  intros Hv. pose proof (proj1 (Validate_None_Violation _ _ _) Hv) as Hno.
  destruct (no_violation_rules _ _ _ Hno) as [Hrules _].
  destruct Hrules as (_ & _ & _ & _ & Htarget & _). unfold selectRenderer. cbv zeta.
  destruct Htarget as [->|Hin]; [done|].
  unfold targetSet in Hin. rewrite !elem_of_cons, elem_of_nil in Hin.
  destruct Hin as [->|[->|[->|[->|[->|[]]]]]]; done.
Qed.

Lemma validated_template_renderer_witness :
  selectRenderer (gatewayTemplate [port "https" 443; port "http" 8080]) = Ok PodmanRenderer.
Proof.
  rewrite (validated_template_renderer onlyWildcard quotePlain); [done|].
  apply Validate_None_Violation. intros m. apply rules_without_violation.
  - apply (bool_decide_unpack _). by vm_compute.
  - discriminate.
Defined.

(** ** Writing a bundle *)

Lemma scanExt_suffix (path ext : string) :
  scanExt path = ExtFound ext → ∃ stem, path = stem +:+ ext.
Proof.
  revert ext. induction path as [|c rest IH]; intros ext; [done|].
  cbn [scanExt]. destruct (scanExt rest) as [e| |].
  - intros [= <-]. destruct (IH e eq_refl) as [stem ->]. by exists (String c stem).
  - done.
  - repeat case_decide; try done. intros [= <-]. by exists "".
Qed.

Lemma scanExt_sh (stem : string) : scanExt (stem +:+ ".sh") = ExtFound ".sh".
Proof.
  induction stem as [|c stem IH]; [reflexivity|].
  rewrite append_cons. cbn [scanExt]. by rewrite IH.
Qed.

(** X15. A bundle file counts as a script, and is written executable, exactly
    when its path ends in [.sh]; directories on the way and other dots
    in the name do not matter. *)
Theorem isScript_iff_sh_suffix (path : string) :
  isScript path = true ↔ ∃ stem, path = stem +:+ ".sh".
Proof.
  unfold isScript, Ext. rewrite bool_decide_eq_true. split.
  - destruct (scanExt path) as [e| |] eqn:Hscan; [|done..].
    intros ->. by apply scanExt_suffix.
  - intros [stem ->]. by rewrite scanExt_sh.
Qed.

Section WriteBundlePost.

(** A file system with a way to look a file up, such that creating
    directories changes no file and writing a file changes that file
    only. *)
Context {FS : Type}.
Variable MkdirAll : string → Z → FS → Result FS.
Variable WriteFile : string → string → Z → FS → Result FS.
Variable filepath_Join : string → string → string.
Variable filepath_Dir : string → string.
Variable jsonString : string → string.
Variable read : FS → string → option (string * Z).

Hypothesis mkdir_read :
  ∀ d m fs fs', MkdirAll d m fs = Ok fs' → ∀ p, read fs' p = read fs p.
Hypothesis write_read :
  ∀ p c m fs fs', WriteFile p c m fs = Ok fs' →
                  ∀ p', read fs' p' = if decide (p' = p) then Some (c, m) else read fs p'.




End WriteBundlePost.







(** ** The registry's listing (registry.go) *)

Lemma length_append (s t : string) :
  String.length (s +:+ t) = (String.length s + String.length t)%nat.
Proof. induction s as [|c s IH]; [done|]. rewrite append_cons. simpl. by rewrite IH. Qed.

Lemma stripSuffix_Some (s suffix stem : string) :
  stripSuffix s suffix = Some stem ↔ s = stem +:+ suffix.
Proof.
  split.
  - revert stem. induction s as [|c s IH]; intros stem; cbn [stripSuffix]; case_decide.
    + by intros [= <-].
    + done.
    + by intros [= <-].
    + destruct (stripSuffix s suffix) as [stem'|]; [|done].
      intros [= <-]. by rewrite append_cons, <- (IH stem').
  - intros ->. induction stem as [|c stem IH].
    + change ("" +:+ suffix) with suffix. destruct suffix; cbn [stripSuffix]; by rewrite decide_True.
    + rewrite append_cons. cbn [stripSuffix]. rewrite decide_False, IH; [done|].
      intros Heq. apply (f_equal String.length) in Heq.
      cbn [String.length] in Heq. rewrite length_append in Heq. lia.
Qed.

Lemma HasSuffix_true (s suffix : string) :
  HasSuffix s suffix = true ↔ ∃ stem, s = stem +:+ suffix.
Proof.
  unfold HasSuffix. rewrite bool_decide_eq_true. split.
  - intros [stem Hs]. exists stem. by apply stripSuffix_Some.
  - intros [stem Hs]. exists stem. by apply stripSuffix_Some.
Qed.

Lemma TrimSuffix_append (stem suffix : string) : TrimSuffix (stem +:+ suffix) suffix = stem.
Proof. unfold TrimSuffix. by rewrite (proj2 (stripSuffix_Some _ _ stem)). Qed.

Lemma TrimSuffix_other (s suffix : string) : HasSuffix s suffix = false → TrimSuffix s suffix = s.
Proof.
  unfold HasSuffix, TrimSuffix. rewrite bool_decide_eq_false.
  destruct (stripSuffix s suffix); [|done]. intros []. by eexists.
Qed.

(** No name ends both in [.yaml] and in [.yml]. *)
Lemma yml_not_yaml (stem : string) : HasSuffix (stem +:+ ".yml") ".yaml" = false.
Proof.
  unfold HasSuffix. apply bool_decide_eq_false. intros [x Hx].
  apply stripSuffix_Some in Hx. revert x Hx. induction stem as [|c stem IH]; intros x Hx.
  - destruct x as [|? [|? [|? [|? [|? ?]]]]]; discriminate.
  - rewrite append_cons in Hx. destruct x as [|d x].
    + change ("" +:+ ".yaml") with ".yaml" in Hx. injection Hx as _ Hx.
      destruct stem as [|? [|? [|? [|? [|? ?]]]]]; discriminate.
    + rewrite append_cons in Hx. injection Hx as _ Hx. by apply (IH x).
Qed.

Lemma listNames_loop (entries : list DirEntry) (acc : list string) :
  foldl (λ names e,
           if DirEntry_IsDir e then names
           else
             let name := DirEntry_Name e in
             if HasSuffix name ".yaml" || HasSuffix name ".yml"
             then names ++ [TrimSuffix (TrimSuffix name ".yaml") ".yml"]
             else names)
    acc entries
  = acc ++ ((λ e, TrimSuffix (TrimSuffix (DirEntry_Name e) ".yaml") ".yml")
            <$> filter (λ e, DirEntry_IsDir e = false
                             ∧ (HasSuffix (DirEntry_Name e) ".yaml" = true
                                ∨ HasSuffix (DirEntry_Name e) ".yml" = true)) entries).
Proof.
  revert acc. induction entries as [|e entries IH]; intros acc; cbn [foldl].
  - by rewrite app_nil_r.
  - rewrite IH, filter_cons. destruct (DirEntry_IsDir e).
    + by rewrite decide_False by (by intros [? _]).
    + cbv zeta. destruct (HasSuffix (DirEntry_Name e) ".yaml") eqn:Hyaml;
        [|destruct (HasSuffix (DirEntry_Name e) ".yml") eqn:Hyml]; cbn [orb].
      * rewrite decide_True by auto. by rewrite fmap_cons, <- app_assoc.
      * rewrite decide_True by auto. by rewrite fmap_cons, <- app_assoc.
      * by rewrite decide_False by (intros [_ [?|?]]; done).
Qed.

(** X18. What the registry lists: the names come back in increasing order,
    and a name is listed exactly when the directory has a file (not a
    sub-directory) called that name plus [.yml], or called [stem.yaml]
    where the name is [stem] with a final [.yml] cut off. A directory
    that does not exist lists nothing, and any other read failure is an
    error. *)
Theorem listDir_lists_template_files (dir : string) (entries : list DirEntry) :
  listDir dir ReadDirNotExist = Ok []
  ∧ (∀ msg, ∃ e, listDir dir (ReadDirError msg) = Err e)
  ∧ ∃ names,
      listDir dir (ReadDirEntries entries) = Ok names
      ∧ Sorted String.le names
      ∧ ∀ n, n ∈ names
             ↔ ∃ e, e ∈ entries ∧ DirEntry_IsDir e = false
                    ∧ (DirEntry_Name e = n +:+ ".yml"
                       ∨ ∃ stem, DirEntry_Name e = stem +:+ ".yaml"
                                 ∧ n = TrimSuffix stem ".yml").
Proof.
  split; [done|]. split; [by eexists|].
  exists (listNames entries). split; [done|]. split; [apply sortStrings_sorted|].
  intros n. unfold listNames. rewrite sortStrings_perm, listNames_loop, app_nil_l.
  rewrite list_elem_of_fmap. split.
  - intros (e & -> & Hin). apply list_elem_of_filter in Hin as [[Hfile Hname] Hin].
    exists e. split; [done|]. split; [done|].
    destruct (HasSuffix (DirEntry_Name e) ".yaml") eqn:Hyaml.
    + apply HasSuffix_true in Hyaml as [stem Hstem]. right. exists stem.
      by rewrite Hstem, TrimSuffix_append.
    + destruct Hname as [?|Hyml]; [done|]. left.
      rewrite (TrimSuffix_other _ _ Hyaml).
      apply HasSuffix_true in Hyml as [stem Hstem]. by rewrite Hstem, TrimSuffix_append.
  - intros (e & Hin & Hfile & [Hyml|(stem & Hyaml & ->)]); exists e.
    + split.
      * by rewrite Hyml, (TrimSuffix_other _ _ (yml_not_yaml n)), TrimSuffix_append.
      * apply list_elem_of_filter. split; [|done]. split; [done|]. right.
        apply HasSuffix_true. by exists n.
    + split; [by rewrite Hyaml, TrimSuffix_append|].
      apply list_elem_of_filter. split; [|done]. split; [done|]. left.
      apply HasSuffix_true. by exists stem.
Qed.



(** ** Loading and resolving from the command line *)





